(** * Bobarista: the navigation and session engine

    A shallow embedding of the form-flow core of [pkg/bobarista]:
    the value store ([values.go]), the error taxonomy ([errors.go]),
    the step descriptor ([form.go]), the navigator ([navigator.go]) and
    the session controller ([bobarista.go], [builder.go]).

    Conventions of the embedding.
    - Go's [int] is [Z]; the only arithmetic on indices is [currentIdx+1]
      and [i++] below [len(forms)], which cannot wrap.
    - [FormValues] (a [map[string]*string]) is a [gmap string (option string)]:
      a key bound to [None] is a key whose value is the nil pointer.
      A [*FormValues] that may be nil is an [option].  Stores come from
      [NewFormValues], so the nil map itself is not represented.
    - Callbacks supplied by the host are functions of the data they are
      handed.  [OnComplete] is handed the session's own global data, so
      it returns the global data as it leaves it (its ID and its store,
      which it may set to nil), the contents of the step's store after
      its writes in place, and the store that the step's data points to
      when it returns.  The recipe's [OnInit] and [OnComplete] reach
      the global store through [GetGlobalData] and return its contents
      after their writes in place.  [ShouldSkip], [NextForm] and
      [Generator] are taken to be observers, callbacks that read the data
      they are handed and write to none of it.
    - The global data pointer of a session is set by [Build] and never
      reset; an operation that would hand a nil global data pointer to a
      callback panics at the call instead.
    - Every invocation of a host callback is recorded in a log of [Call]s,
      ghost state used to say which callbacks ran and on which data.
    - Rendering and file logging are left out: they do not touch the
      fields modelled here. *)

From Stdlib Require Import ZArith.
From stdpp Require Import gmap strings list fin_maps pretty.

Local Open Scope Z_scope.

(** ** values.go *)

Abbreviation FormValues := (gmap string (option string)).

Record FormData := mkFormData {
  ID : string;
  Values : option FormValues
}.

Definition NewFormValues : FormValues := ∅.

Definition NewFormData (id : string) : FormData :=
  {| ID := id; Values := Some NewFormValues |}.

Module FV.

(** [Set] (the name is reserved in Rocq). *)
Definition Set' (fv : FormValues) (key value : string) : FormValues :=
  <[key := Some value]> fv.

Definition Get (fv : FormValues) (key : string) : string * bool :=
  match fv !! key with
  | Some (Some v) => (v, true)
  | _ => (EmptyString, false)
  end.

Definition Has (fv : FormValues) (key : string) : bool :=
  match fv !! key with
  | Some _ => true
  | None => false
  end.

Definition Delete (fv : FormValues) (key : string) : FormValues :=
  delete key fv.

(** One iteration of the [range] loops of [Copy] and [Merge]: the value
    is duplicated when it is not nil, and nil is stored as nil. *)
Definition store_entry (k : string) (v : option string) (acc : FormValues)
  : FormValues :=
  match v with
  | Some value => <[k := Some value]> acc
  | None => <[k := None]> acc
  end.

Definition Copy (fv : FormValues) : FormValues :=
  map_fold store_entry ∅ fv.

(** [fv.Merge(other)]: the receiver is updated in place, so the function
    returns its new contents. *)
Definition Merge (fv : FormValues) (other : option FormValues) : FormValues :=
  match other with
  | None => fv
  | Some o => map_fold store_entry fv o
  end.

End FV.

(** ** errors.go *)

(** An [error] value that is not nil; an [error] that may be nil is an
    [option].  The [Err] field of a [CupSleeveError] is such a field: the
    struct can be made with a nil [Err]. *)
Inductive error :=
| errorString (s : string)
| mkCupSleeveError (FormID : string) (Err : option error)
| DuplicateFormIDError (DupID : string) (FirstIndex SecondIndex : Z).

(** A [CupSleeveError] whose [Err] is not nil. *)
Abbreviation CupSleeveError formID err := (mkCupSleeveError formID (Some err)).

Definition ErrInvalidFormIndex := errorString "invalid form index".
Definition ErrFormNotFound := errorString "form not found".
Definition ErrNoFormsProvided := errorString "no forms provided".
Definition ErrNoValidForms := errorString "no valid forms found".
Definition ErrNoGenerator := errorString "form generator is required".
Definition ErrNilForm := errorString "form generator returned nil".
Definition ErrEmptyFormID := errorString "form ID cannot be empty".

Definition NewCupSleeveError (formID : string) (err : option error) : error :=
  mkCupSleeveError formID err.

Definition NewDuplicateFormIDError (id : string) (firstIndex secondIndex : Z)
  : error :=
  DuplicateFormIDError id firstIndex secondIndex.

(** The [Error()] methods; [None] is the panic of [fe.Err.Error()] on a
    nil [Err]. *)
Fixpoint Error (e : error) : option string :=
  match e with
  | errorString s => Some s
  | mkCupSleeveError formID err =>
      match err with
      | None => None
      | Some inner =>
          match Error inner with
          | None => None
          | Some msg =>
              if decide (formID = EmptyString) then Some msg
              else Some ("form '" +:+ formID +:+ "': " +:+ msg)
          end
      end
  | DuplicateFormIDError id i j =>
      Some ("duplicate form ID '" +:+ id +:+ "' found at indices " +:+ pretty i
              +:+ " and " +:+ pretty j)
  end.

(** The type assertion [err.(CupSleeveError)]. *)
Definition isCupSleeveError (e : error) : bool :=
  match e with
  | mkCupSleeveError _ _ => true
  | _ => false
  end.

Fixpoint error_eq_dec (a b : error) {struct a} : Decision (a = b).
Proof.
  destruct a as [s|i e|i x y], b as [t|j e'|j x' y'];
    try (right; discriminate).
  - destruct (decide (s = t)); [left; congruence|right; congruence].
  - destruct (decide (i = j)); [|right; congruence].
    destruct e as [ea|], e' as [eb|]; try (right; discriminate).
    + destruct (error_eq_dec ea eb); [left; congruence|right; congruence].
    + left; congruence.
  - destruct (decide (i = j)); [|right; congruence].
    destruct (decide (x = x')); [|right; congruence].
    destruct (decide (y = y')); [left; congruence|right; congruence].
Defined.

#[global] Existing Instance error_eq_dec.

(** ** The widget (huh.Form) and the messages of the event loop

    The widget library is external.  A widget is an object with a hidden
    state, its [Update] method and the observation [State == StateCompleted]. *)

Inductive Msg :=
| WindowSizeMsg (width height : Z)
| KeyMsg (key : string)
| OtherMsg.

Inductive Cmd :=
| CmdNil
| Quit
| WidgetCmd.

Record huhForm := mkHuhForm {
  huh_carrier : Type;
  huh_state : huh_carrier;
  huh_update : huh_carrier → Msg → huh_carrier;
  huh_completed : huh_carrier → bool
}.

Definition huhUpdate (w : huhForm) (msg : Msg) : huhForm :=
  {| huh_carrier := huh_carrier w;
     huh_state := huh_update w (huh_state w) msg;
     huh_update := huh_update w;
     huh_completed := huh_completed w |}.

Definition huhStateCompleted (w : huhForm) : bool :=
  huh_completed w (huh_state w).

(** ** form.go *)

Definition FormGenerator : Type := FormValues → option FormValues → option huhForm.

(** What a completion handler leaves behind: the contents of the step's
    store after its in-place writes ([cache_out]); the store that
    [current.Values] points to when the handler returns ([current_out]:
    the step's store with those contents unless the handler pointed it
    elsewhere, nil when it set it to nil); the global data ([*global],
    the session's own: its ID and its store, nil when the handler set
    [global.Values = nil]); and the returned error. *)
Record Completion := mkCompletion {
  cache_out : FormValues;
  current_out : option FormValues;
  global_out : FormData;
  completion_err : option error
}.

Definition CompletionHandler : Type := FormData → FormData → Completion.
Definition SkipCondition : Type := FormData → FormData → bool.
Definition NavigationHandler : Type := FormData → Z.

Record Form := mkForm {
  Form_ID : string;
  Name : string;
  Group : string;
  Generator : option FormGenerator;
  OnComplete : option CompletionHandler;
  ShouldSkip : option SkipCondition;
  NextForm : option NavigationHandler;
  ShowStatus : bool
}.

Definition NewForm (id name : string) : Form :=
  {| Form_ID := id; Name := name; Group := EmptyString;
     Generator := None; OnComplete := None; ShouldSkip := None;
     NextForm := None; ShowStatus := true |}.

Definition WithGenerator (f : Form) (gen : FormGenerator) : Form :=
  {| Form_ID := Form_ID f; Name := Name f; Group := Group f;
     Generator := Some gen; OnComplete := OnComplete f;
     ShouldSkip := ShouldSkip f; NextForm := NextForm f;
     ShowStatus := ShowStatus f |}.

Definition WithOnComplete (f : Form) (handler : CompletionHandler) : Form :=
  {| Form_ID := Form_ID f; Name := Name f; Group := Group f;
     Generator := Generator f; OnComplete := Some handler;
     ShouldSkip := ShouldSkip f; NextForm := NextForm f;
     ShowStatus := ShowStatus f |}.

Definition WithSkipCondition (f : Form) (condition : SkipCondition) : Form :=
  {| Form_ID := Form_ID f; Name := Name f; Group := Group f;
     Generator := Generator f; OnComplete := OnComplete f;
     ShouldSkip := Some condition; NextForm := NextForm f;
     ShowStatus := ShowStatus f |}.

Definition WithNavigation (f : Form) (handler : NavigationHandler) : Form :=
  {| Form_ID := Form_ID f; Name := Name f; Group := Group f;
     Generator := Generator f; OnComplete := OnComplete f;
     ShouldSkip := ShouldSkip f; NextForm := Some handler;
     ShowStatus := ShowStatus f |}.

(** ** The log of callback invocations *)

Inductive Call :=
| CallShouldSkip (formID : string) (current global : FormData)
| CallNextForm (formID : string) (data : FormData)
| CallOnComplete (formID : string) (current global : FormData)
| CallGenerator (formID : string) (current : FormValues)
    (global : option FormValues)
| CallOnInit (global : FormData)
| CallRecipeOnComplete (global : FormData).

Definition isSkipCall (c : Call) : bool :=
  match c with
  | CallShouldSkip _ _ _ => true
  | _ => false
  end.

(** A result together with the callbacks invoked to compute it. *)
Definition Logged (A : Type) : Type := A * list Call.

Definition ret {A} (a : A) : Logged A := (a, []).

Definition logged {A} (calls : list Call) (m : Logged A) : Logged A :=
  (fst m, calls ++ snd m).

(** ** navigator.go *)

Record Navigator := mkNavigator {
  forms : list Form;
  currentIdx : Z;
  history : list Z
}.

Definition NewNavigator (fs : list Form) : Navigator :=
  {| forms := fs; currentIdx := -1; history := [] |}.

Definition GetFormCount (n : Navigator) : Z := Z.of_nat (length (forms n)).

Definition GetCurrentIndex (n : Navigator) : Z := currentIdx n.

Definition Current (n : Navigator) : option Form :=
  if (0 <=? currentIdx n) && (currentIdx n <? GetFormCount n)
  then forms n !! Z.to_nat (currentIdx n)
  else None.

(** The body of the [for i := startIdx; i < len(n.forms); i++] loop of
    [findNextValidForm], run over the forms from position [i] on. *)
Fixpoint findLoop (rest : list Form) (i : Z) (globalData : FormData)
  : Logged Z :=
  match rest with
  | [] => ret (-1)
  | form :: rest' =>
      let tempData := {| ID := Form_ID form; Values := Some NewFormValues |} in
      match ShouldSkip form with
      | None => ret i
      | Some skip =>
          logged [CallShouldSkip (Form_ID form) tempData globalData]
            (if negb (skip tempData globalData) then ret i
             else findLoop rest' (i + 1) globalData)
      end
  end.

(** [startIdx] is [0] or [currentIdx+1] with [currentIdx >= 0] at every
    call site, never negative. *)
Definition findNextValidForm (n : Navigator) (startIdx : Z)
  (globalData : FormData) : Logged (Z * option error) :=
  let r := findLoop (drop (Z.to_nat startIdx) (forms n)) startIdx globalData in
  ((fst r, None), snd r).

Definition Next (n : Navigator) (data : FormData) : Logged (Z * option error) :=
  match Current n with
  | None => findNextValidForm n 0 data
  | Some current =>
      match NextForm current with
      | Some nextForm =>
          let nextIdx := nextForm data in
          logged [CallNextForm (Form_ID current) data]
            (if nextIdx =? -1
             then findNextValidForm n (currentIdx n + 1) data
             else ret (nextIdx, None))
      | None => findNextValidForm n (currentIdx n + 1) data
      end
  end.

Definition MoveTo (n : Navigator) (index : Z) : Navigator * option error :=
  if (index <? 0) || (index >=? GetFormCount n)
  then (n, Some ErrInvalidFormIndex)
  else
    let history' :=
      if currentIdx n >=? 0 then history n ++ [currentIdx n] else history n in
    ({| forms := forms n; currentIdx := index; history := history' |}, None).

Definition MoveToFirstValid (n : Navigator) (globalData : FormData)
  : Logged (Navigator * option error) :=
  let r := findNextValidForm n 0 globalData in
  match fst r with
  | (_, Some err) => ((n, Some err), snd r)
  | (nextIdx, None) =>
      if nextIdx =? -1 then ((n, Some ErrNoValidForms), snd r)
      else (({| forms := forms n; currentIdx := nextIdx;
                history := history n |}, None), snd r)
  end.

Definition Back (n : Navigator) : Navigator * bool :=
  match last (history n) with
  | None => (n, false)
  | Some top =>
      ({| forms := forms n; currentIdx := top;
          history := removelast (history n) |}, true)
  end.

Definition HasNext (n : Navigator) : bool :=
  currentIdx n <? GetFormCount n - 1.

Definition HasPrevious (n : Navigator) : bool :=
  match history n with
  | [] => false
  | _ => true
  end.

Definition Reset (n : Navigator) : Navigator :=
  {| forms := forms n; currentIdx := -1; history := [] |}.

(** The first loop of [ValidateNavigation]: empty and duplicate IDs,
    with [idMap] remembering the first position of every ID seen. *)
Fixpoint validateIDs (fs : list Form) (i : Z) (idMap : gmap string Z)
  (errors : list error) : list error :=
  match fs with
  | [] => errors
  | form :: rest =>
      if decide (Form_ID form = EmptyString)
      then validateIDs rest (i + 1) idMap
             (errors ++ [NewCupSleeveError EmptyString (Some ErrEmptyFormID)])
      else
        match idMap !! Form_ID form with
        | Some existingIdx =>
            validateIDs rest (i + 1) idMap
              (errors ++ [NewCupSleeveError (Form_ID form)
                            (Some (NewDuplicateFormIDError (Form_ID form)
                                     existingIdx i))])
        | None =>
            validateIDs rest (i + 1) (<[Form_ID form := i]> idMap) errors
        end
  end.

(** The second loop: missing generators. *)
Fixpoint validateGenerators (fs : list Form) (errors : list error)
  : list error :=
  match fs with
  | [] => errors
  | form :: rest =>
      match Generator form with
      | None =>
          validateGenerators rest
            (errors ++ [NewCupSleeveError (Form_ID form) (Some ErrNoGenerator)])
      | Some _ => validateGenerators rest errors
      end
  end.

Definition ValidateNavigation (n : Navigator) : list error :=
  match forms n with
  | [] => [ErrNoFormsProvided]
  | _ => validateGenerators (forms n) (validateIDs (forms n) 0 ∅ [])
  end.

(** ** config.go

    The recipe's display settings are left out.  The two flow callbacks
    receive the controller itself; what they can reach through it is the
    global data ([GetGlobalData]), so they are functions of it that return
    the contents of the global store after their writes. *)

Record Recipe := mkRecipe {
  Title : string;
  MaxWidth : Z;
  ColorScheme : string;
  Debug : bool;
  OnInit : option (FormData → list FormData → FormValues);
  RecipeOnComplete : option (FormData → FormValues * option error)
}.

(** ** bobarista.go *)

Inductive BobaState :=
| StateActive
| StateCompleted
| StateError.

#[global] Instance BobaState_eq_dec : EqDecision BobaState.
Proof. solve_decision. Defined.

(** [navigator] is the pointer set by [Build], never nil; [globalData] is
    a pointer that may be nil; [formValues] is a map that may be nil;
    [calls] is the log of callback invocations. *)
Record Bobarista := mkBobarista {
  config : Recipe;
  boba_forms : list Form;
  navigator : Navigator;
  globalData : option FormData;
  currentForm : option huhForm;
  state : BobaState;
  errors : list error;
  formValues : option (gmap string FormValues);
  calls : list Call
}.

Definition withNavigator (f : Bobarista) (n : Navigator) : Bobarista :=
  {| config := config f; boba_forms := boba_forms f; navigator := n;
     globalData := globalData f; currentForm := currentForm f;
     state := state f; errors := errors f; formValues := formValues f;
     calls := calls f |}.

Definition withGlobalData (f : Bobarista) (g : option FormData) : Bobarista :=
  {| config := config f; boba_forms := boba_forms f; navigator := navigator f;
     globalData := g; currentForm := currentForm f;
     state := state f; errors := errors f; formValues := formValues f;
     calls := calls f |}.

Definition withCurrentForm (f : Bobarista) (w : option huhForm) : Bobarista :=
  {| config := config f; boba_forms := boba_forms f; navigator := navigator f;
     globalData := globalData f; currentForm := w;
     state := state f; errors := errors f; formValues := formValues f;
     calls := calls f |}.

Definition withState (f : Bobarista) (s : BobaState) : Bobarista :=
  {| config := config f; boba_forms := boba_forms f; navigator := navigator f;
     globalData := globalData f; currentForm := currentForm f;
     state := s; errors := errors f; formValues := formValues f;
     calls := calls f |}.

Definition withErrors (f : Bobarista) (es : list error) : Bobarista :=
  {| config := config f; boba_forms := boba_forms f; navigator := navigator f;
     globalData := globalData f; currentForm := currentForm f;
     state := state f; errors := es; formValues := formValues f;
     calls := calls f |}.

Definition withFormValues (f : Bobarista) (m : option (gmap string FormValues))
  : Bobarista :=
  {| config := config f; boba_forms := boba_forms f; navigator := navigator f;
     globalData := globalData f; currentForm := currentForm f;
     state := state f; errors := errors f; formValues := m;
     calls := calls f |}.

Definition record (f : Bobarista) (cs : list Call) : Bobarista :=
  {| config := config f; boba_forms := boba_forms f; navigator := navigator f;
     globalData := globalData f; currentForm := currentForm f;
     state := state f; errors := errors f; formValues := formValues f;
     calls := calls f ++ cs |}.

(** The outcome of a controller operation: it returns, it dereferences a
    nil pointer, or the recursion of [initCurrentForm] outlives the fuel. *)
Inductive Res (A : Type) :=
| Ok (a : A)
| Panic
| OutOfFuel.
Arguments Ok {A} a.
Arguments Panic {A}.
Arguments OutOfFuel {A}.

#[global] Instance Res_bind : MBind Res := λ A B k m,
  match m with
  | Ok a => k a
  | Panic => Panic
  | OutOfFuel => OutOfFuel
  end.

(** [*p] for a pointer [p]. *)
Definition deref {A} (p : option A) : Res A :=
  match p with
  | Some a => Ok a
  | None => Panic
  end.

(** An in-place write of new contents to the store of [d]; a nil store
    has no contents to overwrite. *)
Definition writeValues (d : FormData) (v : FormValues) : FormData :=
  match Values d with
  | Some _ => {| ID := ID d; Values := Some v |}
  | None => d
  end.

(** [f.formValues[id]] with its [exists] flag; reading a nil map finds
    nothing. *)
Definition storedValues (f : Bobarista) (id : string) : option FormValues :=
  match formValues f with
  | Some m => m !! id
  | None => None
  end.

Definition addError (f : Bobarista) (formID : string) (err : error) : Bobarista :=
  let entry :=
    if isCupSleeveError err then err else NewCupSleeveError formID (Some err) in
  withState (withErrors f (errors f ++ [entry])) StateError.

Definition GetGlobalData (f : Bobarista) : FormData :=
  match globalData f with
  | None => {| ID := "global"; Values := Some NewFormValues |}
  | Some g => g
  end.

Definition GetCurrentFormData (f : Bobarista) : FormData :=
  match Current (navigator f) with
  | None => {| ID := EmptyString; Values := Some NewFormValues |}
  | Some current =>
      let currentValues :=
        match storedValues f (Form_ID current) with
        | Some stored => stored
        | None => NewFormValues
        end in
      {| ID := Form_ID current; Values := Some currentValues |}
  end.

Definition GetErrors (f : Bobarista) : list error := errors f.

(** The debug dumps range over [*f.globalData.Values]. *)
Definition debugDump (f : Bobarista) : Res unit :=
  if Debug (config f)
  then g ← deref (globalData f); _ ← deref (Values g); Ok tt
  else Ok tt.

(** Lines 390-406 of [initCurrentForm]: the generator and its widget. *)
Definition generateForm (f : Bobarista) (current : Form)
  (currentValues : FormValues) : Res (Bobarista * Cmd) :=
  match Generator current with
  | None =>
      Ok (addError f (Form_ID current)
            (NewCupSleeveError (Form_ID current) (Some ErrNoGenerator)), CmdNil)
  | Some gen =>
      g ← deref (globalData f);
      let w := gen currentValues (Values g) in
      let f1 := withCurrentForm
                  (record f [CallGenerator (Form_ID current) currentValues (Values g)])
                  w in
      match w with
      | None =>
          Ok (addError f1 (Form_ID current)
                (NewCupSleeveError (Form_ID current) (Some ErrNilForm)), CmdNil)
      | Some _ => Ok (f1, WidgetCmd)
      end
  end.

(** [initCurrentForm] calls itself after skipping a form; a skipped form
    whose [NextForm] names itself makes it run forever, hence the fuel. *)
Fixpoint initCurrentForm (fuel : nat) (f : Bobarista) : Res (Bobarista * Cmd) :=
  match fuel with
  | O => OutOfFuel
  | S fuel' =>
      match Current (navigator f) with
      | None => Ok (withState f StateCompleted, CmdNil)
      | Some current =>
          let id := Form_ID current in
          let cache := default ∅ (formValues f) in
          let cache :=
            match cache !! id with
            | Some _ => cache
            | None => <[id := NewFormValues]> cache
            end in
          let f := withFormValues f (Some cache) in
          let currentValues := default NewFormValues (cache !! id) in
          let currentData := {| ID := id; Values := Some currentValues |} in
          _ ← debugDump f;
          match ShouldSkip current with
          | Some skip =>
              g ← deref (globalData f);
              let f := record f [CallShouldSkip id currentData g] in
              if skip currentData g then
                let r := Next (navigator f) g in
                let f := record f (snd r) in
                match fst r with
                | (_, Some err) => Ok (addError f id err, CmdNil)
                | (nextIndex, None) =>
                    if (nextIndex =? -1) || (nextIndex =? -2)
                    then Ok (withState f StateCompleted, CmdNil)
                    else
                      match MoveTo (navigator f) nextIndex with
                      | (_, Some err) => Ok (addError f id err, CmdNil)
                      | (nav', None) =>
                          initCurrentForm fuel' (withNavigator f nav')
                      end
                end
              else generateForm f current currentValues
          | None => generateForm f current currentValues
          end
      end
  end.

(** Lines 209-251 of [handleFormCompletion]: the step's data and its
    completion handler.  The step's store is the cached map when there is
    one, so the handler's writes to it reach the cache. *)
Definition runOnComplete (f : Bobarista) (current : Form)
  : Res (Bobarista * FormData * option error) :=
  let id := Form_ID current in
  let stored := storedValues f id in
  let currentValues := default NewFormValues stored in
  _ ← debugDump f;
  let currentData := {| ID := id; Values := Some currentValues |} in
  match OnComplete current with
  | Some handler =>
      g ← deref (globalData f);
      let c := handler currentData g in
      let cache :=
        match stored, formValues f with
        | Some _, Some m => Some (<[id := cache_out c]> m)
        | _, m => m
        end in
      let f1 := withFormValues
                  (withGlobalData (record f [CallOnComplete id currentData g])
                     (Some (global_out c)))
                  cache in
      Ok (f1, {| ID := id; Values := current_out c |}, completion_err c)
  | None => Ok (f, currentData, None)
  end.

(** The debug dump of lines 253-261 ranges over [*currentData.Values]. *)
Definition debugDumpStep (f : Bobarista) (currentData : FormData) : Res unit :=
  if Debug (config f)
  then _ ← deref (Values currentData); Ok tt
  else Ok tt.

(** Lines 253-285: [f.globalData.Values.Merge(currentData.Values)]. *)
Definition mergeIntoGlobal (f : Bobarista) (currentData : FormData)
  : Res Bobarista :=
  _ ← debugDumpStep f currentData;
  _ ← debugDump f;
  g ← deref (globalData f);
  gv ← deref (Values g);
  Ok (withGlobalData f
        (Some {| ID := ID g; Values := Some (FV.Merge gv (Values currentData)) |})).

(** Lines 287-314: ask the navigator and move. *)
Definition navigateAfter (fuel : nat) (f : Bobarista) (current : Form)
  : Res (Bobarista * Cmd) :=
  g ← deref (globalData f);
  let r := Next (navigator f) g in
  let f := record f (snd r) in
  match fst r with
  | (_, Some err) => Ok (addError f (Form_ID current) err, CmdNil)
  | (nextIndex, None) =>
      if nextIndex =? -2 then Ok (withState f StateCompleted, CmdNil)
      else if nextIndex =? -1 then Ok (withState f StateCompleted, CmdNil)
      else
        match MoveTo (navigator f) nextIndex with
        | (_, Some err) => Ok (addError f (Form_ID current) err, CmdNil)
        | (nav', None) => initCurrentForm fuel (withNavigator f nav')
        end
  end.

Definition handleFormCompletion (fuel : nat) (f : Bobarista)
  : Res (Bobarista * Cmd) :=
  match Current (navigator f) with
  | None => Ok (withState f StateCompleted, CmdNil)
  | Some current =>
      r ← runOnComplete f current;
      match r with
      | (f1, _, Some err) => Ok (addError f1 (Form_ID current) err, CmdNil)
      | (f1, currentData, None) =>
          f2 ← mergeIntoGlobal f1 currentData;
          navigateAfter fuel f2 current
      end
  end.

Definition updateCurrentForm (fuel : nat) (f : Bobarista) (msg : Msg)
  : Res (Bobarista * Cmd) :=
  match currentForm f with
  | None => Ok (f, CmdNil)
  | Some w =>
      let w' := huhUpdate w msg in
      let f := withCurrentForm f (Some w') in
      if huhStateCompleted w' then handleFormCompletion fuel f
      else Ok (f, WidgetCmd)
  end.

Definition handleCompletedState (f : Bobarista) (key : string)
  : Bobarista * Cmd :=
  if decide (key = "up") then (f, CmdNil)
  else if decide (key = "down") then (f, CmdNil)
  else if decide (key = "q") then (f, Quit)
  else if decide (key = "esc") then (f, Quit)
  else if decide (key = "enter") then
    match state f, RecipeOnComplete (config f) with
    | StateCompleted, Some onComplete =>
        let g := GetGlobalData f in
        let r := onComplete g in
        let f1 := withGlobalData (record f [CallRecipeOnComplete g])
                    (option_map (λ d, writeValues d (fst r)) (globalData f)) in
        match snd r with
        | Some err => (addError f1 EmptyString err, CmdNil)
        | None => (f1, Quit)
        end
    | _, _ => (f, Quit)
    end
  else (f, CmdNil).

(** The test after the [switch] of [Update], also reached when a case
    falls through. *)
Definition forwardIfActive (fuel : nat) (f : Bobarista) (msg : Msg)
  : Res (Bobarista * Cmd) :=
  match state f, currentForm f with
  | StateActive, Some _ => updateCurrentForm fuel f msg
  | _, _ => Ok (f, CmdNil)
  end.

Definition Update (fuel : nat) (f : Bobarista) (msg : Msg)
  : Res (Bobarista * Cmd) :=
  match msg with
  | WindowSizeMsg _ _ =>
      match currentForm f with
      | Some w => Ok (withCurrentForm f (Some (huhUpdate w msg)), WidgetCmd)
      | None => forwardIfActive fuel f msg
      end
  | KeyMsg key =>
      match state f with
      | StateCompleted | StateError => Ok (handleCompletedState f key)
      | StateActive =>
          if decide (key = "ctrl+c") then Ok (f, Quit)
          else if decide (key = "esc") then Ok (f, Quit)
          else forwardIfActive fuel f msg
      end
  | OtherMsg => forwardIfActive fuel f msg
  end.

(** Lines 65-76 of [Init]: the global data and the cache are created
    when they are nil. *)
Definition initStores (f : Bobarista) : Bobarista :=
  withFormValues (withGlobalData f (Some (GetGlobalData f)))
    (Some (default ∅ (formValues f))).

(** Lines 78-88 of [Init]: the recipe's [OnInit] callback, run once the
    stores exist. *)
Definition callOnInit (f : Bobarista) : Bobarista :=
  match OnInit (config f) with
  | Some onInit =>
      let g := GetGlobalData f in
      let formDataList :=
        map (λ form, {| ID := Form_ID form; Values := Some NewFormValues |})
          (boba_forms f) in
      withGlobalData (record f [CallOnInit g])
        (Some (writeValues g (onInit g formDataList)))
  | None => f
  end.

Definition Init (fuel : nat) (f : Bobarista) : Res (Bobarista * Cmd) :=
  let f := callOnInit (initStores f) in
  g ← deref (globalData f);
  let r := MoveToFirstValid (navigator f) g in
  let f := record f (snd r) in
  match fst r with
  | (_, Some err) => Ok (addError f EmptyString err, CmdNil)
  | (nav', None) => initCurrentForm fuel (withNavigator f nav')
  end.

(** ** builder.go *)

Record BobaBuilder := mkBobaBuilder {
  builder_config : Recipe;
  builder_forms : list Form
}.

Definition New (title : string) : BobaBuilder :=
  {| builder_config :=
       {| Title := title; MaxWidth := 180; ColorScheme := EmptyString;
          Debug := false; OnInit := None; RecipeOnComplete := None |};
     builder_forms := [] |}.

Definition AddForm (b : BobaBuilder) (form : Form) : BobaBuilder :=
  {| builder_config := builder_config b;
     builder_forms := builder_forms b ++ [form] |}.

Definition Build (b : BobaBuilder) : Bobarista :=
  let c := builder_config b in
  let c :=
    if decide (ColorScheme c = EmptyString)
    then {| Title := Title c; MaxWidth := MaxWidth c; ColorScheme := "default";
            Debug := Debug c; OnInit := OnInit c;
            RecipeOnComplete := RecipeOnComplete c |}
    else c in
  {| config := c;
     boba_forms := builder_forms b;
     navigator := NewNavigator (builder_forms b);
     globalData := Some {| ID := "global"; Values := Some NewFormValues |};
     currentForm := None;
     state := StateActive;
     errors := [];
     formValues := None;
     calls := [] |}.


(** ** navigator.go, the lookups *)

(** The [range] loop of [GetFormByID], run over the forms from position
    [i] on. *)
Fixpoint findByID (rest : list Form) (i : Z) (id : string)
  : option Form * Z * option error :=
  match rest with
  | [] => (None, -1, Some ErrFormNotFound)
  | form :: rest' =>
      if decide (Form_ID form = id) then (Some form, i, None)
      else findByID rest' (i + 1) id
  end.

Definition GetFormByID (n : Navigator) (id : string)
  : option Form * Z * option error :=
  findByID (forms n) 0 id.

(** The [range] loop of [GetFormsByGroup], appending to [acc]. *)
Fixpoint collectGroup (rest : list Form) (group : string) (acc : list Form)
  : list Form :=
  match rest with
  | [] => acc
  | form :: rest' =>
      if decide (Group form = group)
      then collectGroup rest' group (acc ++ [form])
      else collectGroup rest' group acc
  end.

Definition GetFormsByGroup (n : Navigator) (group : string) : list Form :=
  collectGroup (forms n) group [].

(** ** errors.go, the collector

    An [error] argument that may be nil is an [option]. *)

Definition Unwrap (e : error) : option error :=
  match e with
  | mkCupSleeveError _ err => err
  | _ => None
  end.

Record ErrorCollector := mkErrorCollector {
  collected : list error
}.

Definition NewErrorCollector : ErrorCollector := {| collected := [] |}.

Definition Add (ec : ErrorCollector) (err : option error) : ErrorCollector :=
  match err with
  | Some e => {| collected := collected ec ++ [e] |}
  | None => ec
  end.

Definition AddCupSleeveError (ec : ErrorCollector) (formID : string)
  (err : option error) : ErrorCollector :=
  match err with
  | Some e => {| collected := collected ec ++ [NewCupSleeveError formID (Some e)] |}
  | None => ec
  end.

Definition HasErrors (ec : ErrorCollector) : bool :=
  (0 <? length (collected ec))%nat.

Definition Errors (ec : ErrorCollector) : list error := collected ec.

Definition Clear (ec : ErrorCollector) : ErrorCollector := {| collected := [] |}.

(** ** builder.go, the settings *)

Definition WithColorScheme (b : BobaBuilder) (scheme : string) : BobaBuilder :=
  let c := builder_config b in
  {| builder_config :=
       {| Title := Title c; MaxWidth := MaxWidth c; ColorScheme := scheme;
          Debug := Debug c; OnInit := OnInit c;
          RecipeOnComplete := RecipeOnComplete c |};
     builder_forms := builder_forms b |}.

(** ** internal/viewport.go

    The viewport works on lengths and offsets of any size, so its [int]
    arithmetic is written with the wrap-around of a 64-bit integer. *)

Module internal.

Definition wrap (z : Z) : Z := (z + 2 ^ 63) mod 2 ^ 64 - 2 ^ 63.

Record Viewport := mkViewport {
  offset : Z;
  width : Z;
  height : Z;
  content : list string
}.

Definition NewViewport : Viewport :=
  {| offset := 0; width := 80; height := 24; content := [] |}.

Definition max (a b : Z) : Z := if a >? b then a else b.

Definition min (a b : Z) : Z := if a <? b then a else b.

(** [len(v.content)] *)
Definition len (v : Viewport) : Z := Z.of_nat (length (content v)).

Definition SetSize (v : Viewport) (width height : Z) : Viewport :=
  {| offset := offset v; width := width; height := height;
     content := content v |}.

Definition SetContent (v : Viewport) (content : list string) : Viewport :=
  {| offset := 0; width := width v; height := height v; content := content |}.

Definition Scroll (v : Viewport) (delta : Z) : Viewport :=
  let maxOffset := max 0 (wrap (len v - height v)) in
  {| offset := max 0 (min maxOffset (wrap (offset v + delta)));
     width := width v; height := height v; content := content v |}.

(** The slice expression [v.content[start:end]] panics unless
    [0 <= start <= end]; [end] is at most [len(v.content)] here. *)
Definition VisibleContent (v : Viewport) : option (list string) :=
  if len v =? 0 then Some []
  else
    let start := offset v in
    let end_ := min (wrap (start + height v)) (len v) in
    if start >=? len v then Some []
    else if (0 <=? start) && (start <=? end_)
         then Some (take (Z.to_nat (end_ - start))
                      (drop (Z.to_nat start) (content v)))
         else None.

Definition CanScrollUp (v : Viewport) : bool := offset v >? 0.

Definition CanScrollDown (v : Viewport) : bool :=
  offset v <? wrap (len v - height v).

(** internal/text.go

    A string is its sequence of bytes, [len(s)] is [String.length] and
    [s[:n]] is [String.substring 0 n], which panics for [n] below 0 or
    above [len(s)].  [strings.Fields] is not modelled: [WrapText] takes
    the list of words it returns, [fields], beside the text.  The sum of
    the lengths of two strings in memory does not wrap. *)

(** The body of the loop of [WrapText]: the lines so far and the line
    under construction, then the next word. *)
Definition wrapWord (width : Z) (st : list string * string) (word : string)
  : list string * string :=
  let '(lines, currentLine) := st in
  if Z.of_nat (String.length currentLine) =? 0
  then (lines, currentLine +:+ word)
  else if Z.of_nat (String.length currentLine) + 1
            + Z.of_nat (String.length word) <=? width
  then (lines, currentLine +:+ (" " +:+ word))
  else (lines ++ [currentLine], word).

Definition WrapText (text : string) (fields : list string) (width : Z)
  : list string :=
  if width <=? 0 then [text]
  else
    if Z.of_nat (length fields) =? 0 then [EmptyString]
    else
      let '(lines, currentLine) := foldl (wrapWord width) ([], EmptyString) fields in
      if Z.of_nat (String.length currentLine) >? 0
      then lines ++ [currentLine]
      else lines.

(** [None] is the panic of a slice out of range.  In the last case
    [length] is above 3, so [length - 3] does not wrap. *)
Definition TruncateString (s : string) (length : Z) : option string :=
  if Z.of_nat (String.length s) <=? length then Some s
  else if length <=? 3
  then (if 0 <=? length
        then Some (String.substring 0 (Z.to_nat length) s)
        else None)
  else Some (String.substring 0 (Z.to_nat (length - 3)) s +:+ "...").

End internal.

(** ** renderer.go, the size and the scrolling

    Of the renderer the fields that decide what the viewport shows are
    kept: the maximum width of the recipe, the viewport and the size.
    The horizontal frame size of the base style comes from the styling
    library and is a parameter of [UpdateSize]. *)

Record Renderer := mkRenderer {
  renderer_maxWidth : Z;
  viewport : internal.Viewport;
  renderer_width : Z;
  renderer_height : Z
}.

Definition NewRenderer (config : Recipe) : Renderer :=
  {| renderer_maxWidth := MaxWidth config;
     viewport := internal.NewViewport;
     renderer_width := MaxWidth config;
     renderer_height := 24 |}.

Definition UpdateSize (r : Renderer) (frame width height : Z) : Renderer :=
  let w := if width <? renderer_maxWidth r
           then internal.wrap (width - frame)
           else internal.wrap (renderer_maxWidth r - frame) in
  let h := internal.wrap (height - 4) in
  {| renderer_maxWidth := renderer_maxWidth r;
     viewport := internal.SetSize (viewport r) w h;
     renderer_width := w;
     renderer_height := h |}.

Definition HandleScroll (r : Renderer) (direction : Z) : Renderer :=
  {| renderer_maxWidth := renderer_maxWidth r;
     viewport := internal.Scroll (viewport r) direction;
     renderer_width := renderer_width r;
     renderer_height := renderer_height r |}.

(** Lines 403-414 of [renderCompleted], where [lines] is the content of
    the screen split at line ends: the viewport is given the content, and
    the visible lines and the choice of footer are read from it. *)
Definition renderCompleted_page (r : Renderer) (lines : list string)
  : Renderer * option (list string) * bool :=
  let v := internal.SetContent (viewport r) lines in
  ({| renderer_maxWidth := renderer_maxWidth r; viewport := v;
      renderer_width := renderer_width r;
      renderer_height := renderer_height r |},
   internal.VisibleContent v,
   internal.CanScrollUp v || internal.CanScrollDown v).
(** * Vocabulary of the properties *)

(** The operations that change a navigator. *)
Inductive NavOp :=
| OpMoveTo (index : Z)
| OpMoveToFirstValid (globalData : FormData)
| OpBack
| OpReset.

Definition applyOp (n : Navigator) (op : NavOp) : Navigator :=
  match op with
  | OpMoveTo index => fst (MoveTo n index)
  | OpMoveToFirstValid globalData => fst (fst (MoveToFirstValid n globalData))
  | OpBack => fst (Back n)
  | OpReset => Reset n
  end.

Definition inRange (n : Navigator) (i : Z) : Prop := 0 ≤ i < GetFormCount n.

Definition navigatorOK (n : Navigator) : Prop :=
  (currentIdx n = -1 ∨ inRange n (currentIdx n)) ∧
  Forall (inRange n) (history n).


(** The local data that the default search hands to a skip predicate: the
    form's ID with a fresh, empty store. *)
Definition emptyLocalData (form : Form) : FormData :=
  {| ID := Form_ID form; Values := Some NewFormValues |}.

(** A form is skipped by the default search when it has a skip predicate
    and the predicate holds of the empty local data and the global data. *)
Definition skipsForm (form : Form) (globalData : FormData) : bool :=
  match ShouldSkip form with
  | Some skip => skip (emptyLocalData form) globalData
  | None => false
  end.

Definition skippedAt (n : Navigator) (globalData : FormData) (i : Z) : bool :=
  match forms n !! Z.to_nat i with
  | Some form => skipsForm form globalData
  | None => false
  end.

(** Where the default search of [Next] starts. *)
Definition searchStart (n : Navigator) : Z :=
  match Current n with
  | None => 0
  | Some _ => currentIdx n + 1
  end.

(** The current form, if any, has no custom navigation. *)
Definition noCustomNavigation (n : Navigator) : Prop :=
  match Current n with
  | None => True
  | Some current => NextForm current = None
  end.

(** *** What [ValidateNavigation] is to report, position by position *)

(** The position of the first form with a given ID. *)
Fixpoint firstIndexOf (id : string) (fs : list Form) : option nat :=
  match fs with
  | [] => None
  | form :: rest =>
      if decide (Form_ID form = id) then Some 0%nat
      else S <$> firstIndexOf id rest
  end.

(** The form at position [j]: an empty-ID error when its ID is empty; when
    its ID already occurs before [j], a duplicate-ID error carrying the
    position of the first occurrence and [j]; nothing otherwise. *)
Definition idErrorsAt (fs : list Form) (j : nat) (form : Form) : list error :=
  if decide (Form_ID form = EmptyString)
  then [CupSleeveError EmptyString ErrEmptyFormID]
  else
    match firstIndexOf (Form_ID form) fs with
    | Some i =>
        if decide (i < j)%nat
        then [CupSleeveError (Form_ID form)
                (DuplicateFormIDError (Form_ID form) (Z.of_nat i) (Z.of_nat j))]
        else []
    | None => []
    end.

Definition generatorErrors (form : Form) : list error :=
  match Generator form with
  | None => [CupSleeveError (Form_ID form) ErrNoGenerator]
  | Some _ => []
  end.

(** Every violation of every form, the ID violations first. *)
Definition structuralErrors (fs : list Form) : list error :=
  mjoin (imap (idErrorsAt fs) fs) ++ (fs ≫= generatorErrors).

Definition countIf {A} (p : A → bool) (l : list A) : nat :=
  length (List.filter p l).

Definition isEmptyIDError (e : error) : bool :=
  bool_decide (e = CupSleeveError EmptyString ErrEmptyFormID).

Definition isNoGeneratorError (e : error) : bool :=
  match e with
  | CupSleeveError _ inner => bool_decide (inner = ErrNoGenerator)
  | _ => false
  end.

Definition hasEmptyID (form : Form) : bool :=
  bool_decide (Form_ID form = EmptyString).

Definition lacksGenerator (form : Form) : bool :=
  match Generator form with
  | None => true
  | Some _ => false
  end.

(** *** The session as a transition system *)

(** One operation of the controller that returns: the two entry points of
    the event loop and the operations they are made of. *)
Inductive step : Bobarista → Bobarista → Prop :=
| step_Init fuel f f' cmd :
    Init fuel f = Ok (f', cmd) → step f f'
| step_Update fuel f msg f' cmd :
    Update fuel f msg = Ok (f', cmd) → step f f'
| step_handleCompletedState f key :
    step f (fst (handleCompletedState f key))
| step_updateCurrentForm fuel f msg f' cmd :
    updateCurrentForm fuel f msg = Ok (f', cmd) → step f f'
| step_handleFormCompletion fuel f f' cmd :
    handleFormCompletion fuel f = Ok (f', cmd) → step f f'
| step_initCurrentForm fuel f f' cmd :
    initCurrentForm fuel f = Ok (f', cmd) → step f f'
| step_addError f formID err :
    step f (addError f formID err).

(** The states a session can be in after any number of operations. *)
Inductive reachable (f0 : Bobarista) : Bobarista → Prop :=
| reachable_start : reachable f0 f0
| reachable_step f f' : reachable f0 f → step f f' → reachable f0 f'.

(** A session state is either kept or left for [Completed] or [Error]. *)
Definition advances (s s' : BobaState) : Prop :=
  s' = s ∨ s' = StateCompleted ∨ s' = StateError.

(** The global data pointer is not nil. *)
Definition globalDataSet (f : Bobarista) : Prop := globalData f ≠ None.

Definition keeps (f f' : Bobarista) : Prop :=
  advances (state f) (state f') ∧ (globalDataSet f → globalDataSet f').

(** *** Sample flows *)

(** A widget that reports completion after its first message. *)
Definition sampleWidget : huhForm :=
  {| huh_carrier := bool;
     huh_state := false;
     huh_update := λ _ _, true;
     huh_completed := λ done, done |}.

Definition sampleGenerator : FormGenerator := λ _ _, Some sampleWidget.

(** A completion handler that writes nothing and returns [err]. *)
Definition failWith (err : error) : CompletionHandler :=
  λ current global,
    {| cache_out := default ∅ (Values current);
       current_out := Values current;
       global_out := global;
       completion_err := Some err |}.

(** A completion handler that writes nothing and succeeds. *)
Definition succeed : CompletionHandler :=
  λ current global,
    {| cache_out := default ∅ (Values current);
       current_out := Values current;
       global_out := global;
       completion_err := None |}.

Definition sampleForm (id : string) : Form :=
  WithGenerator (NewForm id id) sampleGenerator.

(** The session of a flow after [Init], with ["own" = "1"] entered in the
    store of step [id] and ["plan" = "pro"] in the global store. *)
Definition started (fs : list Form) (id : string) : Bobarista :=
  {| config := builder_config (New "sample");
     boba_forms := fs;
     navigator := {| forms := fs; currentIdx := 0; history := [] |};
     globalData :=
       Some {| ID := "global"; Values := Some {[ "plan" := Some "pro" ]} |};
     currentForm := Some sampleWidget;
     state := StateActive;
     errors := [];
     formValues := Some {[ id := {[ "own" := Some "1" ]} ]};
     calls := [] |}.

(** Step "A" fails with a plain error, or with an error that is already
    a [CupSleeveError] naming another form. *)
Definition stepA_plain : Form :=
  WithOnComplete (sampleForm "A") (failWith (errorString "invalid")).

Definition stepA_wrapped : Form :=
  WithOnComplete (sampleForm "A")
    (failWith (CupSleeveError "B" (errorString "invalid"))).

(** A step that ends the flow from its custom navigation. *)
Definition stepStop : Form :=
  WithNavigation (WithOnComplete (sampleForm "A") succeed) (λ _, -2).

(** A step whose handler records ["own" = "1"] in the step's store and
    ["plan" = "pro"] in the global store, and whose custom navigation
    continues with the default search when it is handed its own step's
    data and ends the flow otherwise; then the flow of that step followed
    by a step "b". *)
Definition writeOwn : CompletionHandler :=
  λ current global,
    {| cache_out := FV.Set' (default ∅ (Values current)) "own" "1";
       current_out := Some (FV.Set' (default ∅ (Values current)) "own" "1");
       global_out :=
         {| ID := ID global;
            Values := Some (FV.Set' (default ∅ (Values global)) "plan" "pro") |};
       completion_err := None |}.

Definition stepOwn : Form :=
  WithNavigation (WithOnComplete (sampleForm "a") writeOwn)
    (λ data, if decide (ID data = "a") then -1 else -2).

Definition flowOwn : BobaBuilder :=
  AddForm (AddForm (New "sample") stepOwn) (sampleForm "b").

(** The flow is initialised, then a key message reaches the widget of
    step "a", which completes on it. *)
Definition ownSession : Res (Bobarista * Cmd) :=
  started ← Init 1 (Build flowOwn);
  Update 1 (fst started) (KeyMsg "x").




(** A flow whose finish callback fails. *)
Definition finishFails : Bobarista :=
  {| config :=
       {| Title := "sample"; MaxWidth := 180; ColorScheme := "default";
          Debug := false; OnInit := None;
          RecipeOnComplete :=
            Some (λ g, (default ∅ (Values g), Some (errorString "disk full"))) |};
     boba_forms := [sampleForm "a"];
     navigator := {| forms := [sampleForm "a"]; currentIdx := 0; history := [] |};
     globalData := Some {| ID := "global"; Values := Some ∅ |};
     currentForm := Some sampleWidget;
     state := StateCompleted;
     errors := [];
     formValues := Some {[ "a" := ∅ ]};
     calls := [] |}.


(** Steps A, B, C, where B is skipped unless the global key "type" is
    "full"; the navigator stands on A. *)
Definition skipUnlessFull : SkipCondition :=
  λ _ global,
    match Values global ≫= (λ m : FormValues, m !! "type") with
    | Some (Some kind) => negb (bool_decide (kind = "full"))
    | _ => true
    end.

Definition navABC : Navigator :=
  {| forms := [sampleForm "A";
               WithSkipCondition (sampleForm "B") skipUnlessFull;
               sampleForm "C"];
     currentIdx := 0;
     history := [] |}.

Definition quickData : FormData :=
  {| ID := "global"; Values := Some {[ "type" := Some "quick" ]} |}.

(** Two steps with the ID "x" and a step without ID, none with a
    generator. *)
Definition navDuplicates : Navigator :=
  NewNavigator [NewForm "x" "one"; NewForm "x" "two"; NewForm "" "three"].

(** *** What every operation of the controller keeps *)

(** An [Error] session has at least one recorded error. *)
Definition errorsExplainError (f : Bobarista) : Prop :=
  state f = StateError → errors f ≠ [].

(** From [f] to [f']: the recipe and the flow are the same, the error
    list and the log of callbacks have only been appended to, and the
    navigator's indices and the link between [Error] and the error list
    are kept. *)
Definition extends (f f' : Bobarista) : Prop :=
  config f' = config f ∧
  boba_forms f' = boba_forms f ∧
  forms (navigator f') = forms (navigator f) ∧
  (∃ new, errors f' = errors f ++ new) ∧
  (∃ new, calls f' = calls f ++ new) ∧
  (navigatorOK (navigator f) → navigatorOK (navigator f')) ∧
  (errorsExplainError f → errorsExplainError f').



(** No form of the flow has a custom-navigation function. *)
Definition sequentialFlow (fs : list Form) : Prop :=
  ∀ form, form ∈ fs → NextForm form = None.

(** [Init] has not run: no form is current and there is no widget. *)
Definition notStarted (f : Bobarista) : Prop :=
  Current (navigator f) = None ∧ currentForm f = None.

(** A step is being shown: a form is current, its widget is in place and
    its store is in the cache. *)
Definition showing (f : Bobarista) : Prop :=
  ∃ current w,
    Current (navigator f) = Some current ∧
    currentForm f = Some w ∧
    is_Some (storedValues f (Form_ID current)).

Definition activeIsShowing (f : Bobarista) : Prop :=
  state f = StateActive → notStarted f ∨ showing f.

(** The skip check that [initCurrentForm] makes on the form it is about
    to show: the predicate, when there is one, is false on the form's
    cached store and the global data. *)
Definition notSkippedOnCache (f : Bobarista) (form : Form) (g : FormData)
  : Prop :=
  match ShouldSkip form with
  | Some skip =>
      skip {| ID := Form_ID form;
              Values := Some (default NewFormValues
                                (storedValues f (Form_ID form))) |} g = false
  | None => True
  end.

(** *** Viewports *)

(** A height and a content length that a screen can have. *)
Definition screenSized (v : internal.Viewport) : Prop :=
  0 ≤ internal.height v < 2 ^ 62 ∧ internal.len v < 2 ^ 62.

(** The offset leaves a full page, or the whole content, in view. *)
Definition offsetInBounds (v : internal.Viewport) : Prop :=
  0 ≤ internal.offset v ≤ Z.max 0 (internal.len v - internal.height v).

(** *** Recorded errors *)

(** Every recorded error passes the type assertion to [CupSleeveError]. *)
Definition keepsAsserted (f f' : Bobarista) : Prop :=
  Forall (λ e, isCupSleeveError e = true) (errors f) →
  Forall (λ e, isCupSleeveError e = true) (errors f').

(** *** More sample flows *)

Definition sampleStore : FormValues :=
  {[ "name" := Some "Ada"; "note" := None ]}.

Definition alwaysSkip : SkipCondition := λ _ _, true.

(** A first step that is always skipped, alone and followed by a step
    "B"; no form is current. *)
Definition navAllSkipped : Navigator :=
  NewNavigator [WithSkipCondition (sampleForm "A") alwaysSkip].

Definition navSkipFirst : Navigator :=
  NewNavigator [WithSkipCondition (sampleForm "A") alwaysSkip; sampleForm "B"].

(** The navigator of steps A, B, C on its last step, reached through the
    first two. *)
Definition navLast : Navigator :=
  {| forms := forms navABC; currentIdx := 2; history := [0; 1] |}.


Definition flowAB : BobaBuilder :=
  AddForm (AddForm (New "sample") (sampleForm "a")) (sampleForm "b").

Definition flowSkipped : BobaBuilder :=
  AddForm (New "sample") (WithSkipCondition (sampleForm "a") alwaysSkip).

(** A step that is always skipped and whose custom navigation names its
    own position. *)
Definition stepLoop : Form :=
  WithNavigation (WithSkipCondition (sampleForm "a") alwaysSkip) (λ _, 0).

(** Five lines behind a window of two, scrolled down by one line. *)
Definition sampleViewport : internal.Viewport :=
  {| internal.offset := 1; internal.width := 80; internal.height := 2;
     internal.content := ["a"; "b"; "c"; "d"; "e"] |}.

Definition sampleRenderer : Renderer :=
  NewRenderer (builder_config (New "sample")).

(** *** Text *)

(** Words joined by single spaces. *)
Definition unwords (ws : list string) : string := String.concat " " ws.

(** A line of [WrapText]: at least one word, and within the width unless
    it is a single word. *)
Definition lineOK (width : Z) (ws : list string) : Prop :=
  ws ≠ [] ∧
  (Z.of_nat (String.length (unwords ws)) ≤ width ∨ ∃ w, ws = [w]).

Definition isPrefixOf (p s : string) : Prop := ∃ rest, s = p +:+ rest.
(** * Properties *)

(** ** The value store *)

Lemma store_entry_insert (k : string) (v : option string) (acc : FormValues) :
  FV.store_entry k v acc = <[k := v]> acc.
Proof. by destruct v. Qed.

Lemma Merge_lookup (A B : FormValues) (k : string) :
  FV.Merge A (Some B) !! k =
  match B !! k with
  | Some v => Some v
  | None => A !! k
  end.
Proof.
  unfold FV.Merge. revert k.
  apply (map_fold_weak_ind
           (λ (r m : FormValues), ∀ k : string,
              r !! k = match m !! k with Some v => Some v | None => A !! k end)).
  - intros k. by rewrite lookup_empty.
  - intros i x m r Hfresh IH k. rewrite store_entry_insert.
    destruct (decide (i = k)) as [->|Hne].
    + by rewrite !lookup_insert_eq.
    + rewrite !lookup_insert_ne by done. apply IH.
Qed.

(** C7.  [A.Merge(B)] is right-biased: a key of [B] is bound afterwards to
    what [B] binds it to, a nil value staying nil and a string staying
    that string (so a key of both stores ends with [B]'s value); a key
    that [B] does not have keeps what [A] had for it; merging a nil store
    or an empty store changes nothing. *)
Theorem Merge_right_biased (A B : FormValues) :
  (∀ k : string,
     FV.Merge A (Some B) !! k =
     match B !! k with
     | Some v => Some v
     | None => A !! k
     end) ∧
  FV.Merge A None = A ∧
  FV.Merge A (Some ∅) = A.
Proof.
  split; [intros k; apply Merge_lookup|].
  split; [reflexivity|].
  apply map_eq. intros k. by rewrite Merge_lookup, lookup_empty.
Qed.

(** ** The navigator *)

(** C4.  [MoveTo] with an index outside [0, N) returns the invalid-index
    error and the navigator as it was; with an index inside, it returns
    no error, sets the current index, keeps the forms, and appends the
    previous current index to the history exactly when there was one. *)
Theorem MoveTo_spec (n : Navigator) (i : Z) :
  (i < 0 ∨ GetFormCount n ≤ i →
     MoveTo n i = (n, Some ErrInvalidFormIndex)) ∧
  (0 ≤ i < GetFormCount n →
     snd (MoveTo n i) = None ∧
     currentIdx (fst (MoveTo n i)) = i ∧
     forms (fst (MoveTo n i)) = forms n ∧
     (0 ≤ currentIdx n →
        history (fst (MoveTo n i)) = history n ++ [currentIdx n]) ∧
     (currentIdx n < 0 → history (fst (MoveTo n i)) = history n)).
Proof.
  unfold MoveTo. split.
  - intros Hout.
    destruct (i <? 0) eqn:Hlo; [reflexivity|].
    destruct (i >=? GetFormCount n) eqn:Hhi; [reflexivity|]. lia.
  - intros Hin.
    destruct (i <? 0) eqn:Hlo; [lia|].
    destruct (i >=? GetFormCount n) eqn:Hhi; [lia|]. simpl.
    repeat split; auto.
    + intros Hcur. destruct (currentIdx n >=? 0) eqn:E; [reflexivity|lia].
    + intros Hcur. destruct (currentIdx n >=? 0) eqn:E; [lia|reflexivity].
Qed.

Lemma findLoop_range (rest : list Form) (i : Z) (g : FormData) :
  fst (findLoop rest i g) = -1 ∨
  i ≤ fst (findLoop rest i g) < i + Z.of_nat (length rest).
Proof.
  revert i. induction rest as [|form rest IH]; intros i; simpl; [by left|].
  destruct (ShouldSkip form) as [skip|]; simpl; [|right; lia].
  destruct (skip _ g); simpl; [|right; lia].
  destruct (IH (i + 1)) as [->|H]; [by left|right; lia].
Qed.

Lemma findNextValidForm_range (n : Navigator) (g : FormData) :
  fst (fst (findNextValidForm n 0 g)) = -1 ∨
  inRange n (fst (fst (findNextValidForm n 0 g))).
Proof.
  unfold findNextValidForm, inRange, GetFormCount. cbn [fst].
  change (drop (Z.to_nat 0) (forms n)) with (forms n).
  destruct (findLoop_range (forms n) 0 g) as [H|H]; [by left|right; lia].
Qed.

Lemma last_removelast {A} (l : list A) (x : A) :
  last l = Some x → l = removelast l ++ [x].
Proof.
  intros H. destruct l as [|a l] using rev_ind; [done|].
  rewrite last_snoc in H. injection H as ->.
  by rewrite removelast_last.
Qed.

Lemma applyOp_forms (n : Navigator) (op : NavOp) :
  forms (applyOp n op) = forms n.
Proof.
  destruct op as [i|g| |]; simpl; try reflexivity.
  - unfold MoveTo. by destruct (_ || _).
  - unfold MoveToFirstValid.
    destruct (fst (findNextValidForm n 0 g)) as [r [e|]]; [done|].
    by destruct (r =? -1).
  - unfold Back. by destruct (last (history n)).
Qed.

Lemma applyOp_OK (n : Navigator) (op : NavOp) :
  navigatorOK n → navigatorOK (applyOp n op).
Proof.
  intros [Hcur Hhist]. destruct op as [i|g| |]; simpl.
  - unfold MoveTo.
    destruct (i <? 0) eqn:Hlo; [by split|].
    destruct (i >=? GetFormCount n) eqn:Hhi; [by split|]. simpl.
    split; simpl.
    + right. unfold inRange, GetFormCount in *. simpl. lia.
    + destruct (currentIdx n >=? 0) eqn:E; [|exact Hhist].
      apply Forall_app. split; [exact Hhist|].
      apply Forall_singleton. destruct Hcur as [Hc|Hc]; [lia|exact Hc].
  - unfold MoveToFirstValid.
    pose proof (findNextValidForm_range n g) as Hr.
    destruct (fst (findNextValidForm n 0 g)) as [r [e|]]; [by split|].
    simpl in Hr. destruct (r =? -1) eqn:E; [by split|].
    split; simpl; [|exact Hhist].
    right. destruct Hr as [Hr|Hr]; [lia|exact Hr].
  - unfold Back. destruct (last (history n)) as [top|] eqn:E; [|by split].
    apply last_removelast in E. rewrite E in Hhist.
    apply Forall_app in Hhist as [Hrest Htop].
    split; simpl; [|exact Hrest].
    right. rewrite Forall_singleton in Htop. exact Htop.
  - split; simpl; [by left|constructor].
Qed.

Lemma NewNavigator_OK (fs : list Form) : navigatorOK (NewNavigator fs).
Proof. split; simpl; [by left|constructor]. Qed.

Lemma foldl_applyOp_OK (ops : list NavOp) (n : Navigator) :
  navigatorOK n → navigatorOK (foldl applyOp n ops).
Proof.
  revert n. induction ops as [|op ops IH]; intros n Hn; simpl; [done|].
  apply IH. by apply applyOp_OK.
Qed.

Lemma foldl_applyOp_forms (ops : list NavOp) (n : Navigator) :
  forms (foldl applyOp n ops) = forms n.
Proof.
  revert n. induction ops as [|op ops IH]; intros n; simpl; [done|].
  by rewrite IH, applyOp_forms.
Qed.

(** C5.  After any sequence of [MoveTo], [MoveToFirstValid], [Back] and
    [Reset] applied to [NewNavigator fs], the current index is [-1] or
    lies in [0, N), and every history entry lies in [0, N), where [N] is
    the number of forms [fs]. *)
Theorem navigator_indices_in_range (fs : list Form) (ops : list NavOp) :
  let n := foldl applyOp (NewNavigator fs) ops in
  let N := Z.of_nat (length fs) in
  (currentIdx n = -1 ∨ 0 ≤ currentIdx n < N) ∧
  Forall (λ h, 0 ≤ h < N) (history n).
Proof.
  intros n N.
  pose proof (foldl_applyOp_OK ops (NewNavigator fs) (NewNavigator_OK fs))
    as [Hcur Hhist].
  pose proof (foldl_applyOp_forms ops (NewNavigator fs)) as Hforms.
  fold n in Hcur, Hhist, Hforms. simpl in Hforms.
  unfold inRange, GetFormCount in *. rewrite Hforms in *.
  by split.
Qed.

(** *** The default sequential search *)

Lemma findLoop_first (rest : list Form) (i : Z) (g : FormData) :
  (fst (findLoop rest i g) = -1 ∧
   ∀ k form, rest !! k = Some form → skipsForm form g = true) ∨
  (∃ k form,
     fst (findLoop rest i g) = i + Z.of_nat k ∧
     rest !! k = Some form ∧ skipsForm form g = false ∧
     ∀ k' form', (k' < k)%nat → rest !! k' = Some form' →
                 skipsForm form' g = true).
Proof.
  revert i. induction rest as [|form rest IH]; intros i.
  - left. split; [reflexivity|]. intros k form Hk. by rewrite lookup_nil in Hk.
  - simpl. destruct (ShouldSkip form) as [skip|] eqn:Hskip.
    + destruct (skip {| ID := Form_ID form; Values := Some NewFormValues |} g)
        eqn:Hres; simpl.
      * assert (Hhead : skipsForm form g = true).
        { unfold skipsForm, emptyLocalData. by rewrite Hskip. }
        destruct (IH (i + 1)) as [[Hr Hall]|(k & form' & Hr & Hk & Hno & Hbefore)].
        -- left. split; [exact Hr|].
           intros [|k] form' Hk; simpl in Hk.
           ++ by injection Hk as <-.
           ++ by apply (Hall k).
        -- right. exists (S k), form'. repeat split; [lia|exact Hk|exact Hno|].
           intros [|k'] form'' Hlt Hk'; simpl in Hk'.
           ++ by injection Hk' as <-.
           ++ apply (Hbefore k'); [lia|exact Hk'].
      * right. exists 0%nat, form. repeat split; [lia| |lia].
        unfold skipsForm, emptyLocalData. by rewrite Hskip.
    + right. exists 0%nat, form. simpl. repeat split; [lia| |lia].
      unfold skipsForm. by rewrite Hskip.
Qed.

Lemma findLoop_calls (rest : list Form) (i : Z) (g : FormData) :
  Forall (λ c, ∃ form, form ∈ rest ∧
                 c = CallShouldSkip (Form_ID form) (emptyLocalData form) g)
    (snd (findLoop rest i g)).
Proof.
  revert i. induction rest as [|form rest IH]; intros i; simpl; [constructor|].
  destruct (ShouldSkip form) as [skip|]; simpl; [|constructor].
  constructor.
  - exists form. split; [apply list_elem_of_here|reflexivity].
  - destruct (skip _ g); simpl; [|constructor].
    eapply Forall_impl; [apply IH|].
    intros c (form' & Hin & ->). exists form'. split; [|reflexivity].
    by apply list_elem_of_further.
Qed.

Lemma findNextValidForm_first (n : Navigator) (start : Z) (g : FormData) :
  0 ≤ start →
  let r := fst (fst (findNextValidForm n start g)) in
  (r = -1 ∧ ∀ i, start ≤ i < GetFormCount n → skippedAt n g i = true) ∨
  (start ≤ r < GetFormCount n ∧ skippedAt n g r = false ∧
   ∀ i, start ≤ i < r → skippedAt n g i = true).
Proof.
  intros Hstart r. subst r. unfold findNextValidForm, GetFormCount. cbn [fst].
  destruct (findLoop_first (drop (Z.to_nat start) (forms n)) start g)
    as [[Hr Hall]|(k & form & Hr & Hk & Hno & Hbefore)].
  - left. split; [exact Hr|]. intros i Hi. unfold skippedAt.
    destruct (forms n !! Z.to_nat i) as [form|] eqn:Hi'; [|].
    + apply (Hall (Z.to_nat i - Z.to_nat start)%nat).
      rewrite lookup_drop. rewrite <- Hi'. f_equal. lia.
    + apply lookup_ge_None in Hi'. lia.
  - right. rewrite lookup_drop in Hk.
    pose proof (lookup_lt_Some _ _ _ Hk) as Hlen.
    rewrite Hr. split; [lia|]. split.
    + unfold skippedAt.
      replace (Z.to_nat (start + Z.of_nat k)) with (Z.to_nat start + k)%nat by lia.
      by rewrite Hk.
    + intros i Hi. unfold skippedAt.
      destruct (forms n !! Z.to_nat i) as [form'|] eqn:Hi'.
      * apply (Hbefore (Z.to_nat i - Z.to_nat start)%nat); [lia|].
        rewrite lookup_drop. rewrite <- Hi'. f_equal. lia.
      * apply lookup_ge_None in Hi'. lia.
Qed.

Lemma findNextValidForm_calls (n : Navigator) (start : Z) (g : FormData) :
  Forall (λ c, ∃ form, form ∈ forms n ∧
                 c = CallShouldSkip (Form_ID form) (emptyLocalData form) g)
    (snd (findNextValidForm n start g)).
Proof.
  unfold findNextValidForm. cbn [snd].
  eapply Forall_impl; [apply findLoop_calls|].
  intros c (form & Hin & ->). exists form. split; [|reflexivity].
  apply list_elem_of_lookup in Hin as [k Hk]. rewrite lookup_drop in Hk.
  apply list_elem_of_lookup. eauto.
Qed.

Lemma Current_Some_range (n : Navigator) (current : Form) :
  Current n = Some current →
  0 ≤ currentIdx n < GetFormCount n ∧
  forms n !! Z.to_nat (currentIdx n) = Some current.
Proof.
  unfold Current. intros H.
  destruct (0 <=? currentIdx n) eqn:Hlo; [|done].
  destruct (currentIdx n <? GetFormCount n) eqn:Hhi; [|done].
  simpl in H. split; [lia|exact H].
Qed.

Lemma Next_default_is_search (n : Navigator) (data : FormData) :
  noCustomNavigation n →
  Next n data = findNextValidForm n (searchStart n) data.
Proof.
  unfold noCustomNavigation, Next, searchStart.
  destruct (Current n) as [current|]; [|done].
  by intros ->.
Qed.

Lemma searchStart_nonneg (n : Navigator) : 0 ≤ searchStart n.
Proof.
  unfold searchStart. destruct (Current n) as [current|] eqn:E; [|lia].
  apply Current_Some_range in E. lia.
Qed.

(** C1.  When the current form has no custom navigation (or no form is
    current), [Next] returns no error; the only callbacks it invokes are
    skip predicates, each on the candidate form's ID with a fresh empty
    store and on the global data it was given; its result is the first
    index from [current+1] (from [0] when no form is current) whose skip
    predicate is absent or false on that data, and [-1] when every
    remaining form is skipped.  In particular it is [-1] when the current
    form is the last one. *)
Theorem Next_default_search (n : Navigator) (data : FormData) :
  noCustomNavigation n →
  let start := searchStart n in
  let r := fst (fst (Next n data)) in
  snd (fst (Next n data)) = None ∧
  Forall (λ c, ∃ form, form ∈ forms n ∧
                 c = CallShouldSkip (Form_ID form)
                       {| ID := Form_ID form; Values := Some ∅ |} data)
    (snd (Next n data)) ∧
  ((r = -1 ∧ ∀ i, start ≤ i < GetFormCount n → skippedAt n data i = true) ∨
   (start ≤ r < GetFormCount n ∧ skippedAt n data r = false ∧
    ∀ i, start ≤ i < r → skippedAt n data i = true)) ∧
  (currentIdx n = GetFormCount n - 1 → r = -1).
Proof.
  intros Hnav start r. subst start r.
  rewrite (Next_default_is_search n data Hnav).
  pose proof (findNextValidForm_first n (searchStart n) data
                (searchStart_nonneg n)) as Hfirst.
  cbv zeta in Hfirst.
  split; [reflexivity|].
  split; [apply findNextValidForm_calls|].
  split; [exact Hfirst|].
  intros Hlast.
  destruct Hfirst as [[Hr _]|[Hr _]]; [exact Hr|].
  exfalso. unfold searchStart in Hr.
  destruct (Current n) as [current|] eqn:E.
  - lia.
  - unfold Current in E.
    destruct (0 <=? currentIdx n) eqn:Hlo.
    + destruct (currentIdx n <? GetFormCount n) eqn:Hhi; [|lia].
      simpl in E. apply lookup_ge_None in E. unfold GetFormCount in *. lia.
    + lia.
Qed.

(** *** Validation of the flow *)

Lemma firstIndexOf_app (id : string) (l1 l2 : list Form) :
  firstIndexOf id (l1 ++ l2) =
  match firstIndexOf id l1 with
  | Some i => Some i
  | None => (λ k, (length l1 + k)%nat) <$> firstIndexOf id l2
  end.
Proof.
  induction l1 as [|form l1 IH]; simpl.
  - by destruct (firstIndexOf id l2).
  - destruct (decide (Form_ID form = id)); [done|].
    rewrite IH. destruct (firstIndexOf id l1); simpl; [done|].
    by destruct (firstIndexOf id l2).
Qed.

Lemma firstIndexOf_Some (id : string) (fs : list Form) (i : nat) :
  firstIndexOf id fs = Some i →
  ∃ form, fs !! i = Some form ∧ Form_ID form = id.
Proof.
  revert i. induction fs as [|form fs IH]; intros i; simpl; [done|].
  destruct (decide (Form_ID form = id)) as [Heq|Hne].
  - intros [= <-]. by exists form.
  - destruct (firstIndexOf id fs) as [k|]; simpl; [|done].
    intros [= <-]. by apply IH.
Qed.

Lemma firstIndexOf_le (id : string) (fs : list Form) (j : nat) (form : Form) :
  fs !! j = Some form → Form_ID form = id →
  ∃ i, firstIndexOf id fs = Some i ∧ (i ≤ j)%nat.
Proof.
  revert j. induction fs as [|form' fs IH]; intros j Hj Hid; [done|].
  simpl. destruct (decide (Form_ID form' = id)) as [Heq|Hne].
  - exists 0%nat. split; [done|lia].
  - destruct j as [|j]; simpl in Hj; [congruence|].
    destruct (IH j Hj Hid) as (i & -> & Hle). exists (S i). split; [done|lia].
Qed.

Lemma validateIDs_spec (rest pre : list Form) (idMap : gmap string Z)
  (errs : list error) :
  (∀ id, id ≠ EmptyString →
         idMap !! id = Z.of_nat <$> firstIndexOf id pre) →
  validateIDs rest (Z.of_nat (length pre)) idMap errs =
  errs ++ mjoin (imap (λ j, idErrorsAt (pre ++ rest) (length pre + j)) rest).
Proof.
  revert pre idMap errs.
  induction rest as [|form rest IH]; intros pre idMap errs Hmap.
  - simpl. by rewrite app_nil_r.
  - rewrite imap_cons. cbn [validateIDs].
    assert (Hnext : Z.of_nat (length pre) + 1 = Z.of_nat (length (pre ++ [form]))).
    { rewrite length_app. simpl. lia. }
    assert (Htail :
      imap ((λ j, idErrorsAt (pre ++ form :: rest) (length pre + j)) ∘ S) rest =
      imap (λ j, idErrorsAt ((pre ++ [form]) ++ rest)
                   (length (pre ++ [form]) + j)) rest).
    { apply imap_ext. intros j x _. simpl.
      rewrite <- app_assoc. simpl. f_equal. rewrite length_app. simpl. lia. }
    rewrite Htail, Hnext.
    assert (Hfirst : ∀ id,
      firstIndexOf id (pre ++ form :: rest) =
      match firstIndexOf id pre with
      | Some i => Some i
      | None => if decide (Form_ID form = id) then Some (length pre)
                else firstIndexOf id (pre ++ form :: rest)
      end).
    { intros id. rewrite firstIndexOf_app. destruct (firstIndexOf id pre); [done|].
      simpl. destruct (decide (Form_ID form = id)); simpl; [f_equal; lia|done]. }
    unfold idErrorsAt at 1.
    destruct (decide (Form_ID form = EmptyString)) as [Hempty|Hid].
    + rewrite IH.
      * rewrite <- app_assoc. reflexivity.
      * intros id Hne. rewrite firstIndexOf_app, Hmap by done.
        destruct (firstIndexOf id pre); [done|]. simpl.
        destruct (decide (Form_ID form = id)); [congruence|done].
    + rewrite Hfirst. pose proof (Hmap _ Hid) as Hlook.
      destruct (firstIndexOf (Form_ID form) pre) as [i0|] eqn:Hpre;
        simpl in Hlook; rewrite Hlook.
      * assert (Hlt : (i0 < length pre)%nat).
        { apply firstIndexOf_Some in Hpre as (x & Hx & _).
          by apply lookup_lt_Some in Hx. }
        destruct (decide (i0 < length pre + 0)%nat); [|lia].
        rewrite IH.
        -- rewrite <- app_assoc. unfold NewCupSleeveError, NewDuplicateFormIDError.
           simpl. repeat f_equal. lia.
        -- intros id Hne. rewrite firstIndexOf_app, Hmap by done.
           destruct (firstIndexOf id pre) eqn:E; [done|]. simpl.
           destruct (decide (Form_ID form = id)); [congruence|done].
      * destruct (decide (Form_ID form = Form_ID form)); [|done].
        destruct (decide (length pre < length pre + 0)%nat); [lia|].
        rewrite IH; [done|].
        intros id Hne. rewrite firstIndexOf_app. simpl.
        destruct (decide (Form_ID form = id)) as [<-|Hne'].
        -- rewrite lookup_insert_eq, Hpre. simpl. f_equal. lia.
        -- rewrite lookup_insert_ne, Hmap by done.
           by destruct (firstIndexOf id pre).
Qed.

Lemma validateGenerators_spec (fs : list Form) (errs : list error) :
  validateGenerators fs errs = errs ++ (fs ≫= generatorErrors).
Proof.
  revert errs. induction fs as [|form fs IH]; intros errs.
  - simpl. by rewrite app_nil_r.
  - rewrite bind_cons. cbn [validateGenerators]. unfold generatorErrors at 1.
    destruct (Generator form); rewrite IH; [done|].
    by rewrite <- app_assoc.
Qed.

Lemma ValidateNavigation_structural (n : Navigator) :
  forms n ≠ [] → ValidateNavigation n = structuralErrors (forms n).
Proof.
  intros Hne. unfold ValidateNavigation, structuralErrors.
  destruct (forms n) as [|form fs] eqn:E; [done|].
  rewrite validateGenerators_spec. f_equal.
  rewrite (validateIDs_spec (form :: fs) [] ∅ []).
  - reflexivity.
  - intros id _. by rewrite lookup_empty.
Qed.

Lemma countIf_app {A} (p : A → bool) (l1 l2 : list A) :
  countIf p (l1 ++ l2) = (countIf p l1 + countIf p l2)%nat.
Proof. unfold countIf. by rewrite List.filter_app, length_app. Qed.

Lemma countIf_join_imap {A B} (p : B → bool) (q : A → bool)
  (g : nat → A → list B) (l : list A) :
  (∀ j x, countIf p (g j x) = if q x then 1%nat else 0%nat) →
  countIf p (mjoin (imap g l)) = countIf q l.
Proof.
  revert g. induction l as [|x l IH]; intros g Hg; [done|].
  rewrite imap_cons.
  change (mjoin (g 0%nat x :: imap (g ∘ S) l))
    with (g 0%nat x ++ mjoin (imap (g ∘ S) l)).
  rewrite countIf_app, Hg, (IH (g ∘ S)) by (intros j y; apply Hg).
  unfold countIf. simpl. by destruct (q x).
Qed.

Lemma countIf_bind {A B} (p : B → bool) (q : A → bool)
  (g : A → list B) (l : list A) :
  (∀ x, countIf p (g x) = if q x then 1%nat else 0%nat) →
  countIf p (l ≫= g) = countIf q l.
Proof.
  intros Hg. induction l as [|x l IH]; [done|].
  rewrite bind_cons, countIf_app, Hg, IH.
  unfold countIf. simpl. by destruct (q x).
Qed.

Lemma count_emptyID_idErrors (fs : list Form) (j : nat) (form : Form) :
  countIf isEmptyIDError (idErrorsAt fs j form) =
  if hasEmptyID form then 1%nat else 0%nat.
Proof.
  unfold idErrorsAt, hasEmptyID.
  destruct (decide (Form_ID form = EmptyString)) as [He|Hne].
  - by rewrite bool_decide_eq_true_2.
  - rewrite bool_decide_eq_false_2 by done.
    destruct (firstIndexOf (Form_ID form) fs); [|done].
    destruct (decide _); [|done].
    unfold countIf, isEmptyIDError. simpl.
    by rewrite bool_decide_eq_false_2.
Qed.

Lemma count_emptyID_generatorErrors (form : Form) :
  countIf isEmptyIDError (generatorErrors form) = if false then 1%nat else 0%nat.
Proof.
  unfold generatorErrors. destruct (Generator form); [done|].
  unfold countIf, isEmptyIDError. simpl.
  by rewrite bool_decide_eq_false_2.
Qed.

Lemma count_noGenerator_idErrors (fs : list Form) (j : nat) (form : Form) :
  countIf isNoGeneratorError (idErrorsAt fs j form) =
  if false then 1%nat else 0%nat.
Proof.
  unfold idErrorsAt.
  destruct (decide (Form_ID form = EmptyString)); [done|].
  destruct (firstIndexOf (Form_ID form) fs); [|done].
  by destruct (decide _).
Qed.

Lemma count_noGenerator_generatorErrors (form : Form) :
  countIf isNoGeneratorError (generatorErrors form) =
  if lacksGenerator form then 1%nat else 0%nat.
Proof.
  unfold generatorErrors, lacksGenerator. by destruct (Generator form).
Qed.

Lemma countIf_never {A} (l : list A) : countIf (λ _, false) l = 0%nat.
Proof. induction l; [done|]. unfold countIf in *. simpl. exact IHl. Qed.

Lemma structuralErrors_counts (fs : list Form) :
  countIf isEmptyIDError (structuralErrors fs) = countIf hasEmptyID fs ∧
  countIf isNoGeneratorError (structuralErrors fs) = countIf lacksGenerator fs.
Proof.
  unfold structuralErrors. rewrite !countIf_app. split.
  - rewrite (countIf_join_imap _ hasEmptyID)
      by (intros; apply count_emptyID_idErrors).
    rewrite (countIf_bind _ (λ _, false))
      by (intros; apply count_emptyID_generatorErrors).
    rewrite countIf_never. lia.
  - rewrite (countIf_join_imap _ (λ _, false))
      by (intros; apply count_noGenerator_idErrors).
    rewrite (countIf_bind _ lacksGenerator)
      by (intros; apply count_noGenerator_generatorErrors).
    by rewrite countIf_never.
Qed.

Lemma structuralErrors_duplicate (fs : list Form) (i j : nat) (fi fj : Form) :
  (i < j)%nat → fs !! i = Some fi → fs !! j = Some fj →
  Form_ID fi = Form_ID fj → Form_ID fj ≠ EmptyString →
  ∃ i0, firstIndexOf (Form_ID fj) fs = Some i0 ∧ (i0 ≤ i)%nat ∧
        CupSleeveError (Form_ID fj)
          (DuplicateFormIDError (Form_ID fj) (Z.of_nat i0) (Z.of_nat j))
        ∈ structuralErrors fs.
Proof.
  intros Hlt Hi Hj Hid Hne.
  destruct (firstIndexOf_le (Form_ID fj) fs i fi Hi Hid) as (i0 & Hfirst & Hle).
  exists i0. split; [exact Hfirst|]. split; [exact Hle|].
  unfold structuralErrors. apply elem_of_app. left.
  apply list_elem_of_join. exists (idErrorsAt fs j fj). split.
  - unfold idErrorsAt. destruct (decide (Form_ID fj = EmptyString)); [done|].
    rewrite Hfirst. destruct (decide (i0 < j)%nat); [|lia].
    apply list_elem_of_here.
  - by apply elem_of_lookup_imap_2.
Qed.

(** C8.  On an empty flow [ValidateNavigation] returns the single error
    [ErrNoFormsProvided].  On any other flow it returns, in one list, all
    the violations of all the forms: exactly one empty-ID error for each
    form whose ID is empty, exactly one missing-generator error for each
    form without a generator, and for each form whose non-empty ID
    occurred earlier a duplicate-ID error carrying the position of the
    first occurrence and its own position.  When the first two forms
    share the ID "x", that error carries the indices 0 and 1. *)
Theorem ValidateNavigation_collects (n : Navigator) :
  (forms n = [] → ValidateNavigation n = [ErrNoFormsProvided]) ∧
  (forms n ≠ [] →
     ValidateNavigation n = structuralErrors (forms n) ∧
     countIf isEmptyIDError (ValidateNavigation n) =
       countIf hasEmptyID (forms n) ∧
     countIf isNoGeneratorError (ValidateNavigation n) =
       countIf lacksGenerator (forms n) ∧
     (∀ (i j : nat) (fi fj : Form),
        (i < j)%nat → forms n !! i = Some fi → forms n !! j = Some fj →
        Form_ID fi = Form_ID fj → Form_ID fj ≠ EmptyString →
        ∃ i0, firstIndexOf (Form_ID fj) (forms n) = Some i0 ∧ (i0 ≤ i)%nat ∧
              CupSleeveError (Form_ID fj)
                (DuplicateFormIDError (Form_ID fj) (Z.of_nat i0) (Z.of_nat j))
              ∈ ValidateNavigation n)) ∧
  (∀ (f0 f1 : Form) (rest : list Form),
     forms n = f0 :: f1 :: rest → Form_ID f0 = "x" → Form_ID f1 = "x" →
     CupSleeveError "x" (DuplicateFormIDError "x" 0 1) ∈ ValidateNavigation n).
Proof.
  split; [|split].
  - intros Hempty. unfold ValidateNavigation. by rewrite Hempty.
  - intros Hne. rewrite (ValidateNavigation_structural n Hne).
    destruct (structuralErrors_counts (forms n)) as [Hc1 Hc2].
    split; [reflexivity|]. split; [exact Hc1|]. split; [exact Hc2|].
    intros i j fi fj. apply structuralErrors_duplicate.
  - intros f0 f1 rest Hforms H0 H1.
    rewrite ValidateNavigation_structural by (by rewrite Hforms).
    destruct (structuralErrors_duplicate (forms n) 0 1 f0 f1)
      as (i0 & _ & Hle & Hin).
    + lia.
    + by rewrite Hforms.
    + by rewrite Hforms.
    + congruence.
    + by rewrite H1.
    + assert (i0 = 0%nat) as -> by lia. by rewrite H1 in Hin.
Qed.

(** ** The session controller *)

Lemma bind_Ok {A B} (m : Res A) (k : A → Res B) (b : B) :
  m ≫= k = Ok b → ∃ a, m = Ok a ∧ k a = Ok b.
Proof. destruct m as [a| |]; simpl; [|done..]. intros H. by exists a. Qed.

Lemma deref_Ok {A} (p : option A) (a : A) : deref p = Ok a → p = Some a.
Proof. destruct p; simpl; congruence. Qed.

Lemma keeps_refl (f : Bobarista) : keeps f f.
Proof. split; [by left|done]. Qed.

Lemma keeps_trans (f1 f2 f3 : Bobarista) :
  keeps f1 f2 → keeps f2 f3 → keeps f1 f3.
Proof.
  intros [Ha Hg] [Ha' Hg']. split; [|tauto].
  unfold advances in *.
  destruct Ha as [Ha|Ha]; destruct Ha' as [Ha'|Ha']; try tauto.
  - left. congruence.
  - right. rewrite Ha'. exact Ha.
Qed.

Lemma keeps_same (f f' : Bobarista) :
  state f' = state f → globalData f' = globalData f → keeps f f'.
Proof.
  intros Hs Hg. split; [by left|]. unfold globalDataSet. by rewrite Hg.
Qed.

Lemma keeps_withState (f : Bobarista) (s : BobaState) :
  s = StateCompleted ∨ s = StateError → keeps f (withState f s).
Proof. intros Hs. split; [right; exact Hs|done]. Qed.

Lemma keeps_addError (f : Bobarista) (formID : string) (err : error) :
  keeps f (addError f formID err).
Proof. split; [right; by right|done]. Qed.

Lemma keeps_global (f f' : Bobarista) (g' : FormData) :
  state f' = state f → globalData f' = Some g' → keeps f f'.
Proof.
  intros Hs Hg'. split; [by left|]. unfold globalDataSet. by rewrite Hg'.
Qed.

Lemma generateForm_keeps f current v f' cmd :
  generateForm f current v = Ok (f', cmd) → keeps f f'.
Proof.
  unfold generateForm. intros H.
  destruct (Generator current) as [gen|].
  - apply bind_Ok in H as (g & Hg & H).
    destruct (gen v (Values g)); injection H as <- <-.
    + by apply keeps_same.
    + eapply keeps_trans; [|apply keeps_addError]. by apply keeps_same.
  - injection H as <- <-. apply keeps_addError.
Qed.

Lemma initCurrentForm_keeps fuel f f' cmd :
  initCurrentForm fuel f = Ok (f', cmd) → keeps f f'.
Proof.
  revert f f' cmd. induction fuel as [|fuel IH]; intros f f' cmd H; [done|].
  cbn [initCurrentForm] in H.
  destruct (Current (navigator f)) as [current|].
  2: { injection H as <- <-. apply keeps_withState. by left. }
  cbv zeta in H.
  apply bind_Ok in H as ([] & _ & H).
  match type of H with
  | context [withFormValues f ?c] => set (f0 := withFormValues f c) in *
  end.
  assert (H0 : keeps f f0) by (by apply keeps_same).
  eapply keeps_trans; [exact H0|]. clear H0.
  destruct (ShouldSkip current) as [skip|].
  2: { by eapply generateForm_keeps. }
  apply bind_Ok in H as (g & Hg & H).
  match type of H with
  | context [record f0 ?c] => set (f1 := record f0 c) in *
  end.
  assert (H1 : keeps f0 f1) by (by apply keeps_same).
  eapply keeps_trans; [exact H1|]. clear H1.
  destruct (skip _ g).
  2: { by eapply generateForm_keeps. }
  match type of H with
  | context [record f1 ?c] => set (f2 := record f1 c) in *
  end.
  assert (H2 : keeps f1 f2) by (by apply keeps_same).
  eapply keeps_trans; [exact H2|]. clear H2.
  destruct (fst (Next (navigator f1) g)) as [nextIndex [err|]].
  { injection H as <- <-. apply keeps_addError. }
  destruct ((nextIndex =? -1) || (nextIndex =? -2)).
  { injection H as <- <-. apply keeps_withState. by left. }
  destruct (MoveTo (navigator f2) nextIndex) as [nav' [err|]].
  { injection H as <- <-. apply keeps_addError. }
  apply IH in H. eapply keeps_trans; [|exact H]. by apply keeps_same.
Qed.

Lemma runOnComplete_keeps f current f1 currentData err :
  runOnComplete f current = Ok (f1, currentData, err) → keeps f f1.
Proof.
  unfold runOnComplete. intros H.
  apply bind_Ok in H as ([] & _ & H).
  destruct (OnComplete current) as [handler|].
  - apply bind_Ok in H as (g & Hg & H). apply deref_Ok in Hg.
    injection H as <- _ _. by eapply keeps_global.
  - injection H as <- _ _. apply keeps_refl.
Qed.

Lemma mergeIntoGlobal_keeps f currentData f2 :
  mergeIntoGlobal f currentData = Ok f2 → keeps f f2.
Proof.
  unfold mergeIntoGlobal. intros H.
  apply bind_Ok in H as ([] & _ & H).
  apply bind_Ok in H as ([] & _ & H).
  apply bind_Ok in H as (g & Hg & H).
  apply bind_Ok in H as (gv & Hgv & H).
  injection H as <-. split; [by left|done].
Qed.

Lemma navigateAfter_keeps fuel f current f' cmd :
  navigateAfter fuel f current = Ok (f', cmd) → keeps f f'.
Proof.
  unfold navigateAfter. intros H.
  apply bind_Ok in H as (g & Hg & H). cbv zeta in H.
  match type of H with
  | context [record f ?c] => set (f1 := record f c) in *
  end.
  assert (H1 : keeps f f1) by (by apply keeps_same).
  eapply keeps_trans; [exact H1|]. clear H1.
  destruct (fst (Next (navigator f) g)) as [nextIndex [err|]].
  { injection H as <- <-. apply keeps_addError. }
  destruct (nextIndex =? -2).
  { injection H as <- <-. apply keeps_withState. by left. }
  destruct (nextIndex =? -1).
  { injection H as <- <-. apply keeps_withState. by left. }
  destruct (MoveTo (navigator f1) nextIndex) as [nav' [err|]].
  { injection H as <- <-. apply keeps_addError. }
  apply initCurrentForm_keeps in H.
  eapply keeps_trans; [|exact H]. by apply keeps_same.
Qed.

Lemma handleFormCompletion_keeps fuel f f' cmd :
  handleFormCompletion fuel f = Ok (f', cmd) → keeps f f'.
Proof.
  unfold handleFormCompletion. intros H.
  destruct (Current (navigator f)) as [current|].
  2: { injection H as <- <-. apply keeps_withState. by left. }
  apply bind_Ok in H as ([[f1 currentData] err] & Hrun & H).
  apply runOnComplete_keeps in Hrun.
  eapply keeps_trans; [exact Hrun|].
  destruct err as [err|].
  { injection H as <- <-. apply keeps_addError. }
  apply bind_Ok in H as (f2 & Hmerge & H).
  apply mergeIntoGlobal_keeps in Hmerge. apply navigateAfter_keeps in H.
  by eapply keeps_trans.
Qed.

Lemma updateCurrentForm_keeps fuel f msg f' cmd :
  updateCurrentForm fuel f msg = Ok (f', cmd) → keeps f f'.
Proof.
  unfold updateCurrentForm. intros H.
  destruct (currentForm f) as [w|].
  2: { injection H as <- <-. apply keeps_refl. }
  cbv zeta in H. destruct (huhStateCompleted (huhUpdate w msg)).
  - apply handleFormCompletion_keeps in H.
    eapply keeps_trans; [|exact H]. by apply keeps_same.
  - injection H as <- <-. by apply keeps_same.
Qed.

Lemma handleCompletedState_keeps f key :
  keeps f (fst (handleCompletedState f key)).
Proof.
  unfold handleCompletedState.
  repeat (destruct (decide _); [apply keeps_refl|]).
  destruct (decide _); [|apply keeps_refl].
  destruct (state f) eqn:Hstate; try apply keeps_refl.
  destruct (RecipeOnComplete (config f)) as [onComplete|]; [|apply keeps_refl].
  cbv zeta.
  match goal with
  | |- context [withGlobalData ?a ?b] => set (f1 := withGlobalData a b)
  end.
  assert (H1 : keeps f f1).
  { split; [by left|]. unfold globalDataSet. simpl.
    by destruct (globalData f). }
  destruct (snd _); simpl; [|exact H1].
  eapply keeps_trans; [exact H1|apply keeps_addError].
Qed.

Lemma forwardIfActive_keeps fuel f msg f' cmd :
  forwardIfActive fuel f msg = Ok (f', cmd) → keeps f f'.
Proof.
  unfold forwardIfActive. intros H.
  destruct (state f), (currentForm f);
    try (injection H as <- <-; apply keeps_refl).
  by eapply updateCurrentForm_keeps.
Qed.

Lemma Update_keeps fuel f msg f' cmd :
  Update fuel f msg = Ok (f', cmd) → keeps f f'.
Proof.
  unfold Update. intros H. destruct msg as [w h|key|].
  - destruct (currentForm f) as [wdg|].
    + injection H as <- <-. by apply keeps_same.
    + by eapply forwardIfActive_keeps.
  - destruct (state f) eqn:Hstate.
    + destruct (decide _); [injection H as <- <-; apply keeps_refl|].
      destruct (decide _); [injection H as <- <-; apply keeps_refl|].
      by eapply forwardIfActive_keeps.
    + pose proof (handleCompletedState_keeps f key) as K.
      injection H as H. rewrite H in K. exact K.
    + pose proof (handleCompletedState_keeps f key) as K.
      injection H as H. rewrite H in K. exact K.
  - by eapply forwardIfActive_keeps.
Qed.

Lemma initStores_keeps f : keeps f (initStores f).
Proof.
  by eapply keeps_global.
Qed.

Lemma callOnInit_keeps f : keeps f (callOnInit f).
Proof.
  unfold callOnInit. destruct (OnInit (config f)) as [onInit|];
    [|apply keeps_refl].
  by eapply keeps_global.
Qed.

Lemma Init_keeps fuel f f' cmd :
  Init fuel f = Ok (f', cmd) → keeps f f'.
Proof.
  unfold Init. intros H.
  eapply keeps_trans; [apply initStores_keeps|].
  eapply keeps_trans; [apply callOnInit_keeps|].
  set (f1 := callOnInit (initStores f)) in *. cbv zeta in H.
  apply bind_Ok in H as (g & Hg & H).
  destruct (fst (MoveToFirstValid (navigator f1) g)) as [nav' [err|]].
  { injection H as <- <-.
    eapply keeps_trans; [|apply keeps_addError]. by apply keeps_same. }
  apply initCurrentForm_keeps in H.
  eapply keeps_trans; [|exact H]. by apply keeps_same.
Qed.

Lemma step_keeps f f' : step f f' → keeps f f'.
Proof.
  intros H. destruct H.
  - by eapply Init_keeps.
  - by eapply Update_keeps.
  - apply handleCompletedState_keeps.
  - by eapply updateCurrentForm_keeps.
  - by eapply handleFormCompletion_keeps.
  - by eapply initCurrentForm_keeps.
  - apply keeps_addError.
Qed.

Lemma reachable_keeps f0 f : reachable f0 f → keeps f0 f.
Proof.
  induction 1 as [|f f' _ IH Hstep]; [apply keeps_refl|].
  eapply keeps_trans; [exact IH|by apply step_keeps].
Qed.

(** *** Completion of a step *)

Lemma debugDump_Ok (f : Bobarista) (g : FormData) (gv : FormValues) :
  globalData f = Some g → Values g = Some gv → debugDump f = Ok tt.
Proof.
  intros Hg Hgv. unfold debugDump. destruct (Debug (config f)); [|done].
  rewrite Hg. simpl. by rewrite Hgv.
Qed.

Lemma debugDumpStep_Ok (f : Bobarista) (d : FormData) (v : FormValues) :
  Values d = Some v → debugDumpStep f d = Ok tt.
Proof.
  intros Hv. unfold debugDumpStep. destruct (Debug (config f)); [|done].
  by rewrite Hv.
Qed.

(** C3 (as amended).  In a session whose global data and global store
    are set, as they are from [Build] on: when the completion handler of
    the current step returns an error, [handleFormCompletion] returns
    with the session in
    [Error] state and exactly one entry appended to the error list: the
    handler's error itself when it is already a [CupSleeveError],
    otherwise a [CupSleeveError] of the step's ID and the handler's
    error.  The navigator and the widget are untouched and the only
    callback invoked is the handler, so no navigation takes place; the
    global data is what the handler left of it, the step's data not
    being merged, so it is unchanged when the handler did not write to it. *)
Theorem OnComplete_error_halts (fuel : nat) (f : Bobarista) (current : Form)
  (handler : CompletionHandler) (g : FormData) (gv : FormValues) (err : error) :
  Current (navigator f) = Some current →
  OnComplete current = Some handler →
  globalData f = Some g →
  Values g = Some gv →
  let currentData :=
    {| ID := Form_ID current;
       Values := Some (default NewFormValues
                         (storedValues f (Form_ID current))) |} in
  let c := handler currentData g in
  completion_err c = Some err →
  ∃ f', handleFormCompletion fuel f = Ok (f', CmdNil) ∧
        state f' = StateError ∧
        errors f' = errors f ++
          [if isCupSleeveError err then err
           else CupSleeveError (Form_ID current) err] ∧
        navigator f' = navigator f ∧
        currentForm f' = currentForm f ∧
        calls f' = calls f ++ [CallOnComplete (Form_ID current) currentData g] ∧
        globalData f' = Some (global_out c) ∧
        (global_out c = g → globalData f' = globalData f).
Proof.
  intros Hcur Hhandler Hg Hgv currentData c Herr.
  unfold handleFormCompletion. rewrite Hcur.
  unfold runOnComplete. rewrite (debugDump_Ok f g gv Hg Hgv), Hhandler, Hg.
  simpl. fold currentData. fold c. rewrite Herr.
  eexists. split; [reflexivity|].
  simpl. repeat split; try reflexivity.
  intros Hout. by rewrite Hout.
Qed.

Lemma runOnComplete_frame f current f1 currentData err :
  runOnComplete f current = Ok (f1, currentData, err) →
  navigator f1 = navigator f ∧ currentForm f1 = currentForm f ∧
  state f1 = state f ∧
  ∃ new, calls f1 = calls f ++ new ∧ forallb (negb ∘ isSkipCall) new = true.
Proof.
  unfold runOnComplete. intros H.
  apply bind_Ok in H as ([] & _ & H).
  destruct (OnComplete current) as [handler|].
  - apply bind_Ok in H as (g & Hg & H). injection H as <- _ _.
    repeat split; try reflexivity. eexists. split; [reflexivity|done].
  - injection H as <- _ _. repeat split; try reflexivity.
    exists []. split; [by rewrite app_nil_r|done].
Qed.

Lemma mergeIntoGlobal_frame f currentData f2 :
  mergeIntoGlobal f currentData = Ok f2 →
  navigator f2 = navigator f ∧ currentForm f2 = currentForm f ∧
  state f2 = state f ∧ calls f2 = calls f.
Proof.
  unfold mergeIntoGlobal. intros H.
  apply bind_Ok in H as ([] & _ & H).
  apply bind_Ok in H as ([] & _ & H).
  apply bind_Ok in H as (g & Hg & H).
  apply bind_Ok in H as (gv & Hgv & H).
  by injection H as <-.
Qed.

(** C6.  When the completion handler of the current step is absent or
    succeeds, the step's data is merged, and the step's custom navigation
    then returns [-2], [handleFormCompletion] returns with the session in
    [Completed] state; the navigator is the one it started with (no
    move), the widget is untouched, and no skip predicate is among the
    callbacks invoked: the last one is the navigation function. *)
Theorem terminate_signal_completes (fuel : nat) (f : Bobarista)
  (current : Form) (nextForm : NavigationHandler)
  (f1 : Bobarista) (currentData : FormData) (f2 : Bobarista) (g : FormData) :
  Current (navigator f) = Some current →
  NextForm current = Some nextForm →
  runOnComplete f current = Ok (f1, currentData, None) →
  mergeIntoGlobal f1 currentData = Ok f2 →
  globalData f2 = Some g →
  nextForm g = -2 →
  ∃ f', handleFormCompletion fuel f = Ok (f', CmdNil) ∧
        state f' = StateCompleted ∧
        navigator f' = navigator f ∧
        currentForm f' = currentForm f ∧
        calls f' = calls f2 ++ [CallNextForm (Form_ID current) g] ∧
        ∃ new, calls f' = calls f ++ new ∧
               forallb (negb ∘ isSkipCall) new = true.
Proof.
  intros Hcur Hnext Hrun Hmerge Hg Hstop.
  destruct (runOnComplete_frame _ _ _ _ _ Hrun)
    as (Hnav1 & Hw1 & _ & new & Hcalls1 & Hnew).
  destruct (mergeIntoGlobal_frame _ _ _ Hmerge) as (Hnav2 & Hw2 & _ & Hcalls2).
  unfold handleFormCompletion. rewrite Hcur, Hrun. simpl. rewrite Hmerge. simpl.
  unfold navigateAfter. rewrite Hg. simpl.
  assert (Hcur2 : Current (navigator f2) = Some current) by congruence.
  unfold Next. rewrite Hcur2, Hnext, Hstop. simpl.
  eexists. split; [reflexivity|]. simpl.
  split; [reflexivity|]. split; [congruence|]. split; [congruence|].
  split; [reflexivity|].
  exists (new ++ [CallNextForm (Form_ID current) g]).
  split; [by rewrite Hcalls2, Hcalls1, <- app_assoc|].
  rewrite forallb_app, Hnew. reflexivity.
Qed.

(** *** Custom navigation *)

(** What [Next] does with a custom-navigation function: the function is
    applied to the argument of [Next]; [-1] leads to the default search
    from [current+1], any other value is returned as it is. *)
Lemma Next_custom_navigation (n : Navigator) (data : FormData)
  (current : Form) (nextForm : NavigationHandler) :
  Current n = Some current →
  NextForm current = Some nextForm →
  (nextForm data = -1 →
     Next n data =
     logged [CallNextForm (Form_ID current) data]
       (findNextValidForm n (currentIdx n + 1) data)) ∧
  (nextForm data ≠ -1 →
     Next n data =
     ((nextForm data, None), [CallNextForm (Form_ID current) data])).
Proof.
  intros Hcur Hnext. unfold Next. rewrite Hcur, Hnext. cbv zeta. split.
  - intros ->. reflexivity.
  - intros Hne. destruct (nextForm data =? -1) eqn:E; [lia|reflexivity].
Qed.

(** *** The session state *)

Lemma Update_terminal_returns (fuel : nat) (f : Bobarista) (msg : Msg) :
  state f ≠ StateActive → ∃ f' cmd, Update fuel f msg = Ok (f', cmd).
Proof.
  intros Hterm. unfold Update, forwardIfActive.
  destruct msg as [w h|key|].
  - destruct (currentForm f); [by eauto|].
    destruct (state f); [done|by eauto..].
  - destruct (state f); [done| |];
      destruct (handleCompletedState f key); by eauto.
  - destruct (state f); [done| |]; destruct (currentForm f); by eauto.
Qed.

Lemma finish_failure_enters_Error (fuel : nat) (f : Bobarista)
  (onComplete : FormData → FormValues * option error) (err : error) :
  state f = StateCompleted →
  RecipeOnComplete (config f) = Some onComplete →
  snd (onComplete (GetGlobalData f)) = Some err →
  ∃ f', Update fuel f (KeyMsg "enter") = Ok (f', CmdNil) ∧
        state f' = StateError.
Proof.
  intros Hstate Hfinish Herr. unfold Update. rewrite Hstate.
  unfold handleCompletedState. simpl. rewrite Hstate, Hfinish. simpl.
  rewrite Herr. eexists. split; reflexivity.
Qed.

(** C9.  Every operation of the controller that returns leaves the
    session state as it was or sets it to [Completed] or [Error]; so a
    state that is [Completed] or [Error] is never followed by [Active],
    after one operation or after any number of them.  From such a state
    [Update] always returns, and in [Completed] state the key "enter"
    with a failing finish callback leads to [Error]. *)
Theorem state_never_returns_to_Active :
  (∀ f f', step f f' →
     state f' = state f ∨ state f' = StateCompleted ∨ state f' = StateError) ∧
  (∀ f f', step f f' → state f ≠ StateActive → state f' ≠ StateActive) ∧
  (∀ f f', reachable f f' → state f ≠ StateActive → state f' ≠ StateActive) ∧
  (∀ fuel f msg, state f ≠ StateActive →
     ∃ f' cmd, Update fuel f msg = Ok (f', cmd)) ∧
  (∀ fuel f onComplete err,
     state f = StateCompleted →
     RecipeOnComplete (config f) = Some onComplete →
     snd (onComplete (GetGlobalData f)) = Some err →
     ∃ f', Update fuel f (KeyMsg "enter") = Ok (f', CmdNil) ∧
           state f' = StateError).
Proof.
  assert (Hadv : ∀ s s', advances s s' → s ≠ StateActive → s' ≠ StateActive).
  { intros s s' [->|[->| ->]] Hs; done. }
  split; [|split; [|split; [|split]]].
  - intros f f' Hstep. by destruct (step_keeps f f' Hstep).
  - intros f f' Hstep. apply Hadv. by destruct (step_keeps f f' Hstep).
  - intros f f' Hreach. apply Hadv. by destruct (reachable_keeps f f' Hreach).
  - apply Update_terminal_returns.
  - apply finish_failure_enters_Error.
Qed.

(** *** The stores handed out *)



(** ** The properties on the sample flows *)

Example Next_skips_B : Next navABC quickData =
  ((2, None),
   [CallShouldSkip "B" {| ID := "B"; Values := Some ∅ |} quickData]).
Proof. reflexivity. Qed.

Example Next_after_last :
  fst (Next (fst (MoveTo navABC 2)) quickData) = (-1, None).
Proof. reflexivity. Qed.

Lemma Next_default_search_witness :
  noCustomNavigation navABC ∧
  snd (fst (Next navABC quickData)) = None ∧
  (currentIdx navABC = GetFormCount navABC - 1 →
   fst (fst (Next navABC quickData)) = -1).
Proof.
  assert (Hnav : noCustomNavigation navABC) by reflexivity.
  split; [exact Hnav|].
  pose proof (Next_default_search navABC quickData Hnav) as H.
  cbv zeta in H. destruct H as (Herr & _ & _ & Hlast).
  split; [exact Herr|exact Hlast].
Defined.

Lemma MoveTo_spec_witness :
  MoveTo navABC 5 = (navABC, Some ErrInvalidFormIndex) ∧
  snd (MoveTo navABC 2) = None ∧
  currentIdx (fst (MoveTo navABC 2)) = 2 ∧
  history (fst (MoveTo navABC 2)) = [0].
Proof.
  split.
  - apply (proj1 (MoveTo_spec navABC 5)). right. unfold GetFormCount. simpl. lia.
  - assert (Hin : 0 ≤ 2 < GetFormCount navABC)
      by (unfold GetFormCount; simpl; lia).
    destruct (proj2 (MoveTo_spec navABC 2) Hin) as (Herr & Hcur & _ & Hpush & _).
    split; [exact Herr|]. split; [exact Hcur|].
    apply Hpush. simpl. lia.
Defined.

Example ValidateNavigation_duplicates :
  ValidateNavigation navDuplicates =
  [CupSleeveError "x" (DuplicateFormIDError "x" 0 1);
   CupSleeveError "" ErrEmptyFormID;
   CupSleeveError "x" ErrNoGenerator;
   CupSleeveError "x" ErrNoGenerator;
   CupSleeveError "" ErrNoGenerator].
Proof. reflexivity. Qed.

Lemma ValidateNavigation_collects_witness :
  ValidateNavigation (NewNavigator []) = [ErrNoFormsProvided] ∧
  countIf isEmptyIDError (ValidateNavigation navDuplicates) = 1%nat ∧
  countIf isNoGeneratorError (ValidateNavigation navDuplicates) = 3%nat ∧
  CupSleeveError "x" (DuplicateFormIDError "x" 0 1)
    ∈ ValidateNavigation navDuplicates.
Proof.
  split.
  - apply (proj1 (ValidateNavigation_collects (NewNavigator []))). reflexivity.
  - assert (Hne : forms navDuplicates ≠ []) by discriminate.
    destruct (proj1 (proj2 (ValidateNavigation_collects navDuplicates)) Hne)
      as (_ & Hempty & Hgen & _).
    split; [exact Hempty|]. split; [exact Hgen|].
    apply (proj2 (proj2 (ValidateNavigation_collects navDuplicates))
             (NewForm "x" "one") (NewForm "x" "two") [NewForm "" "three"]);
      reflexivity.
Defined.

Lemma OnComplete_error_halts_witness :
  ∃ f', handleFormCompletion 0 (started [stepA_plain] "A") = Ok (f', CmdNil) ∧
        state f' = StateError ∧
        errors f' = [CupSleeveError "A" (errorString "invalid")] ∧
        globalData f' = globalData (started [stepA_plain] "A").
Proof.
  destruct (OnComplete_error_halts 0 (started [stepA_plain] "A") stepA_plain
              (failWith (errorString "invalid"))
              {| ID := "global"; Values := Some {[ "plan" := Some "pro" ]} |}
              {[ "plan" := Some "pro" ]} (errorString "invalid")
              eq_refl eq_refl eq_refl eq_refl eq_refl)
    as (f' & Hrun & Hstate & Herrs & _ & _ & _ & _ & Hglobal).
  exists f'. split; [exact Hrun|]. split; [exact Hstate|].
  split; [exact Herrs|]. apply Hglobal. reflexivity.
Defined.

(** C3 as stated does not hold when the handler's error is already a
    [CupSleeveError]: the entry appended for step "A" is the
    handler's error, which names form "B"; no entry carries the ID "A". *)
Lemma OnComplete_error_already_wrapped :
  Current (navigator (started [stepA_wrapped] "A")) = Some stepA_wrapped ∧
  OnComplete stepA_wrapped =
    Some (failWith (CupSleeveError "B" (errorString "invalid"))) ∧
  ∃ f', handleFormCompletion 0 (started [stepA_wrapped] "A") = Ok (f', CmdNil) ∧
        errors f' = [CupSleeveError "B" (errorString "invalid")] ∧
        errors f' ≠
          errors (started [stepA_wrapped] "A") ++
          [CupSleeveError "A" (CupSleeveError "B" (errorString "invalid"))] ∧
        ∀ e inner, e ∈ errors f' → e ≠ CupSleeveError "A" inner.
Proof.
  split; [reflexivity|]. split; [reflexivity|].
  eexists. split; [reflexivity|]. split; [reflexivity|]. split.
  - discriminate.
  - intros e inner Hin. simpl in Hin.
    apply list_elem_of_singleton in Hin as ->. discriminate.
Qed.

Lemma terminate_signal_completes_witness :
  ∃ f', handleFormCompletion 0 (started [stepStop; sampleForm "b"] "A")
        = Ok (f', CmdNil) ∧
        state f' = StateCompleted ∧
        navigator f' = navigator (started [stepStop; sampleForm "b"] "A").
Proof.
  destruct (terminate_signal_completes 0
              (started [stepStop; sampleForm "b"] "A") stepStop (λ _, -2)
              _ _ _ _ eq_refl eq_refl eq_refl eq_refl eq_refl eq_refl)
    as (f' & Hrun & Hstate & Hnav & _).
  exists f'. split; [exact Hrun|]. split; [exact Hstate|exact Hnav].
Defined.

Lemma state_never_returns_to_Active_witness :
  state finishFails ≠ StateActive ∧
  ∃ f', Update 0 finishFails (KeyMsg "enter") = Ok (f', CmdNil) ∧
        state f' = StateError ∧ state f' ≠ StateActive.
Proof.
  assert (Hterm : state finishFails ≠ StateActive) by discriminate.
  split; [exact Hterm|].
  destruct (proj2 (proj2 (proj2 (proj2 state_never_returns_to_Active)))
              0%nat finishFails
              (λ g, (default ∅ (Values g), Some (errorString "disk full")))
              (errorString "disk full") eq_refl eq_refl eq_refl)
    as (f' & Hrun & Hstate).
  exists f'. split; [exact Hrun|]. split; [exact Hstate|].
  apply (proj1 (proj2 state_never_returns_to_Active) finishFails f');
    [|exact Hterm].
  exact (step_Update 0 finishFails (KeyMsg "enter") f' CmdNil Hrun).
Defined.



(** C2, on the code.  The flow [flowOwn] is built and initialised, and the
    widget of step "a" completes on a key.  The custom navigation of "a"
    is handed the global data (ID "global", the global store after the
    merge), not the data of step "a" (ID "a", the store that
    [GetCurrentFormData] shows); being written to continue only on its
    own step's data, it ends the flow, and step "b" is never shown. *)
Theorem NextForm_receives_global_data :
  match ownSession with
  | Ok (f2, cmd) =>
      cmd = CmdNil ∧
      GetCurrentFormData f2 =
        {| ID := "a"; Values := Some {[ "own" := Some "1" ]} |} ∧
      last (calls f2) =
        Some (CallNextForm "a"
                {| ID := "global";
                   Values :=
                     Some {[ "own" := Some "1"; "plan" := Some "pro" ]} |}) ∧
      state f2 = StateCompleted ∧
      currentIdx (navigator f2) = 0
  | _ => False
  end.
Proof. vm_compute. repeat split. Qed.

Example Error_of_step_error :
  Error (CupSleeveError "A" (errorString "invalid")) = Some "form 'A': invalid".
Proof. vm_compute. reflexivity. Qed.

Example Error_of_duplicate :
  Error (DuplicateFormIDError "x" 0 1) =
  Some "duplicate form ID 'x' found at indices 0 and 1".
Proof. vm_compute. reflexivity. Qed.

(** * Further properties of the code *)

(** ** The value store, continued *)

Lemma Copy_lookup (fv : FormValues) (k : string) : FV.Copy fv !! k = fv !! k.
Proof.
  change (FV.Copy fv) with (FV.Merge ∅ (Some fv)).
  rewrite Merge_lookup, lookup_empty. by destruct (fv !! k).
Qed.

(** X1.  [Copy] returns a store with exactly the bindings of the
    original: the same keys, each with the same string or the same nil. *)
Theorem Copy_same_bindings (fv : FormValues) :
  FV.Copy fv = fv ∧
  ∀ k : string,
    FV.Get (FV.Copy fv) k = FV.Get fv k ∧ FV.Has (FV.Copy fv) k = FV.Has fv k.
Proof.
  assert (H : FV.Copy fv = fv) by (apply map_eq; intros k; apply Copy_lookup).
  split; [exact H|]. intros k. by rewrite H.
Qed.

(** X2.  Reading back what was written: after [Set] the key is found
    with the value written; after [Delete] it is neither found nor
    present; both leave every other key as it was; deleting an absent key
    changes nothing; a key that [Get] finds is one that [Has] reports;
    and a key bound to nil is reported by [Has] but not found by [Get]. *)
Theorem store_round_trips (fv : FormValues) (k v : string) :
  FV.Get (FV.Set' fv k v) k = (v, true) ∧
  FV.Has (FV.Set' fv k v) k = true ∧
  FV.Get (FV.Delete fv k) k = (EmptyString, false) ∧
  FV.Has (FV.Delete fv k) k = false ∧
  (∀ k' : string, k' ≠ k →
     FV.Get (FV.Set' fv k v) k' = FV.Get fv k' ∧
     FV.Has (FV.Set' fv k v) k' = FV.Has fv k' ∧
     FV.Get (FV.Delete fv k) k' = FV.Get fv k' ∧
     FV.Has (FV.Delete fv k) k' = FV.Has fv k') ∧
  (FV.Has fv k = false → FV.Delete fv k = fv) ∧
  (snd (FV.Get fv k) = true → FV.Has fv k = true) ∧
  (fv !! k = Some None →
     FV.Has fv k = true ∧ FV.Get fv k = (EmptyString, false)).
Proof.
  unfold FV.Get, FV.Has, FV.Set', FV.Delete.
  rewrite lookup_insert_eq, lookup_delete_eq.
  repeat split.
  - by rewrite lookup_insert_ne.
  - by rewrite lookup_insert_ne.
  - by rewrite lookup_delete_ne.
  - by rewrite lookup_delete_ne.
  - intros Habsent. apply delete_id. by destruct (fv !! k).
  - by destruct (fv !! k) as [[s|]|].
  - by rewrite H.
  - by rewrite H.
Qed.

Lemma Has_Merge (A B : FormValues) (k : string) :
  FV.Has (FV.Merge A (Some B)) k = FV.Has A k || FV.Has B k.
Proof.
  unfold FV.Has. rewrite Merge_lookup.
  destruct (B !! k), (A !! k); reflexivity.
Qed.

(** X3.  Merges compose: merging [B] and then [C] into [A] is merging
    into [A] the result of merging [C] into [B]; merging a store into
    itself, or into an empty store, gives that store; and the keys of a
    merge are the keys of either store. *)
Theorem Merge_composes (A B C : FormValues) :
  FV.Merge (FV.Merge A (Some B)) (Some C) =
    FV.Merge A (Some (FV.Merge B (Some C))) ∧
  FV.Merge A (Some A) = A ∧
  FV.Merge ∅ (Some A) = A ∧
  ∀ k : string, FV.Has (FV.Merge A (Some B)) k = FV.Has A k || FV.Has B k.
Proof.
  split; [|split; [|split]].
  - apply map_eq. intros k. rewrite !Merge_lookup.
    by destruct (C !! k), (B !! k).
  - apply map_eq. intros k. rewrite Merge_lookup. by destruct (A !! k).
  - apply map_eq. intros k. rewrite Merge_lookup, lookup_empty.
    by destruct (A !! k).
  - apply Has_Merge.
Qed.

(** ** The navigator, continued *)

Lemma findByID_first (rest : list Form) (i0 : Z) (id : string) :
  match firstIndexOf id rest with
  | Some k =>
      ∃ form, rest !! k = Some form ∧
              findByID rest i0 id = (Some form, i0 + Z.of_nat k, None)
  | None => findByID rest i0 id = (None, -1, Some ErrFormNotFound)
  end.
Proof.
  revert i0. induction rest as [|form rest IH]; intros i0; simpl; [done|].
  destruct (decide (Form_ID form = id)) as [Heq|Hne].
  - exists form. split; [done|].
    by replace (i0 + Z.of_nat 0) with i0 by lia.
  - specialize (IH (i0 + 1)). destruct (firstIndexOf id rest) as [k|]; simpl.
    + destruct IH as (form' & Hk & Hfind). exists form'. split; [done|].
      rewrite Hfind.
      by replace (i0 + Z.of_nat (S k)) with (i0 + 1 + Z.of_nat k) by lia.
    + exact IH.
Qed.

Lemma firstIndexOf_None (id : string) (fs : list Form) :
  (∀ form, form ∈ fs → Form_ID form ≠ id) → firstIndexOf id fs = None.
Proof.
  intros Hall. destruct (firstIndexOf id fs) as [i|] eqn:E; [|done].
  apply firstIndexOf_Some in E as (form & Hi & Hid).
  exfalso. apply (Hall form); [|exact Hid].
  apply list_elem_of_lookup. eauto.
Qed.

Lemma firstIndexOf_exact (id : string) (fs : list Form) (i : nat) (form : Form) :
  fs !! i = Some form → Form_ID form = id →
  (∀ j form', (j < i)%nat → fs !! j = Some form' → Form_ID form' ≠ id) →
  firstIndexOf id fs = Some i.
Proof.
  intros Hi Hid Hbefore.
  destruct (firstIndexOf_le id fs i form Hi Hid) as (i0 & Hfirst & Hle).
  rewrite Hfirst. f_equal.
  destruct (decide (i0 = i)) as [|Hne]; [done|].
  apply firstIndexOf_Some in Hfirst as (form0 & Hi0 & Hid0).
  exfalso. apply (Hbefore i0 form0); [lia|done..].
Qed.

Lemma GetFormByID_found (n : Navigator) (id : string) (i : nat) (form : Form) :
  forms n !! i = Some form → firstIndexOf id (forms n) = Some i →
  GetFormByID n id = (Some form, Z.of_nat i, None).
Proof.
  intros Hi Hfirst. unfold GetFormByID.
  pose proof (findByID_first (forms n) 0 id) as H. rewrite Hfirst in H.
  destruct H as (form' & Hi' & Hfind). rewrite Hfind.
  assert (form' = form) as -> by congruence. reflexivity.
Qed.

(** X4.  [GetFormByID] returns the first form with the ID, with its
    position and no error; when no form has the ID it returns no form,
    the position [-1] and [ErrFormNotFound]. *)
Theorem GetFormByID_spec (n : Navigator) (id : string) :
  ((∀ form, form ∈ forms n → Form_ID form ≠ id) →
     GetFormByID n id = (None, -1, Some ErrFormNotFound)) ∧
  (∀ (i : nat) (form : Form),
     forms n !! i = Some form → Form_ID form = id →
     (∀ j form', (j < i)%nat → forms n !! j = Some form' →
                 Form_ID form' ≠ id) →
     GetFormByID n id = (Some form, Z.of_nat i, None)).
Proof.
  split.
  - intros Hall. unfold GetFormByID.
    pose proof (findByID_first (forms n) 0 id) as H.
    by rewrite (firstIndexOf_None id (forms n) Hall) in H.
  - intros i form Hi Hid Hbefore.
    apply GetFormByID_found; [exact Hi|].
    by eapply firstIndexOf_exact.
Qed.

Lemma join_imap_nil {A B} (g : nat → A → list B) (l : list A) :
  mjoin (imap g l) = [] ↔ ∀ j x, l !! j = Some x → g j x = [].
Proof.
  revert g. induction l as [|x l IH]; intros g.
  - split; [|done]. intros _ j y Hj. by rewrite lookup_nil in Hj.
  - rewrite imap_cons.
    change (mjoin (g 0%nat x :: imap (g ∘ S) l))
      with (g 0%nat x ++ mjoin (imap (g ∘ S) l)).
    rewrite app_nil, IH. split.
    + intros [H0 HS] [|j] y Hj; simpl in Hj.
      * by injection Hj as <-.
      * by apply (HS j).
    + intros H. split; [by apply (H 0%nat)|].
      intros j y Hj. by apply (H (S j)).
Qed.

Lemma bind_nil_iff {A B} (g : A → list B) (l : list A) :
  l ≫= g = [] ↔ Forall (λ x, g x = []) l.
Proof.
  induction l as [|x l IH]; [by split|].
  rewrite bind_cons, app_nil, IH, Forall_cons. done.
Qed.

Lemma idErrorsAt_nil (fs : list Form) (j : nat) (form : Form) :
  idErrorsAt fs j form = [] ↔
  Form_ID form ≠ EmptyString ∧
  ∀ i, firstIndexOf (Form_ID form) fs = Some i → ¬ (i < j)%nat.
Proof.
  unfold idErrorsAt.
  destruct (decide (Form_ID form = EmptyString)) as [Hempty|Hid].
  - split; [done|]. by intros [? _].
  - destruct (firstIndexOf (Form_ID form) fs) as [i0|].
    + destruct (decide (i0 < j)%nat) as [Hlt|Hge].
      * split; [done|]. intros [_ H]. exfalso. by apply (H i0).
      * split; [|done]. intros _. split; [done|]. by intros i [= <-].
    + split; [|done]. intros _. by split.
Qed.

Lemma structuralErrors_nil (fs : list Form) :
  structuralErrors fs = [] ↔
  Forall (λ f, Form_ID f ≠ EmptyString) fs ∧
  NoDup (Form_ID <$> fs) ∧
  Forall (λ f, Generator f ≠ None) fs.
Proof.
  unfold structuralErrors. rewrite app_nil, join_imap_nil, bind_nil_iff.
  assert (Hgen : Forall (λ x, generatorErrors x = []) fs ↔
                 Forall (λ f, Generator f ≠ None) fs).
  { apply Forall_iff. intros form. unfold generatorErrors.
    by destruct (Generator form). }
  rewrite Hgen. clear Hgen.
  split.
  - intros [Hids Hgens]. split; [|split; [|exact Hgens]].
    + apply Forall_lookup. intros j form Hj.
      by apply (idErrorsAt_nil fs j form), Hids.
    + apply NoDup_alt. intros i j id Hi Hj.
      rewrite list_lookup_fmap in Hi, Hj.
      destruct (fs !! i) as [fi|] eqn:Hfi; [|done].
      destruct (fs !! j) as [fj|] eqn:Hfj; [|done].
      simpl in Hi, Hj. injection Hi as Hi. injection Hj as Hj.
      destruct (firstIndexOf_le id fs i fi Hfi Hi) as (i0 & Hfirst & Hle).
      destruct (firstIndexOf_le id fs j fj Hfj Hj) as (j0 & Hfirst' & Hle').
      assert (j0 = i0) as -> by congruence.
      pose proof (proj2 (proj1 (idErrorsAt_nil fs i fi) (Hids i fi Hfi)) i0) as Hi0.
      pose proof (proj2 (proj1 (idErrorsAt_nil fs j fj) (Hids j fj Hfj)) i0) as Hj0.
      rewrite Hi in Hi0. rewrite Hj in Hj0.
      specialize (Hi0 Hfirst). specialize (Hj0 Hfirst). lia.
  - intros (Hne & Hnodup & Hgens). split; [|exact Hgens].
    intros j form Hj. apply idErrorsAt_nil. split.
    + by apply (proj1 (Forall_lookup _ _) Hne j).
    + intros i0 Hfirst Hlt.
      apply firstIndexOf_Some in Hfirst as (form0 & Hi0 & Hid0).
      assert (i0 = j); [|lia].
      apply (proj1 (NoDup_alt _) Hnodup i0 j (Form_ID form));
        rewrite list_lookup_fmap.
      * by rewrite Hi0; simpl; rewrite Hid0.
      * by rewrite Hj.
Qed.

Lemma ValidateNavigation_nil (n : Navigator) :
  ValidateNavigation n = [] ↔
  forms n ≠ [] ∧
  Forall (λ f, Form_ID f ≠ EmptyString) (forms n) ∧
  NoDup (Form_ID <$> forms n) ∧
  Forall (λ f, Generator f ≠ None) (forms n).
Proof.
  destruct (forms n) as [|form fs] eqn:E.
  - unfold ValidateNavigation. rewrite E. split; [done|]. by intros [? _].
  - rewrite ValidateNavigation_structural by (by rewrite E).
    rewrite E, structuralErrors_nil. split; [by intros ?|by intros [_ ?]].
Qed.

(** X5.  [ValidateNavigation] reports nothing exactly when the flow is
    not empty, every form has a non-empty ID, no two forms share an ID,
    and every form has a generator. *)
Theorem ValidateNavigation_passes_iff (n : Navigator) :
  ValidateNavigation n = [] ↔
  forms n ≠ [] ∧
  Forall (λ f, Form_ID f ≠ EmptyString) (forms n) ∧
  NoDup (Form_ID <$> forms n) ∧
  Forall (λ f, Generator f ≠ None) (forms n).
Proof. apply ValidateNavigation_nil. Qed.

(** X6.  In a flow that [ValidateNavigation] accepts, [GetFormByID]
    called with the ID of the form at any position returns that form and
    that position. *)
Theorem validated_forms_found_by_ID (n : Navigator) (j : nat) (form : Form) :
  ValidateNavigation n = [] →
  forms n !! j = Some form →
  GetFormByID n (Form_ID form) = (Some form, Z.of_nat j, None).
Proof.
  intros Hvalid Hj.
  apply ValidateNavigation_nil in Hvalid as (_ & _ & Hnodup & _).
  apply GetFormByID_found; [exact Hj|].
  apply (firstIndexOf_exact _ _ j form Hj eq_refl).
  intros i form' Hlt Hi Hid.
  assert (i = j); [|lia].
  apply (proj1 (NoDup_alt _) Hnodup i j (Form_ID form));
    rewrite list_lookup_fmap.
  - by rewrite Hi; simpl; rewrite Hid.
  - by rewrite Hj.
Qed.

(** X7.  [Back] undoes [MoveTo]: after a successful move from a current
    form, [Back] returns true and the navigator is exactly the one before
    the move.  With an empty history [Back] returns false and changes
    nothing; in particular the first move, made when no form was current,
    cannot be undone. *)
Theorem Back_undoes_MoveTo (n : Navigator) (i : Z) :
  (0 ≤ currentIdx n → snd (MoveTo n i) = None →
     Back (fst (MoveTo n i)) = (n, true)) ∧
  (history n = [] → Back n = (n, false)) ∧
  (currentIdx n < 0 → history n = [] → snd (MoveTo n i) = None →
     Back (fst (MoveTo n i)) = (fst (MoveTo n i), false)).
Proof.
  unfold MoveTo. destruct ((i <? 0) || (i >=? GetFormCount n)); simpl.
  - split; [done|]. split; [|done].
    intros Hh. unfold Back. by rewrite Hh.
  - split; [|split].
    + intros Hcur _. destruct (currentIdx n >=? 0) eqn:E; [|lia].
      unfold Back. simpl. rewrite last_snoc, removelast_last.
      by destruct n.
    + intros Hh. unfold Back. by rewrite Hh.
    + intros Hcur Hh _. destruct (currentIdx n >=? 0) eqn:E; [lia|].
      unfold Back. simpl. by rewrite Hh.
Qed.

Lemma findNextValidForm_is (n : Navigator) (start j : Z) (g : FormData) :
  0 ≤ start → start ≤ j < GetFormCount n →
  skippedAt n g j = false →
  (∀ i, start ≤ i < j → skippedAt n g i = true) →
  fst (findNextValidForm n start g) = (j, None).
Proof.
  intros Hstart Hj Hno Hbefore.
  pose proof (findNextValidForm_first n start g Hstart) as Hfirst.
  cbv zeta in Hfirst.
  destruct (findNextValidForm n start g) as [[r err] cs] eqn:E.
  assert (Herr : err = None).
  { unfold findNextValidForm in E. by injection E as _ <- _. }
  subst err. simpl in *. f_equal.
  destruct Hfirst as [[-> Hall]|(Hr & Hno' & Hbefore')].
  - rewrite (Hall j Hj) in Hno. done.
  - destruct (Z.lt_trichotomy r j) as [Hlt|[Heq|Hgt]]; [|done|].
    + rewrite (Hbefore r) in Hno' by lia. done.
    + rewrite (Hbefore' j) in Hno by lia. done.
Qed.

Lemma findNextValidForm_none (n : Navigator) (start : Z) (g : FormData) :
  0 ≤ start →
  (∀ i, start ≤ i < GetFormCount n → skippedAt n g i = true) →
  fst (findNextValidForm n start g) = (-1, None).
Proof.
  intros Hstart Hall.
  pose proof (findNextValidForm_first n start g Hstart) as Hfirst.
  cbv zeta in Hfirst.
  destruct (findNextValidForm n start g) as [[r err] cs] eqn:E.
  assert (Herr : err = None).
  { unfold findNextValidForm in E. by injection E as _ <- _. }
  subst err. simpl in *. f_equal.
  destruct Hfirst as [[-> _]|(Hr & Hno & _)]; [done|].
  rewrite (Hall r Hr) in Hno. done.
Qed.

Lemma MoveToFirstValid_none (n : Navigator) (g : FormData) :
  (∀ i, 0 ≤ i < GetFormCount n → skippedAt n g i = true) →
  fst (MoveToFirstValid n g) = (n, Some ErrNoValidForms).
Proof.
  intros Hall. unfold MoveToFirstValid.
  by rewrite (findNextValidForm_none n 0 g (Z.le_refl 0) Hall).
Qed.

(** X8.  [MoveToFirstValid] fails with [ErrNoValidForms], leaving the
    navigator as it was, when the default search skips every form (an
    empty flow included); otherwise it makes the first form that is not
    skipped the current one without touching the history. *)
Theorem MoveToFirstValid_spec (n : Navigator) (g : FormData) :
  ((∀ i, 0 ≤ i < GetFormCount n → skippedAt n g i = true) →
     fst (MoveToFirstValid n g) = (n, Some ErrNoValidForms)) ∧
  (∀ r, 0 ≤ r < GetFormCount n → skippedAt n g r = false →
        (∀ i, 0 ≤ i < r → skippedAt n g i = true) →
        fst (MoveToFirstValid n g) =
        ({| forms := forms n; currentIdx := r; history := history n |}, None)).
Proof.
  split; [apply MoveToFirstValid_none|].
  intros r Hr Hno Hbefore. unfold MoveToFirstValid.
  rewrite (findNextValidForm_is n 0 r g (Z.le_refl 0) Hr Hno Hbefore).
  destruct (r =? -1) eqn:E1; [lia|done].
Qed.

(** ** The collector of errors *)

Lemma foldl_Add (errs : list (option error)) (ec : ErrorCollector) :
  Errors (foldl Add ec errs) = Errors ec ++ omap id errs.
Proof.
  revert ec. induction errs as [|[e|] errs IH]; intros ec; simpl.
  - by rewrite app_nil_r.
  - rewrite IH. unfold Errors. simpl. by rewrite <- app_assoc.
  - apply IH.
Qed.

(** X9.  An [ErrorCollector] holds, in the order of the calls, the errors
    that were added, a nil error added being dropped; [AddCupSleeveError]
    does the same with each error wrapped with the form ID; [HasErrors]
    holds exactly when some non-nil error was added; after [Clear] there
    are none. *)
Theorem collector_keeps_order (ec : ErrorCollector)
  (errs : list (option error)) (formID : string) :
  Errors (foldl Add ec errs) = Errors ec ++ omap id errs ∧
  Errors (foldl (λ c e, AddCupSleeveError c formID e) ec errs) =
    Errors ec ++ ((λ e, CupSleeveError formID e) <$> omap id errs) ∧
  (HasErrors (foldl Add NewErrorCollector errs) = true ↔
   ∃ e, Some e ∈ errs) ∧
  HasErrors (Clear (foldl Add ec errs)) = false.
Proof.
  split; [apply foldl_Add|]. split; [|split; [|reflexivity]].
  - revert ec. induction errs as [|[e|] errs IH]; intros ec; simpl.
    + by rewrite app_nil_r.
    + rewrite IH. unfold Errors. simpl. by rewrite <- app_assoc.
    + apply IH.
  - unfold HasErrors. fold (Errors (foldl Add NewErrorCollector errs)).
    rewrite foldl_Add. simpl. split.
    + intros Hpos. destruct (omap id errs) as [|e rest] eqn:E; [done|].
      assert (He : e ∈ omap id errs) by (rewrite E; apply list_elem_of_here).
      apply list_elem_of_omap in He as (oe & Hin & Hoe).
      exists e. simpl in Hoe. by subst oe.
    + intros (e & Hin).
      assert (He : e ∈ omap id errs).
      { apply list_elem_of_omap. by exists (Some e). }
      destruct (omap id errs); [by apply elem_of_nil in He|done].
Qed.

(** ** The builder *)

Lemma foldl_AddForm (fs : list Form) (b : BobaBuilder) :
  builder_forms (foldl AddForm b fs) = builder_forms b ++ fs ∧
  builder_config (foldl AddForm b fs) = builder_config b.
Proof.
  revert b. induction fs as [|form fs IH]; intros b; simpl.
  - by rewrite app_nil_r.
  - destruct (IH (AddForm b form)) as [-> ->]. simpl.
    by rewrite <- app_assoc.
Qed.

(** X10.  A session built from [New] and any number of [AddForm] calls
    holds the forms in the order they were added, in the session and in a
    navigator with no current form and no history; it is [Active], has no
    errors and no widget, and its colour scheme is "default".  For any
    builder the colour scheme of the built session is never empty, the
    one that was set being kept. *)
Theorem Build_of_added_forms (title : string) (fs : list Form) (b : BobaBuilder) :
  let built := Build (foldl AddForm (New title) fs) in
  (boba_forms built = fs ∧
   navigator built = NewNavigator fs ∧
   state built = StateActive ∧
   errors built = [] ∧
   currentForm built = None ∧
   Title (config built) = title ∧
   ColorScheme (config built) = "default") ∧
  ColorScheme (config (Build b)) ≠ EmptyString ∧
  (ColorScheme (builder_config b) ≠ EmptyString →
   config (Build b) = builder_config b).
Proof.
  destruct (foldl_AddForm fs (New title)) as [Hforms Hconfig].
  simpl in Hforms. cbv zeta. split; [|split].
  - unfold Build. rewrite Hforms, Hconfig. by repeat split.
  - unfold Build. simpl. by destruct (decide _).
  - intros Hset. unfold Build. simpl. by destruct (decide _).
Qed.

(** ** The session controller, continued *)

(** The operations of the controller are made of a few updates of the
    session; a relation that holds across each of them holds across the
    operations. *)
Section Operations.

Variable R : Bobarista → Bobarista → Prop.

Hypothesis R_refl : ∀ f, R f f.
Hypothesis R_trans : ∀ f1 f2 f3, R f1 f2 → R f2 f3 → R f1 f3.
Hypothesis R_record : ∀ f cs, R f (record f cs).
Hypothesis R_completed : ∀ f, R f (withState f StateCompleted).
Hypothesis R_error : ∀ f formID err, R f (addError f formID err).
Hypothesis R_cache : ∀ f m, R f (withFormValues f m).
Hypothesis R_widget : ∀ f w, R f (withCurrentForm f w).
Hypothesis R_global_handler : ∀ f g',
  R f (withGlobalData f (Some g')).
Hypothesis R_global_merge : ∀ f g gv v,
  globalData f = Some g → Values g = Some gv →
  R f (withGlobalData f (Some {| ID := ID g; Values := Some v |})).
Hypothesis R_global_finish : ∀ f v,
  R f (withGlobalData f
         (option_map (λ d, writeValues d v) (globalData f))).
Hypothesis R_global_init : ∀ f,
  R f (withGlobalData f (Some (GetGlobalData f))).
Hypothesis R_global_onInit : ∀ f v,
  R f (withGlobalData f (Some (writeValues (GetGlobalData f) v))).
Hypothesis R_move : ∀ f i nav',
  MoveTo (navigator f) i = (nav', None) → R f (withNavigator f nav').
Hypothesis R_first : ∀ f g nav',
  fst (MoveToFirstValid (navigator f) g) = (nav', None) →
  R f (withNavigator f nav').

(** [R] across a chain of updates. *)
Local Ltac updates :=
  repeat first
    [ apply R_refl
    | eapply R_trans;
      [|first [ apply R_record | apply R_completed | apply R_error
              | apply R_cache | apply R_widget
              | apply R_global_finish | apply R_global_init ]] ].

Lemma generateForm_R f current v f' cmd :
  generateForm f current v = Ok (f', cmd) → R f f'.
Proof.
  unfold generateForm. intros H.
  destruct (Generator current) as [gen|].
  - apply bind_Ok in H as (g & Hg & H).
    destruct (gen v (Values g)); injection H as <- <-; updates.
  - injection H as <- <-. updates.
Qed.

Lemma initCurrentForm_R fuel f f' cmd :
  initCurrentForm fuel f = Ok (f', cmd) → R f f'.
Proof.
  revert f f' cmd. induction fuel as [|fuel IH]; intros f f' cmd H; [done|].
  cbn [initCurrentForm] in H.
  destruct (Current (navigator f)) as [current|].
  2: { injection H as <- <-. updates. }
  cbv zeta in H.
  apply bind_Ok in H as ([] & _ & H).
  destruct (ShouldSkip current) as [skip|].
  2: { eapply R_trans; [|eapply generateForm_R; exact H]. updates. }
  apply bind_Ok in H as (g & Hg & H).
  destruct (skip _ g).
  2: { eapply R_trans; [|eapply generateForm_R; exact H]. updates. }
  match type of H with
  | context [fst (Next ?n g)] =>
      destruct (fst (Next n g)) as [nextIndex [err|]]
  end.
  { injection H as <- <-. updates. }
  destruct ((nextIndex =? -1) || (nextIndex =? -2)).
  { injection H as <- <-. updates. }
  match type of H with
  | context [MoveTo ?n nextIndex] =>
      destruct (MoveTo n nextIndex) as [nav' [err|]] eqn:Hmove
  end.
  { injection H as <- <-. updates. }
  eapply R_trans; [|eapply IH; exact H].
  eapply R_trans; [|eapply R_move; exact Hmove]. updates.
Qed.

Lemma runOnComplete_R f current f1 currentData err :
  runOnComplete f current = Ok (f1, currentData, err) → R f f1.
Proof.
  unfold runOnComplete. intros H.
  apply bind_Ok in H as ([] & _ & H).
  destruct (OnComplete current) as [handler|].
  - apply bind_Ok in H as (g & Hg & H). apply deref_Ok in Hg.
    injection H as <- _ _.
    eapply R_trans; [|apply R_cache].
    eapply R_trans; [|apply R_global_handler]. updates.
  - injection H as <- _ _. updates.
Qed.

Lemma mergeIntoGlobal_R f currentData f2 :
  mergeIntoGlobal f currentData = Ok f2 → R f f2.
Proof.
  unfold mergeIntoGlobal. intros H.
  apply bind_Ok in H as ([] & _ & H).
  apply bind_Ok in H as ([] & _ & H).
  apply bind_Ok in H as (g & Hg & H).
  apply bind_Ok in H as (gv & Hgv & H).
  apply deref_Ok in Hg. apply deref_Ok in Hgv.
  injection H as <-. by apply (R_global_merge f g gv).
Qed.

Lemma navigateAfter_R fuel f current f' cmd :
  navigateAfter fuel f current = Ok (f', cmd) → R f f'.
Proof.
  unfold navigateAfter. intros H.
  apply bind_Ok in H as (g & Hg & H). cbv zeta in H.
  destruct (fst (Next (navigator f) g)) as [nextIndex [err|]].
  { injection H as <- <-. updates. }
  destruct (nextIndex =? -2).
  { injection H as <- <-. updates. }
  destruct (nextIndex =? -1).
  { injection H as <- <-. updates. }
  match type of H with
  | context [MoveTo ?n nextIndex] =>
      destruct (MoveTo n nextIndex) as [nav' [err|]] eqn:Hmove
  end.
  { injection H as <- <-. updates. }
  eapply R_trans; [|eapply initCurrentForm_R; exact H].
  eapply R_trans; [|eapply R_move; exact Hmove]. updates.
Qed.

Lemma handleFormCompletion_R fuel f f' cmd :
  handleFormCompletion fuel f = Ok (f', cmd) → R f f'.
Proof.
  unfold handleFormCompletion. intros H.
  destruct (Current (navigator f)) as [current|].
  2: { injection H as <- <-. updates. }
  apply bind_Ok in H as ([[f1 currentData] err] & Hrun & H).
  apply runOnComplete_R in Hrun.
  destruct err as [err|].
  { injection H as <- <-. eapply R_trans; [exact Hrun|]. updates. }
  apply bind_Ok in H as (f2 & Hmerge & H).
  apply mergeIntoGlobal_R in Hmerge. apply navigateAfter_R in H.
  eapply R_trans; [exact Hrun|]. eapply R_trans; [exact Hmerge|exact H].
Qed.

Lemma updateCurrentForm_R fuel f msg f' cmd :
  updateCurrentForm fuel f msg = Ok (f', cmd) → R f f'.
Proof.
  unfold updateCurrentForm. intros H.
  destruct (currentForm f) as [w|].
  2: { injection H as <- <-. updates. }
  cbv zeta in H.
  destruct (huhStateCompleted (huhUpdate w msg)).
  - eapply R_trans; [|eapply handleFormCompletion_R; exact H]. updates.
  - injection H as <- <-. updates.
Qed.

Lemma handleCompletedState_R f key :
  R f (fst (handleCompletedState f key)).
Proof.
  unfold handleCompletedState.
  repeat (destruct (decide _); [apply R_refl|]).
  destruct (decide _); [|apply R_refl].
  destruct (state f); try apply R_refl.
  destruct (RecipeOnComplete (config f)) as [onComplete|]; [|apply R_refl].
  cbv zeta. destruct (snd _); simpl.
  - eapply R_trans; [|apply R_error].
    eapply R_trans; [|apply (R_global_finish (record f _))]. apply R_record.
  - eapply R_trans; [|apply (R_global_finish (record f _))]. apply R_record.
Qed.

Lemma forwardIfActive_R fuel f msg f' cmd :
  forwardIfActive fuel f msg = Ok (f', cmd) → R f f'.
Proof.
  unfold forwardIfActive. intros H.
  destruct (state f), (currentForm f);
    try (injection H as <- <-; apply R_refl).
  by eapply updateCurrentForm_R.
Qed.

Lemma Update_R fuel f msg f' cmd :
  Update fuel f msg = Ok (f', cmd) → R f f'.
Proof.
  unfold Update. intros H. destruct msg as [w h|key|].
  - destruct (currentForm f) as [wdg|].
    + injection H as <- <-. updates.
    + by eapply forwardIfActive_R.
  - destruct (state f) eqn:Hstate.
    + destruct (decide _); [injection H as <- <-; apply R_refl|].
      destruct (decide _); [injection H as <- <-; apply R_refl|].
      by eapply forwardIfActive_R.
    + pose proof (handleCompletedState_R f key) as K.
      injection H as H. rewrite H in K. exact K.
    + pose proof (handleCompletedState_R f key) as K.
      injection H as H. rewrite H in K. exact K.
  - by eapply forwardIfActive_R.
Qed.

Lemma initStores_R f : R f (initStores f).
Proof. unfold initStores. updates. Qed.

Lemma callOnInit_R f : R f (callOnInit f).
Proof.
  unfold callOnInit. destruct (OnInit (config f)) as [onInit|];
    [|apply R_refl].
  cbv zeta. eapply R_trans; [apply R_record|].
  apply (R_global_onInit (record f _)).
Qed.

Lemma Init_R fuel f f' cmd :
  Init fuel f = Ok (f', cmd) → R f f'.
Proof.
  unfold Init. intros H.
  eapply R_trans; [apply initStores_R|].
  eapply R_trans; [apply callOnInit_R|].
  set (f1 := callOnInit (initStores f)) in *. cbv zeta in H.
  apply bind_Ok in H as (g & Hg & H).
  destruct (fst (MoveToFirstValid (navigator f1) g)) as [nav' [err|]]
    eqn:Hfirst.
  { injection H as <- <-. updates. }
  eapply R_trans; [|eapply initCurrentForm_R; exact H].
  eapply R_trans; [|eapply (R_first _ g); exact Hfirst]. updates.
Qed.

Lemma step_R f f' : step f f' → R f f'.
Proof.
  intros H. destruct H.
  - by eapply Init_R.
  - by eapply Update_R.
  - apply handleCompletedState_R.
  - by eapply updateCurrentForm_R.
  - by eapply handleFormCompletion_R.
  - by eapply initCurrentForm_R.
  - apply R_error.
Qed.

Lemma reachable_R f0 f : reachable f0 f → R f0 f.
Proof.
  induction 1 as [|f f' _ IH Hstep]; [apply R_refl|].
  eapply R_trans; [exact IH|by apply step_R].
Qed.

End Operations.

(** *** The flow, the error list and the global data across operations *)

Lemma extends_fields (f f' : Bobarista) :
  config f' = config f → boba_forms f' = boba_forms f →
  navigator f' = navigator f → errors f' = errors f → state f' = state f →
  (∃ new, calls f' = calls f ++ new) → extends f f'.
Proof.
  intros Hc Hb Hn He Hs Hcalls. unfold extends, errorsExplainError.
  rewrite Hc, Hb, Hn, He, Hs.
  split_and!; try done. exists []. by rewrite app_nil_r.
Qed.

Lemma same_list {A} (l : list A) : ∃ new, l = l ++ new.
Proof. exists []. by rewrite app_nil_r. Qed.

Lemma extends_refl : ∀ f, extends f f.
Proof. intros f. apply extends_fields; try done. apply same_list. Qed.

Lemma extends_trans : ∀ f1 f2 f3, extends f1 f2 → extends f2 f3 → extends f1 f3.
Proof.
  intros f1 f2 f3 (Hc & Hb & Hf & [e Herr] & [c Hcalls] & Hnav & Hexp)
    (Hc' & Hb' & Hf' & [e' Herr'] & [c' Hcalls'] & Hnav' & Hexp').
  unfold extends. split_and!.
  - congruence.
  - congruence.
  - congruence.
  - exists (e ++ e'). by rewrite Herr', Herr, <- app_assoc.
  - exists (c ++ c'). by rewrite Hcalls', Hcalls, <- app_assoc.
  - intros H. by apply Hnav', Hnav.
  - intros H. by apply Hexp', Hexp.
Qed.

Lemma extends_record : ∀ f cs, extends f (record f cs).
Proof. intros f cs. apply extends_fields; try done. by exists cs. Qed.

Lemma extends_completed : ∀ f, extends f (withState f StateCompleted).
Proof.
  intros f. unfold extends, errorsExplainError. simpl.
  split_and!; try done; apply same_list.
Qed.

Lemma extends_error : ∀ f formID err, extends f (addError f formID err).
Proof.
  intros f formID err. unfold extends, errorsExplainError. simpl.
  split_and!; try done.
  - eexists. reflexivity.
  - apply same_list.
  - intros _ _ Hnil. by apply app_nil in Hnil as [_ ?].
Qed.

Lemma extends_cache : ∀ f m, extends f (withFormValues f m).
Proof. intros f m. apply extends_fields; try done. apply same_list. Qed.

Lemma extends_widget : ∀ f w, extends f (withCurrentForm f w).
Proof. intros f w. apply extends_fields; try done. apply same_list. Qed.

Lemma extends_global : ∀ f g, extends f (withGlobalData f g).
Proof. intros f g. apply extends_fields; try done. apply same_list. Qed.

Lemma extends_navigator (f : Bobarista) (op : NavOp) :
  extends f (withNavigator f (applyOp (navigator f) op)).
Proof.
  unfold extends, errorsExplainError. simpl.
  split_and!; try done; try apply same_list.
  - apply applyOp_forms.
  - apply applyOp_OK.
Qed.

Lemma extends_move : ∀ f i nav',
  MoveTo (navigator f) i = (nav', None) → extends f (withNavigator f nav').
Proof.
  intros f i nav' Hmove.
  pose proof (extends_navigator f (OpMoveTo i)) as H. simpl in H.
  by rewrite Hmove in H.
Qed.

Lemma extends_first : ∀ f g nav',
  fst (MoveToFirstValid (navigator f) g) = (nav', None) →
  extends f (withNavigator f nav').
Proof.
  intros f g nav' Hfirst.
  pose proof (extends_navigator f (OpMoveToFirstValid g)) as H. simpl in H.
  by rewrite Hfirst in H.
Qed.

Lemma reachable_extends (f0 f : Bobarista) : reachable f0 f → extends f0 f.
Proof.
  apply (reachable_R extends);
    first [ exact extends_refl | exact extends_trans | exact extends_record
          | exact extends_completed | exact extends_error | exact extends_cache
          | exact extends_widget | exact extends_move | exact extends_first
          | intros; apply extends_global ].
Qed.

Lemma step_extends (f f' : Bobarista) : step f f' → extends f f'.
Proof.
  intros Hstep. apply reachable_extends.
  eapply reachable_step; [apply reachable_start|exact Hstep].
Qed.

(** X11.  The error list is only ever appended to: every operation of
    the controller that returns leaves the earlier entries in place, and
    so does any number of them; and a session reached from [Build] that
    is in [Error] state has at least one recorded error. *)
Theorem errors_are_append_only :
  (∀ f f', step f f' → ∃ new, errors f' = errors f ++ new) ∧
  (∀ f f', reachable f f' → ∃ new, errors f' = errors f ++ new) ∧
  (∀ b f, reachable (Build b) f → state f = StateError → errors f ≠ []).
Proof.
  split; [|split].
  - intros f f' Hstep. by destruct (step_extends f f' Hstep) as (_ & _ & _ & ? & _).
  - intros f f' Hreach.
    by destruct (reachable_extends f f' Hreach) as (_ & _ & _ & ? & _).
  - intros b f Hreach.
    destruct (reachable_extends _ f Hreach) as (_ & _ & _ & _ & _ & _ & Hexp).
    apply Hexp. intros Hstate. discriminate Hstate.
Qed.

(** X12.  In every session reached from [Build] the recipe and the flow
    are the ones that were built: the session and its navigator hold the
    builder's forms, the current index is [-1] or a position in the flow,
    and every history entry is a position in the flow. *)
Theorem flow_is_fixed (b : BobaBuilder) (f : Bobarista) :
  reachable (Build b) f →
  let N := Z.of_nat (length (builder_forms b)) in
  config f = config (Build b) ∧
  boba_forms f = builder_forms b ∧
  forms (navigator f) = builder_forms b ∧
  (currentIdx (navigator f) = -1 ∨ 0 ≤ currentIdx (navigator f) < N) ∧
  Forall (λ h, 0 ≤ h < N) (history (navigator f)).
Proof.
  intros Hreach N.
  destruct (reachable_extends _ f Hreach) as (Hc & Hb & Hf & _ & _ & Hnav & _).
  destruct (Hnav (NewNavigator_OK (builder_forms b))) as [Hcur Hhist].
  simpl in Hb, Hf. unfold inRange, GetFormCount in *. rewrite Hf in *.
  by repeat split.
Qed.

(** *** The global store after a completion *)

Lemma Ok_bind {A B} (a : A) (k : A → Res B) : Ok a ≫= k = k a.
Proof. reflexivity. Qed.


(** *** Flows without custom navigation never hang *)

Lemma bind_ends {A B} (m : Res A) (k : A → Res B) :
  m ≠ OutOfFuel → (∀ a, m = Ok a → k a ≠ OutOfFuel) → m ≫= k ≠ OutOfFuel.
Proof. destruct m as [a| |]; simpl; [by eauto|done|done]. Qed.

Lemma deref_ends {A} (p : option A) : deref p ≠ OutOfFuel.
Proof. by destruct p. Qed.

Lemma debugDump_ends (f : Bobarista) : debugDump f ≠ OutOfFuel.
Proof.
  unfold debugDump. destruct (Debug (config f)); [|done].
  apply bind_ends; [apply deref_ends|]. intros g _.
  apply bind_ends; [apply deref_ends|done].
Qed.

Lemma runOnComplete_ends f current : runOnComplete f current ≠ OutOfFuel.
Proof.
  unfold runOnComplete.
  apply bind_ends; [apply debugDump_ends|]. intros [] _.
  destruct (OnComplete current) as [handler|]; [|done].
  apply bind_ends; [apply deref_ends|done].
Qed.

Lemma mergeIntoGlobal_ends f currentData :
  mergeIntoGlobal f currentData ≠ OutOfFuel.
Proof.
  unfold mergeIntoGlobal.
  apply bind_ends.
  { unfold debugDumpStep. destruct (Debug (config f)); [|done].
    apply bind_ends; [apply deref_ends|done]. }
  intros [] _. apply bind_ends; [apply debugDump_ends|]. intros [] _.
  apply bind_ends; [apply deref_ends|]. intros g _.
  apply bind_ends; [apply deref_ends|done].
Qed.

Lemma generateForm_ends f current v : generateForm f current v ≠ OutOfFuel.
Proof.
  unfold generateForm. destruct (Generator current) as [gen|]; [|done].
  apply bind_ends; [apply deref_ends|]. intros g _. cbv zeta.
  by destruct (gen v (Values g)).
Qed.

Lemma MoveTo_in_range (n : Navigator) (r : Z) :
  0 ≤ r < GetFormCount n →
  ∃ nav', MoveTo n r = (nav', None) ∧ forms nav' = forms n ∧
          currentIdx nav' = r.
Proof.
  intros Hr. unfold MoveTo.
  destruct (r <? 0) eqn:Hlo; [lia|].
  destruct (r >=? GetFormCount n) eqn:Hhi; [lia|]. simpl.
  by eexists.
Qed.

Lemma Next_without_custom (n : Navigator) (g : FormData) (current : Form) :
  Current n = Some current → NextForm current = None →
  snd (fst (Next n g)) = None ∧
  (fst (fst (Next n g)) = -1 ∨
   currentIdx n + 1 ≤ fst (fst (Next n g)) < GetFormCount n).
Proof.
  intros Hcur Hnext. unfold Next. rewrite Hcur, Hnext.
  split; [reflexivity|].
  apply Current_Some_range in Hcur as [Hrange _].
  destruct (findNextValidForm_first n (currentIdx n + 1) g) as [[H _]|[H _]];
    [lia|by left|by right].
Qed.

Lemma initCurrentForm_ends (fuel : nat) (f : Bobarista) :
  (0 < fuel)%nat →
  (Current (navigator f) = None ∨
   GetFormCount (navigator f) - currentIdx (navigator f) < Z.of_nat fuel) →
  sequentialFlow (forms (navigator f)) →
  initCurrentForm fuel f ≠ OutOfFuel.
Proof.
  revert f. induction fuel as [|fuel IH]; intros f Hpos Hmeasure Hnone; [lia|].
  cbn [initCurrentForm].
  destruct (Current (navigator f)) as [current|] eqn:Hcur; [|done].
  destruct Hmeasure as [|Hmeasure]; [done|].
  pose proof (Current_Some_range _ _ Hcur) as [Hrange Hlookup].
  assert (Hnext : NextForm current = None).
  { apply Hnone. apply list_elem_of_lookup. eauto. }
  cbv zeta.
  apply bind_ends; [apply debugDump_ends|]. intros [] _.
  destruct (ShouldSkip current) as [skip|]; [|apply generateForm_ends].
  apply bind_ends; [apply deref_ends|]. intros g _.
  destruct (skip _ g); [|apply generateForm_ends].
  cbv zeta. simpl navigator.
  destruct (Next_without_custom (navigator f) g current Hcur Hnext)
    as [Herr Hres].
  destruct (fst (Next (navigator f) g)) as [r err]. simpl in Herr, Hres.
  subst err.
  destruct Hres as [->|Hr]; [done|].
  destruct ((r =? -1) || (r =? -2)) eqn:E; [lia|].
  destruct (MoveTo_in_range (navigator f) r) as (nav' & Hmove & Hforms & Hidx);
    [lia|].
  rewrite Hmove.
  apply IH.
  - lia.
  - right. simpl. unfold GetFormCount in *. rewrite Hforms, Hidx. lia.
  - simpl. by rewrite Hforms.
Qed.

Lemma navigateAfter_ends (fuel : nat) (f : Bobarista) (current : Form) :
  (length (forms (navigator f)) ≤ fuel)%nat →
  Current (navigator f) = Some current →
  sequentialFlow (forms (navigator f)) →
  navigateAfter fuel f current ≠ OutOfFuel.
Proof.
  intros Hfuel Hcur Hnone. unfold navigateAfter.
  apply bind_ends; [apply deref_ends|]. intros g _. cbv zeta.
  pose proof (Current_Some_range _ _ Hcur) as [Hrange Hlookup].
  assert (Hnext : NextForm current = None).
  { apply Hnone. apply list_elem_of_lookup. eauto. }
  destruct (Next_without_custom (navigator f) g current Hcur Hnext)
    as [Herr Hres].
  destruct (fst (Next (navigator f) g)) as [r err]. simpl in Herr, Hres.
  subst err.
  destruct Hres as [->|Hr]; [done|].
  destruct (r =? -2) eqn:E2; [lia|]. destruct (r =? -1) eqn:E1; [lia|].
  simpl navigator.
  destruct (MoveTo_in_range (navigator f) r) as (nav' & Hmove & Hforms & Hidx);
    [lia|].
  rewrite Hmove.
  apply initCurrentForm_ends.
  - unfold GetFormCount in *. lia.
  - right. simpl. unfold GetFormCount in *. rewrite Hforms, Hidx. lia.
  - simpl. unfold sequentialFlow in *. by rewrite Hforms.
Qed.

Lemma handleFormCompletion_ends (fuel : nat) (f : Bobarista) :
  (length (forms (navigator f)) ≤ fuel)%nat →
  sequentialFlow (forms (navigator f)) →
  handleFormCompletion fuel f ≠ OutOfFuel.
Proof.
  intros Hfuel Hnone. unfold handleFormCompletion.
  destruct (Current (navigator f)) as [current|] eqn:Hcur; [|done].
  destruct (runOnComplete f current) as [[[f1 currentData] err]| |] eqn:Hrun;
    [|done|by apply runOnComplete_ends in Hrun].
  destruct (runOnComplete_frame _ _ _ _ _ Hrun) as (Hnav1 & _).
  simpl. destruct err as [err|]; [done|].
  destruct (mergeIntoGlobal f1 currentData) as [f2| |] eqn:Hmerge;
    [|done|by apply mergeIntoGlobal_ends in Hmerge].
  destruct (mergeIntoGlobal_frame _ _ _ Hmerge) as (Hnav2 & _).
  simpl. apply navigateAfter_ends; rewrite Hnav2, Hnav1; done.
Qed.

Lemma Update_ends (fuel : nat) (f : Bobarista) (msg : Msg) :
  (length (forms (navigator f)) ≤ fuel)%nat →
  sequentialFlow (forms (navigator f)) →
  Update fuel f msg ≠ OutOfFuel.
Proof.
  intros Hfuel Hnone.
  assert (Hforward : forwardIfActive fuel f msg ≠ OutOfFuel).
  { unfold forwardIfActive.
    destruct (state f); try done.
    destruct (currentForm f) as [w|] eqn:Hw; [|done].
    unfold updateCurrentForm. rewrite Hw. cbv zeta.
    destruct (huhStateCompleted (huhUpdate w msg)); [|done].
    by apply handleFormCompletion_ends. }
  unfold Update. destruct msg as [w h|key|]; [| |exact Hforward].
  - destruct (currentForm f); [done|exact Hforward].
  - destruct (state f); [|done..].
    repeat (destruct (decide _); [done|]). exact Hforward.
Qed.

Lemma callOnInit_navigator (f : Bobarista) :
  navigator (callOnInit (initStores f)) = navigator f.
Proof. unfold callOnInit. by destruct (OnInit _). Qed.

Lemma Init_ends (fuel : nat) (f : Bobarista) :
  (length (forms (navigator f)) < fuel)%nat →
  sequentialFlow (forms (navigator f)) →
  Init fuel f ≠ OutOfFuel.
Proof.
  intros Hfuel Hnone. unfold Init.
  pose proof (callOnInit_navigator f) as Hnav.
  set (f1 := callOnInit (initStores f)) in *.
  apply bind_ends; [apply deref_ends|]. intros g _. cbv zeta. rewrite Hnav.
  pose proof (findNextValidForm_range (navigator f) g) as Hrange.
  unfold MoveToFirstValid.
  destruct (findNextValidForm (navigator f) 0 g) as [[r err] cs] eqn:E.
  assert (Herr : err = None).
  { unfold findNextValidForm in E. by injection E as _ <- _. }
  subst err. simpl in Hrange. simpl.
  destruct (r =? -1) eqn:E1; [done|].
  destruct Hrange as [->|Hr]; [done|].
  apply initCurrentForm_ends.
  - lia.
  - right. unfold inRange, GetFormCount in *. simpl. lia.
  - exact Hnone.
Qed.

(** X14.  A flow in which no form has a custom-navigation function never
    hangs: in every session with such a flow, whatever its state, [Init]
    and [Update] come to an end for every message, returning or
    panicking, within a recursion depth of [initCurrentForm] of one more
    than the number of forms. *)
Theorem sequential_flow_never_hangs (f : Bobarista) (fuel : nat) (msg : Msg) :
  sequentialFlow (forms (navigator f)) →
  (length (forms (navigator f)) < fuel)%nat →
  Init fuel f ≠ OutOfFuel ∧ Update fuel f msg ≠ OutOfFuel.
Proof.
  intros Hnone Hfuel. split.
  - by apply Init_ends.
  - apply Update_ends; [lia|done].
Qed.

(** *** A step that skips to itself *)

Lemma Current_same (n n' : Navigator) :
  forms n' = forms n → currentIdx n' = currentIdx n → Current n' = Current n.
Proof. intros Hf Hi. unfold Current, GetFormCount. by rewrite Hf, Hi. Qed.

(** X15.  [initCurrentForm] never returns when the current step is
    skipped and its custom navigation names the step itself: whatever
    the recursion depth allowed, the depth is exhausted. *)
Theorem self_jump_never_returns (fuel : nat) (f : Bobarista) (current : Form)
  (skip : SkipCondition) (nextForm : NavigationHandler)
  (g : FormData) (gv : FormValues) :
  Current (navigator f) = Some current →
  ShouldSkip current = Some skip →
  NextForm current = Some nextForm →
  globalData f = Some g →
  Values g = Some gv →
  (∀ d, skip d g = true) →
  nextForm g = currentIdx (navigator f) →
  initCurrentForm fuel f = OutOfFuel.
Proof.
  revert f. induction fuel as [|fuel IH];
    intros f Hcur Hskip Hnext Hg Hgv Halways Hself; [reflexivity|].
  cbn [initCurrentForm]. rewrite Hcur. cbv zeta.
  match goal with
  | |- context [debugDump ?f0] =>
      rewrite (debugDump_Ok f0 g gv Hg Hgv), Ok_bind
  end.
  rewrite Hskip. simpl globalData. rewrite Hg. simpl deref. rewrite Ok_bind.
  rewrite Halways. cbv zeta. simpl navigator.
  pose proof (Current_Some_range _ _ Hcur) as [Hrange _].
  assert (HN : Next (navigator f) g =
               ((currentIdx (navigator f), None),
                [CallNextForm (Form_ID current) g])).
  { rewrite <- Hself.
    apply (proj2 (Next_custom_navigation _ g current nextForm Hcur Hnext)).
    lia. }
  rewrite HN. cbn [fst snd].
  destruct (currentIdx (navigator f) =? -1) eqn:E1; [lia|].
  destruct (currentIdx (navigator f) =? -2) eqn:E2; [lia|].
  cbn [orb].
  destruct (MoveTo_in_range (navigator f) (currentIdx (navigator f)) Hrange)
    as (nav' & Hmove & Hforms & Hidx).
  rewrite Hmove.
  apply IH; simpl.
  - rewrite <- Hcur. by apply Current_same.
  - exact Hskip.
  - exact Hnext.
  - exact Hg.
  - exact Hgv.
  - exact Halways.
  - by rewrite Hidx.
Qed.

(** *** An active session shows a step *)

Lemma generateForm_active f current v f' cmd :
  generateForm f current v = Ok (f', cmd) → state f' = StateActive →
  navigator f' = navigator f ∧ formValues f' = formValues f ∧
  is_Some (currentForm f') ∧ cmd = WidgetCmd.
Proof.
  unfold generateForm. intros H Hactive.
  destruct (Generator current) as [gen|].
  - apply bind_Ok in H as (g & Hg & H).
    destruct (gen v (Values g)) as [w|]; injection H as <- <-.
    + by repeat split.
    + discriminate Hactive.
  - injection H as <- <-. discriminate Hactive.
Qed.

Lemma initCurrentForm_active fuel f f' cmd :
  initCurrentForm fuel f = Ok (f', cmd) → state f' = StateActive →
  showing f' ∧ cmd = WidgetCmd.
Proof.
  revert f f' cmd. induction fuel as [|fuel IH]; intros f f' cmd H Hactive;
    [done|].
  cbn [initCurrentForm] in H.
  destruct (Current (navigator f)) as [current|] eqn:Hcur.
  2: { injection H as <- <-. discriminate Hactive. }
  cbv zeta in H.
  apply bind_Ok in H as ([] & _ & H).
  set (cache := match default ∅ (formValues f) !! Form_ID current with
                | Some _ => default ∅ (formValues f)
                | None => <[Form_ID current:=NewFormValues]>
                            (default ∅ (formValues f))
                end) in *.
  assert (Hcached : is_Some (cache !! Form_ID current)).
  { subst cache.
    destruct (default ∅ (formValues f) !! Form_ID current) eqn:E.
    - by rewrite E.
    - by rewrite lookup_insert_eq. }
  assert (Hshown : ∀ f0 v,
    navigator f0 = navigator f → formValues f0 = Some cache →
    generateForm f0 current v = Ok (f', cmd) → showing f' ∧ cmd = WidgetCmd).
  { intros f0 v Hnav Hfv Hgen.
    destruct (generateForm_active _ _ _ _ _ Hgen Hactive)
      as (Hnav' & Hfv' & [w Hw] & Hcmd).
    split; [|exact Hcmd]. exists current, w. split; [congruence|].
    split; [exact Hw|]. unfold storedValues. by rewrite Hfv', Hfv. }
  destruct (ShouldSkip current) as [skip|].
  2: { eapply Hshown; [..|exact H]; reflexivity. }
  apply bind_Ok in H as (g & Hg & H).
  destruct (skip _ g).
  2: { eapply Hshown; [..|exact H]; reflexivity. }
  match type of H with
  | context [fst (Next ?n g)] =>
      destruct (fst (Next n g)) as [nextIndex [err|]]
  end.
  { injection H as <- <-. discriminate Hactive. }
  destruct ((nextIndex =? -1) || (nextIndex =? -2)).
  { injection H as <- <-. discriminate Hactive. }
  match type of H with
  | context [MoveTo ?n nextIndex] =>
      destruct (MoveTo n nextIndex) as [nav' [err|]]
  end.
  { injection H as <- <-. discriminate Hactive. }
  by eapply IH.
Qed.

Lemma navigateAfter_active fuel f current f' cmd :
  navigateAfter fuel f current = Ok (f', cmd) → state f' = StateActive →
  showing f'.
Proof.
  unfold navigateAfter. intros H Hactive.
  apply bind_Ok in H as (g & Hg & H). cbv zeta in H.
  destruct (fst (Next (navigator f) g)) as [nextIndex [err|]].
  { injection H as <- <-. discriminate Hactive. }
  destruct (nextIndex =? -2).
  { injection H as <- <-. discriminate Hactive. }
  destruct (nextIndex =? -1).
  { injection H as <- <-. discriminate Hactive. }
  match type of H with
  | context [MoveTo ?n nextIndex] =>
      destruct (MoveTo n nextIndex) as [nav' [err|]]
  end.
  { injection H as <- <-. discriminate Hactive. }
  by eapply initCurrentForm_active.
Qed.

Lemma handleFormCompletion_active fuel f f' cmd :
  handleFormCompletion fuel f = Ok (f', cmd) → state f' = StateActive →
  showing f'.
Proof.
  unfold handleFormCompletion. intros H Hactive.
  destruct (Current (navigator f)) as [current|].
  2: { injection H as <- <-. discriminate Hactive. }
  apply bind_Ok in H as ([[f1 currentData] err] & Hrun & H).
  destruct err as [err|].
  { injection H as <- <-. discriminate Hactive. }
  apply bind_Ok in H as (f2 & Hmerge & H).
  by eapply navigateAfter_active.
Qed.

Lemma updateCurrentForm_showing fuel f msg f' cmd :
  updateCurrentForm fuel f msg = Ok (f', cmd) →
  activeIsShowing f → activeIsShowing f'.
Proof.
  unfold updateCurrentForm. intros H Hinv.
  destruct (currentForm f) as [w|] eqn:Hw.
  2: { by injection H as <- <-. }
  cbv zeta in H. destruct (huhStateCompleted (huhUpdate w msg)).
  - intros Hactive. right. by eapply handleFormCompletion_active.
  - injection H as <- <-. intros Hactive. right.
    destruct (Hinv Hactive) as [[_ Hnone]|(current & w0 & Hcur & _ & Hstored)];
      [congruence|].
    by exists current, (huhUpdate w msg).
Qed.

Lemma handleCompletedState_showing f key :
  activeIsShowing f → activeIsShowing (fst (handleCompletedState f key)).
Proof.
  intros Hinv.
  destruct (decide (state f = StateActive)) as [Hactive|Hterminal].
  - assert (Hsame : fst (handleCompletedState f key) = f); [|by rewrite Hsame].
    unfold handleCompletedState. rewrite Hactive.
    by repeat destruct (decide _).
  - intros Hactive. exfalso.
    destruct (handleCompletedState_keeps f key) as [[Hs|[Hs|Hs]] _];
      congruence.
Qed.

Lemma forwardIfActive_showing fuel f msg f' cmd :
  forwardIfActive fuel f msg = Ok (f', cmd) →
  activeIsShowing f → activeIsShowing f'.
Proof.
  unfold forwardIfActive. intros H.
  destruct (state f), (currentForm f);
    try (by injection H as <- <-).
  by eapply updateCurrentForm_showing.
Qed.

Lemma Update_showing fuel f msg f' cmd :
  Update fuel f msg = Ok (f', cmd) →
  activeIsShowing f → activeIsShowing f'.
Proof.
  unfold Update. intros H. destruct msg as [w h|key|].
  - destruct (currentForm f) as [wdg|] eqn:Hw.
    + injection H as <- <-. intros Hinv Hactive. right.
      destruct (Hinv Hactive) as [[_ Hnone]|(current & w0 & Hcur & _ & Hstored)];
        [congruence|].
      by exists current, (huhUpdate wdg (WindowSizeMsg w h)).
    + by eapply forwardIfActive_showing.
  - destruct (state f) eqn:Hstate.
    + destruct (decide _); [by injection H as <- <-|].
      destruct (decide _); [by injection H as <- <-|].
      by eapply forwardIfActive_showing.
    + pose proof (handleCompletedState_showing f key) as K.
      injection H as H. by rewrite H in K.
    + pose proof (handleCompletedState_showing f key) as K.
      injection H as H. by rewrite H in K.
  - by eapply forwardIfActive_showing.
Qed.

Lemma Init_active fuel f f' cmd :
  Init fuel f = Ok (f', cmd) → state f' = StateActive → showing f'.
Proof.
  unfold Init. intros H Hactive.
  set (f1 := callOnInit (initStores f)) in *. cbv zeta in H.
  apply bind_Ok in H as (g & Hg & H).
  destruct (fst (MoveToFirstValid (navigator f1) g)) as [nav' [err|]].
  { injection H as <- <-. discriminate Hactive. }
  by eapply initCurrentForm_active.
Qed.

Lemma step_showing f f' : step f f' → activeIsShowing f → activeIsShowing f'.
Proof.
  intros H Hinv. destruct H.
  - intros Hactive. right. by eapply Init_active.
  - by eapply Update_showing.
  - by apply handleCompletedState_showing.
  - by eapply updateCurrentForm_showing.
  - intros Hactive. right. by eapply handleFormCompletion_active.
  - intros Hactive. right. by eapply initCurrentForm_active.
  - intros Hactive. discriminate Hactive.
Qed.

Lemma reachable_showing f0 f :
  reachable f0 f → activeIsShowing f0 → activeIsShowing f.
Proof.
  induction 1 as [|f f' _ IH Hstep]; [done|].
  intros H0. by eapply step_showing; [|apply IH].
Qed.

(** X16.  In every [Active] session reached from [Build], either [Init]
    has not run (no form is current and there is no widget) or a step is
    being shown: a form is current, its widget is in place and the cache
    holds its store, which is the store [GetCurrentFormData] returns. *)
Theorem active_session_shows_a_step (b : BobaBuilder) (f : Bobarista) :
  reachable (Build b) f →
  state f = StateActive →
  (Current (navigator f) = None ∧ currentForm f = None) ∨
  (∃ current w stored,
     Current (navigator f) = Some current ∧
     currentForm f = Some w ∧
     storedValues f (Form_ID current) = Some stored ∧
     GetCurrentFormData f = {| ID := Form_ID current; Values := Some stored |}).
Proof.
  intros Hreach Hactive.
  assert (H0 : activeIsShowing (Build b)) by (intros _; by left).
  destruct (reachable_showing _ f Hreach H0 Hactive)
    as [Hfresh|(current & w & Hcur & Hw & [stored Hstored])];
    [by left|right].
  exists current, w, stored. split_and!; try done.
  unfold GetCurrentFormData. by rewrite Hcur, Hstored.
Qed.

(** *** A flow in which nothing can be shown *)

(** X17.  Without an [OnInit] callback, [Init] on a session whose forms
    are all skipped by the default search (a session without forms
    included) returns at once with the session in [Error] state, one
    entry appended to the error list, [ErrNoValidForms] wrapped with the
    empty form ID, and the navigator and the widget as they were. *)
Theorem Init_without_valid_form (fuel : nat) (f : Bobarista) :
  OnInit (config f) = None →
  (∀ i, 0 ≤ i < GetFormCount (navigator f) →
        skippedAt (navigator f) (GetGlobalData f) i = true) →
  ∃ f', Init fuel f = Ok (f', CmdNil) ∧
        state f' = StateError ∧
        errors f' = errors f ++ [CupSleeveError EmptyString ErrNoValidForms] ∧
        navigator f' = navigator f ∧
        currentForm f' = currentForm f.
Proof.
  intros Hinit Hall. unfold Init, callOnInit.
  change (config (initStores f)) with (config f). rewrite Hinit.
  cbv zeta. simpl globalData. simpl deref. rewrite Ok_bind.
  simpl navigator. rewrite (MoveToFirstValid_none _ _ Hall).
  eexists. split; [reflexivity|]. by split_and!.
Qed.

(** *** From a completed step to the next form *)

Lemma MoveTo_from_current (n : Navigator) (r : Z) :
  0 ≤ r < GetFormCount n → 0 ≤ currentIdx n →
  MoveTo n r =
  ({| forms := forms n; currentIdx := r;
      history := history n ++ [currentIdx n] |}, None).
Proof.
  intros Hr Hcur. unfold MoveTo.
  destruct (r <? 0) eqn:Hlo; [lia|].
  destruct (r >=? GetFormCount n) eqn:Hhi; [lia|]. simpl.
  destruct (currentIdx n >=? 0) eqn:E; [done|lia].
Qed.

Lemma cache_entry_default (m : option (gmap string FormValues)) (key : string) :
  default NewFormValues
    (match default ∅ m !! key with
     | Some _ => default ∅ m
     | None => <[key := NewFormValues]> (default ∅ m)
     end !! key) =
  default NewFormValues (match m with Some c => c !! key | None => None end).
Proof.
  destruct m as [c|].
  - change (default ∅ (Some c)) with c.
    destruct (c !! key) eqn:E; [by rewrite E|by rewrite lookup_insert_eq].
  - change (default ∅ None) with (∅ : gmap string FormValues).
    rewrite lookup_empty. by rewrite lookup_insert_eq.
Qed.

(** X18.  The step from one form to the next.  The current step has
    neither a completion handler nor custom navigation; [merged] is the
    global data with the step's cached store merged into it; [j] is the
    first position after the current one that the default search does
    not skip on [merged]; the form there is not skipped on its own
    cached store either, and its generator returns a widget.  Then
    [handleFormCompletion] returns with that form current and its widget
    in place, the index of the completed step appended to the history,
    and the session state and the error list as they were. *)
Theorem completion_shows_next_form (fuel : nat) (f : Bobarista)
  (current : Form) (g : FormData) (gv : FormValues) (j : Z) (next : Form)
  (gen : FormGenerator) (w : huhForm) :
  Current (navigator f) = Some current →
  NextForm current = None →
  OnComplete current = None →
  globalData f = Some g →
  Values g = Some gv →
  let merged :=
    {| ID := ID g;
       Values := Some (FV.Merge gv
                         (Some (default NewFormValues
                                  (storedValues f (Form_ID current))))) |} in
  currentIdx (navigator f) + 1 ≤ j < GetFormCount (navigator f) →
  skippedAt (navigator f) merged j = false →
  (∀ i, currentIdx (navigator f) + 1 ≤ i < j →
        skippedAt (navigator f) merged i = true) →
  forms (navigator f) !! Z.to_nat j = Some next →
  notSkippedOnCache f next merged →
  Generator next = Some gen →
  gen (default NewFormValues (storedValues f (Form_ID next))) (Values merged)
    = Some w →
  ∃ f', handleFormCompletion (S fuel) f = Ok (f', WidgetCmd) ∧
        currentIdx (navigator f') = j ∧
        history (navigator f') =
          history (navigator f) ++ [currentIdx (navigator f)] ∧
        currentForm f' = Some w ∧
        state f' = state f ∧
        errors f' = errors f.
Proof.
  intros Hcur Hnext Hdone Hg Hgv merged Hj Hno Hbefore Hlookup Hcache Hgen Hw.
  pose proof (Current_Some_range _ _ Hcur) as [Hrange _].
  unfold handleFormCompletion. rewrite Hcur.
  unfold runOnComplete.
  rewrite (debugDump_Ok f g gv Hg Hgv), Ok_bind, Hdone, Ok_bind.
  unfold mergeIntoGlobal.
  erewrite debugDumpStep_Ok by reflexivity. rewrite Ok_bind.
  rewrite (debugDump_Ok f g gv Hg Hgv), Ok_bind, Hg. simpl deref.
  rewrite Ok_bind, Hgv. simpl deref. rewrite Ok_bind.
  cbn [Values]. fold merged. rewrite Ok_bind.
  unfold navigateAfter.
  change (deref (globalData (withGlobalData f (Some merged))))
    with (Ok merged).
  rewrite Ok_bind. cbv zeta. simpl navigator.
  assert (HN : fst (Next (navigator f) merged) = (j, None)).
  { rewrite Next_default_is_search
      by (unfold noCustomNavigation; by rewrite Hcur).
    unfold searchStart. rewrite Hcur.
    apply findNextValidForm_is; [lia|exact Hj|exact Hno|exact Hbefore]. }
  destruct (Next (navigator f) merged) as [[r err] cs]. simpl in HN.
  injection HN as -> ->. cbn [fst snd].
  destruct (j =? -2) eqn:E2; [lia|]. destruct (j =? -1) eqn:E1; [lia|].
  rewrite MoveTo_from_current by lia.
  cbn [initCurrentForm]. simpl navigator.
  assert (Hnow : Current {| forms := forms (navigator f); currentIdx := j;
                            history := history (navigator f) ++
                                       [currentIdx (navigator f)] |}
                 = Some next).
  { unfold Current, GetFormCount in *. simpl.
    destruct (0 <=? j) eqn:Hlo; [|lia].
    destruct (j <? Z.of_nat (length (forms (navigator f)))) eqn:Hhi; [|lia].
    exact Hlookup. }
  rewrite Hnow. cbv zeta.
  match goal with
  | |- context [debugDump ?f0] =>
      rewrite (debugDump_Ok f0 merged
                 (FV.Merge gv (Some (default NewFormValues
                                     (storedValues f (Form_ID current))))))
        by reflexivity
  end.
  rewrite Ok_bind. simpl formValues.
  rewrite (cache_entry_default (formValues f) (Form_ID next)).
  fold (storedValues f (Form_ID next)).
  assert (Hshow : ∀ f0,
    globalData f0 = Some merged →
    ∃ f', generateForm f0 next
            (default NewFormValues (storedValues f (Form_ID next)))
          = Ok (f', WidgetCmd) ∧
          navigator f' = navigator f0 ∧ currentForm f' = Some w ∧
          globalData f' = globalData f0 ∧ state f' = state f0 ∧
          errors f' = errors f0).
  { intros f0 Hg0. unfold generateForm. rewrite Hgen, Hg0. simpl deref.
    rewrite Ok_bind. cbv zeta. rewrite Hw. eexists. by split_and!. }
  unfold notSkippedOnCache in Hcache.
  destruct (ShouldSkip next) as [skip|].
  - simpl globalData. simpl deref. rewrite Ok_bind. cbv zeta.
    rewrite Hcache.
    match goal with
    | |- context [generateForm ?f0 next _] =>
        destruct (Hshow f0 eq_refl) as (f' & Hrun & Hn & Hwf & Hgf & Hs & He)
    end.
    exists f'. rewrite Hrun. split_and!; try done.
    + by rewrite Hn.
    + by rewrite Hn.
  - match goal with
    | |- context [generateForm ?f0 next _] =>
        destruct (Hshow f0 eq_refl) as (f' & Hrun & Hn & Hwf & Hgf & Hs & He)
    end.
    exists f'. rewrite Hrun. split_and!; try done.
    + by rewrite Hn.
    + by rewrite Hn.
Qed.

(** *** A session that has ended *)


(** ** The viewport *)

Lemma wrap_small (z : Z) : - 2 ^ 63 ≤ z < 2 ^ 63 → internal.wrap z = z.
Proof.
  intros Hz. unfold internal.wrap.
  rewrite Z.mod_small by lia. lia.
Qed.

Lemma max_spec (a b : Z) : internal.max a b = Z.max a b.
Proof. unfold internal.max. destruct (a >? b) eqn:E; lia. Qed.

Lemma min_spec (a b : Z) : internal.min a b = Z.min a b.
Proof. unfold internal.min. destruct (a <? b) eqn:E; lia. Qed.

Lemma len_nonneg (v : internal.Viewport) : 0 ≤ internal.len v.
Proof. unfold internal.len. lia. Qed.

Lemma Scroll_offset (v : internal.Viewport) (delta : Z) :
  screenSized v →
  internal.offset (internal.Scroll v delta) =
  Z.max 0 (Z.min (Z.max 0 (internal.len v - internal.height v))
             (internal.wrap (internal.offset v + delta))).
Proof.
  intros [Hh Hlen]. pose proof (len_nonneg v). unfold internal.Scroll. simpl.
  rewrite !max_spec, min_spec, (wrap_small (internal.len v - internal.height v))
    by lia.
  reflexivity.
Qed.

(** X20.  [Scroll] never leaves a negative offset, whatever the viewport
    and the distance, and it changes neither the size nor the content.
    In a viewport with a height from 0 up, the offset after [Scroll]
    leaves a full page, or the whole content when it is shorter than a
    page, in view. *)
Theorem Scroll_keeps_offset_in_bounds (v : internal.Viewport) (delta : Z) :
  0 ≤ internal.offset (internal.Scroll v delta) ∧
  internal.content (internal.Scroll v delta) = internal.content v ∧
  internal.height (internal.Scroll v delta) = internal.height v ∧
  internal.width (internal.Scroll v delta) = internal.width v ∧
  (screenSized v → offsetInBounds (internal.Scroll v delta)).
Proof.
  split_and!; try reflexivity.
  - unfold internal.Scroll. simpl. rewrite max_spec. lia.
  - intros Hsized. unfold offsetInBounds. rewrite (Scroll_offset v delta Hsized).
    change (internal.len (internal.Scroll v delta)) with (internal.len v).
    change (internal.height (internal.Scroll v delta)) with (internal.height v).
    lia.
Qed.

Lemma VisibleContent_page (v : internal.Viewport) :
  screenSized v → offsetInBounds v →
  internal.VisibleContent v =
    Some (take (Z.to_nat (internal.height v))
            (drop (Z.to_nat (internal.offset v)) (internal.content v))) ∧
  length (take (Z.to_nat (internal.height v))
            (drop (Z.to_nat (internal.offset v)) (internal.content v))) =
    Z.to_nat (Z.min (internal.height v) (internal.len v)).
Proof.
  intros [Hh Hlen] Hoff. unfold offsetInBounds in Hoff.
  pose proof (len_nonneg v) as Hnn. split.
  - unfold internal.VisibleContent.
    destruct (internal.len v =? 0) eqn:E0.
    + unfold internal.len in E0.
      destruct (internal.content v); [|simpl in E0; lia].
      by rewrite drop_nil, take_nil.
    + cbv zeta. rewrite min_spec, wrap_small by lia.
      destruct (internal.offset v >=? internal.len v) eqn:Ege.
      * rewrite drop_ge by (unfold internal.len in *; lia).
        by rewrite take_nil.
      * destruct (0 <=? internal.offset v) eqn:Hlo; [|lia].
        destruct (internal.offset v <=?
                  Z.min (internal.offset v + internal.height v) (internal.len v))
          eqn:Hhi; [|lia].
        simpl. f_equal.
        destruct (Z.le_ge_cases (internal.offset v + internal.height v)
                    (internal.len v)) as [Hfit|Hover].
        -- f_equal. lia.
        -- rewrite !take_ge; [done| |];
             rewrite length_drop; unfold internal.len in *; lia.
  - rewrite length_take, length_drop. unfold internal.len in *. lia.
Qed.

(** X21.  After [Scroll] in a viewport with a height from 0 up,
    [VisibleContent] does not panic and returns the page of [height]
    lines that starts at the offset; the page is full when the content
    has at least [height] lines and is the whole content otherwise. *)
Theorem VisibleContent_after_Scroll (v : internal.Viewport) (delta : Z) :
  screenSized v →
  let v' := internal.Scroll v delta in
  internal.VisibleContent v' =
    Some (take (Z.to_nat (internal.height v))
            (drop (Z.to_nat (internal.offset v')) (internal.content v))) ∧
  length (take (Z.to_nat (internal.height v))
            (drop (Z.to_nat (internal.offset v')) (internal.content v))) =
    Z.to_nat (Z.min (internal.height v) (internal.len v)).
Proof.
  intros Hsized v'.
  assert (Hsized' : screenSized v') by exact Hsized.
  assert (Hoff : offsetInBounds v').
  { unfold offsetInBounds. subst v'. rewrite (Scroll_offset v delta Hsized).
    change (internal.len (internal.Scroll v delta)) with (internal.len v).
    change (internal.height (internal.Scroll v delta)) with (internal.height v).
    lia. }
  exact (VisibleContent_page v' Hsized' Hoff).
Qed.

(** X22.  One line at a time: in a viewport with a height from 0 up and
    an offset in bounds, [Scroll] by 1 moves the offset down by one line
    exactly when [CanScrollDown] holds and changes nothing otherwise, and
    [Scroll] by -1 moves it up by one line exactly when [CanScrollUp]
    holds and changes nothing otherwise. *)
Theorem Scroll_by_one_line (v : internal.Viewport) :
  screenSized v → offsetInBounds v →
  (internal.CanScrollDown v = true →
     internal.offset (internal.Scroll v 1) = internal.offset v + 1) ∧
  (internal.CanScrollDown v = false → internal.Scroll v 1 = v) ∧
  (internal.CanScrollUp v = true →
     internal.offset (internal.Scroll v (-1)) = internal.offset v - 1) ∧
  (internal.CanScrollUp v = false → internal.Scroll v (-1) = v).
Proof.
  intros Hsized Hoff. pose proof Hsized as [Hh Hlen].
  pose proof (len_nonneg v) as Hnn. unfold offsetInBounds in Hoff.
  assert (Hsame : ∀ delta,
    internal.offset (internal.Scroll v delta) = internal.offset v →
    internal.Scroll v delta = v).
  { intros delta Heq. destruct v as [o w h c]. unfold internal.Scroll in *.
    simpl in *. by rewrite Heq. }
  unfold internal.CanScrollDown, internal.CanScrollUp.
  rewrite (wrap_small (internal.len v - internal.height v)) by lia.
  split_and!.
  - intros Hdown. rewrite (Scroll_offset v 1 Hsized), wrap_small by lia. lia.
  - intros Hdown. apply Hsame.
    rewrite (Scroll_offset v 1 Hsized), wrap_small by lia. lia.
  - intros Hup. rewrite (Scroll_offset v (-1) Hsized), wrap_small by lia. lia.
  - intros Hup. apply Hsame.
    rewrite (Scroll_offset v (-1) Hsized), wrap_small by lia. lia.
Qed.

(** ** The renderer *)

Lemma foldl_HandleScroll_size (ds : list Z) (r : Renderer) :
  internal.height (viewport (foldl HandleScroll r ds)) =
    internal.height (viewport r) ∧
  internal.width (viewport (foldl HandleScroll r ds)) =
    internal.width (viewport r).
Proof.
  revert r. induction ds as [|d ds IH]; intros r; simpl; [done|].
  destruct (IH (HandleScroll r d)) as [-> ->]. done.
Qed.

(** X23.  Scrolling does not move the completed screen: [renderCompleted]
    gives the viewport its content again, which puts the offset back to
    0, so after any number of [HandleScroll] calls it shows the same
    lines and the same footer as without them, never reports that one
    can scroll up, and, for a height from 0 up, shows the first [height]
    lines. *)
Theorem scrolling_does_not_move_completed_screen (r : Renderer)
  (ds : list Z) (lines : list string) :
  let shown := renderCompleted_page (foldl HandleScroll r ds) lines in
  snd (fst shown) = snd (fst (renderCompleted_page r lines)) ∧
  snd shown = snd (renderCompleted_page r lines) ∧
  internal.offset (viewport (fst (fst shown))) = 0 ∧
  internal.CanScrollUp (viewport (fst (fst shown))) = false ∧
  (0 ≤ internal.height (viewport r) < 2 ^ 62 →
   Z.of_nat (length lines) < 2 ^ 62 →
   snd (fst shown) =
     Some (take (Z.to_nat (internal.height (viewport r))) lines)).
Proof.
  destruct (foldl_HandleScroll_size ds r) as [Hh Hw].
  assert (Hset : internal.SetContent (viewport (foldl HandleScroll r ds)) lines
                 = internal.SetContent (viewport r) lines).
  { unfold internal.SetContent. by rewrite Hh, Hw. }
  cbv zeta. unfold renderCompleted_page. rewrite Hset. simpl.
  split_and!; try reflexivity.
  intros Hheight Hlen.
  destruct (VisibleContent_page (internal.SetContent (viewport r) lines))
    as [Hpage _].
  - split; [exact Hheight|exact Hlen].
  - unfold offsetInBounds. simpl. lia.
  - rewrite Hpage. simpl. by rewrite drop_0.
Qed.

(** X24.  A window of fewer than four rows: after [UpdateSize] with such
    a height the viewport's height is negative, and [renderCompleted]
    panics in [VisibleContent] for any list of lines that is not empty
    (the list that [strings.Split] returns never is); from four rows up
    it shows the first [height - 4] lines. *)
Theorem small_window_panics (r : Renderer) (frame width rows : Z)
  (lines : list string) :
  lines ≠ [] →
  Z.of_nat (length lines) < 2 ^ 62 →
  (- 2 ^ 62 < rows < 4 →
     snd (fst (renderCompleted_page (UpdateSize r frame width rows) lines))
     = None) ∧
  (4 ≤ rows < 2 ^ 62 →
     snd (fst (renderCompleted_page (UpdateSize r frame width rows) lines))
     = Some (take (Z.to_nat (rows - 4)) lines)).
Proof.
  intros Hlines Hlen.
  assert (Hpos : 0 < Z.of_nat (length lines)).
  { destruct lines; [done|simpl; lia]. }
  unfold renderCompleted_page, UpdateSize. simpl. split.
  - intros Hrows. unfold internal.VisibleContent, internal.len. simpl.
    destruct (Z.of_nat (length lines) =? 0) eqn:E0; [lia|].
    rewrite min_spec, (wrap_small (rows - 4)), wrap_small by lia.
    destruct (0 >=? Z.of_nat (length lines)) eqn:Ege; [lia|].
    destruct (0 <=? Z.min (0 + (rows - 4)) (Z.of_nat (length lines))) eqn:E;
      [lia|done].
  - intros Hrows.
    destruct (VisibleContent_page
                (internal.SetContent
                   (internal.SetSize (viewport r)
                      (if width <? renderer_maxWidth r
                       then internal.wrap (width - frame)
                       else internal.wrap (renderer_maxWidth r - frame))
                      (internal.wrap (rows - 4))) lines))
      as [Hpage _].
    + unfold screenSized, internal.len. simpl. rewrite wrap_small by lia. lia.
    + unfold offsetInBounds. simpl. lia.
    + rewrite Hpage. simpl. rewrite drop_0, wrap_small by lia. done.
Qed.

(** ** The navigator's queries *)

Lemma collectGroup_filter (rest : list Form) (group : string) (acc : list Form) :
  collectGroup rest group acc =
  acc ++ filter (λ form, Group form = group) rest.
Proof.
  revert acc. induction rest as [|form rest IH]; intros acc; simpl.
  - by rewrite app_nil_r.
  - rewrite filter_cons.
    destruct (decide (Group form = group)); rewrite IH; [|done].
    by rewrite <- app_assoc.
Qed.

(** X25.  [GetFormsByGroup] returns the forms of the group, each once for
    each time it is in the flow, in the order of the flow: a form is
    returned exactly when it is in the flow and its group is the one
    asked for. *)
Theorem GetFormsByGroup_is_filter (n : Navigator) (group : string) :
  GetFormsByGroup n group = filter (λ form, Group form = group) (forms n) ∧
  GetFormsByGroup n group `sublist_of` forms n ∧
  ∀ form, form ∈ GetFormsByGroup n group ↔
          form ∈ forms n ∧ Group form = group.
Proof.
  assert (H : GetFormsByGroup n group
              = filter (λ form, Group form = group) (forms n)).
  { unfold GetFormsByGroup. by rewrite collectGroup_filter. }
  rewrite H. split_and!; [done|apply sublist_filter|].
  intros form. rewrite list_elem_of_filter. tauto.
Qed.

Lemma last_None_nil {A} (l : list A) : last l = None → l = [].
Proof.
  destruct l as [|a l] using rev_ind; [done|]. by rewrite last_snoc.
Qed.

(** X26.  [HasPrevious] holds exactly when [Back] succeeds.  When
    [HasNext] is false, in a navigator whose current index is [-1] or a
    position in the flow and whose current form has no custom
    navigation, [Next] finds no form: it returns [-1] and no error. *)
Theorem HasPrevious_HasNext_spec (n : Navigator) (g : FormData) :
  HasPrevious n = snd (Back n) ∧
  (navigatorOK n → noCustomNavigation n → HasNext n = false →
   fst (Next n g) = (-1, None)).
Proof.
  split.
  - unfold HasPrevious, Back.
    destruct (last (history n)) as [top|] eqn:Hlast.
    + destruct (history n); [done|reflexivity].
    + by rewrite (last_None_nil _ Hlast).
  - intros [Hidx _] Hcustom Hnext.
    rewrite (Next_default_is_search n g Hcustom).
    apply findNextValidForm_none; [apply searchStart_nonneg|].
    intros i Hi. exfalso.
    unfold HasNext in Hnext. apply Z.ltb_ge in Hnext.
    unfold searchStart in Hi.
    destruct (Current n) as [current|] eqn:Hcur; [lia|].
    destruct Hidx as [Hidx|Hidx]; [lia|].
    unfold inRange in Hidx. unfold Current in Hcur.
    destruct (0 <=? currentIdx n) eqn:Hlo; [|lia].
    destruct (currentIdx n <? GetFormCount n) eqn:Hhi; [|lia].
    simpl in Hcur. apply lookup_ge_None in Hcur.
    unfold GetFormCount in Hidx. lia.
Qed.

(** ** The recorded errors *)

Lemma keepsAsserted_fields (f f' : Bobarista) :
  errors f' = errors f → keepsAsserted f f'.
Proof. intros He. unfold keepsAsserted. by rewrite He. Qed.

Lemma addError_entry (f : Bobarista) (formID : string) (err : error) :
  ∃ e, errors (addError f formID err) = errors f ++ [e] ∧
       isCupSleeveError e = true ∧
       (isCupSleeveError err = true → e = err) ∧
       (isCupSleeveError err = false →
        e = CupSleeveError formID err ∧ Unwrap e = Some err).
Proof.
  unfold addError. destruct err as [msg|id inner|id i j]; simpl;
    eexists; (split; [reflexivity|]); split_and!; done.
Qed.

Lemma reachable_asserted (f0 f : Bobarista) :
  reachable f0 f → keepsAsserted f0 f.
Proof.
  apply (reachable_R keepsAsserted);
    try (intros; by apply keepsAsserted_fields).
  - intros f1 f2 f3 H12 H23 H1. by apply H23, H12.
  - intros f1 formID err H1.
    destruct (addError_entry f1 formID err) as (e & -> & He & _).
    apply Forall_app. split; [exact H1|]. by apply Forall_singleton.
Qed.

(** X27.  Every error that a session reached from [Build] has recorded
    passes the type assertion to [CupSleeveError].  [addError] appends
    exactly one entry: an error that is already a [CupSleeveError] as it
    is, any other error wrapped with the form ID, [Unwrap] of the entry
    then being the error that was handed in.  A [CupSleeveError] with a
    nil inner error is recorded as it is: [Unwrap] of that entry is nil
    and its [Error] method panics. *)
Theorem recorded_errors_are_CupSleeveErrors (b : BobaBuilder) (f : Bobarista) :
  reachable (Build b) f →
  Forall (λ e, isCupSleeveError e = true) (GetErrors f) ∧
  (∀ formID err,
     ∃ e, GetErrors (addError f formID err) = GetErrors f ++ [e] ∧
          (isCupSleeveError err = true → e = err) ∧
          (isCupSleeveError err = false →
           e = CupSleeveError formID err ∧ Unwrap e = Some err)) ∧
  (∀ formID inner,
     GetErrors (addError f formID (mkCupSleeveError inner None))
       = GetErrors f ++ [mkCupSleeveError inner None] ∧
     Unwrap (mkCupSleeveError inner None) = None ∧
     Error (mkCupSleeveError inner None) = None).
Proof.
  intros Hreach. split_and!.
  - apply (reachable_asserted _ _ Hreach). constructor.
  - intros formID err.
    destruct (addError_entry f formID err) as (e & He & _ & Hsame & Hwrap).
    by exists e.
  - intros formID inner. by split_and!.
Qed.


(** ** Text *)

(** The comparisons of a branch, as propositions. *)
Ltac comparisons :=
  repeat match goal with
  | H : (_ <=? _) = true |- _ => apply Z.leb_le in H
  | H : (_ <=? _) = false |- _ => apply Z.leb_gt in H
  | H : (_ =? _) = true |- _ => apply Z.eqb_eq in H
  | H : (_ =? _) = false |- _ => apply Z.eqb_neq in H
  | H : (_ >? _) = _ |- _ => rewrite Z.gtb_ltb in H
  | H : (_ <? _) = true |- _ => apply Z.ltb_lt in H
  | H : (_ <? _) = false |- _ => apply Z.ltb_ge in H
  end.

Lemma length_append (s1 s2 : string) :
  String.length (s1 +:+ s2) = (String.length s1 + String.length s2)%nat.
Proof. induction s1 as [|c s1 IH]; simpl; [done|by rewrite IH]. Qed.

Lemma append_assoc (s1 s2 s3 : string) :
  (s1 +:+ s2) +:+ s3 = s1 +:+ (s2 +:+ s3).
Proof.
  induction s1 as [|c s1 IH]; [done|].
  change (String c ((s1 +:+ s2) +:+ s3) = String c (s1 +:+ (s2 +:+ s3))).
  by rewrite IH.
Qed.

Lemma length_substring (n : nat) (s : string) :
  (n ≤ String.length s)%nat → String.length (String.substring 0 n s) = n.
Proof.
  revert n. induction s as [|c s IH]; intros [|n] Hn; simpl in *; try done.
  - lia.
  - rewrite IH; [done|lia].
Qed.

Lemma substring_prefix (n : nat) (s : string) :
  (n ≤ String.length s)%nat → isPrefixOf (String.substring 0 n s) s.
Proof.
  revert n. induction s as [|c s IH]; intros [|n] Hn; simpl in *.
  - by exists EmptyString.
  - lia.
  - by exists (String c s).
  - destruct (IH n) as [rest Hrest]; [lia|].
    exists rest.
    change (String c s = String c (String.substring 0 n s +:+ rest)).
    by rewrite <- Hrest.
Qed.

(** X28.  [TruncateString] panics for every negative length.  For a
    length from 0 up it returns a string of at most [length] bytes: the
    string itself when it fits; its first [length] bytes, without dots,
    when it does not fit and the length is at most 3; and otherwise its
    first [length - 3] bytes followed by three dots. *)
Theorem TruncateString_spec (s : string) (n : Z) :
  (n < 0 → internal.TruncateString s n = None) ∧
  (0 ≤ n →
   ∃ r, internal.TruncateString s n = Some r ∧
        Z.of_nat (String.length r) = Z.min (Z.of_nat (String.length s)) n ∧
        (Z.of_nat (String.length s) ≤ n → r = s) ∧
        (n < Z.of_nat (String.length s) → n ≤ 3 → isPrefixOf r s) ∧
        (n < Z.of_nat (String.length s) → 3 < n →
         ∃ p, r = p +:+ "..." ∧ isPrefixOf p s)).
Proof.
  unfold internal.TruncateString. split.
  - intros Hn.
    destruct (Z.of_nat (String.length s) <=? n) eqn:Hfit;
      destruct (n <=? 3) eqn:Hshort; destruct (0 <=? n) eqn:Hpos;
      comparisons; first [done|lia].
  - intros Hn.
    destruct (Z.of_nat (String.length s) <=? n) eqn:Hfit; comparisons.
    { exists s. split_and!; try done; lia. }
    destruct (n <=? 3) eqn:Hshort; comparisons.
    + destruct (0 <=? n) eqn:Hpos; comparisons; [|lia].
      eexists. split; [reflexivity|].
      rewrite length_substring by lia.
      split_and!; try lia.
      intros _ _. apply substring_prefix. lia.
    + eexists. split; [reflexivity|].
      rewrite length_append, length_substring by lia. simpl.
      split_and!; try lia.
      intros _ _. eexists. split; [reflexivity|].
      apply substring_prefix. lia.
Qed.

Lemma unwords_snoc (g : list string) (w : string) :
  g ≠ [] → unwords (g ++ [w]) = unwords g +:+ (" " +:+ w).
Proof.
  unfold unwords. induction g as [|x g IH]; [done|]. intros _.
  destruct g as [|y g]; [done|].
  change (String.concat " " ((x :: y :: g) ++ [w]))
    with (x +:+ (" " +:+ String.concat " " ((y :: g) ++ [w]))).
  rewrite IH by done.
  change (String.concat " " (x :: y :: g))
    with (x +:+ (" " +:+ String.concat " " (y :: g))).
  by rewrite !append_assoc.
Qed.

Lemma unwords_empty (g : list string) :
  Forall (λ w, w ≠ EmptyString) g → String.length (unwords g) = 0%nat → g = [].
Proof.
  destruct g as [|x g]; [done|]. intros Hg Hlen. exfalso.
  apply Forall_cons in Hg as [Hx _].
  assert (String.length x ≠ 0)%nat by (destruct x; [done|simpl; lia]).
  unfold unwords in Hlen. destruct g as [|y g]; simpl in Hlen; [done|].
  rewrite length_append in Hlen. lia.
Qed.

Lemma join_snoc_group {A} (gs : list (list A)) (g : list A) (w : A) :
  mjoin (gs ++ [g ++ [w]]) = mjoin (gs ++ [g]) ++ [w].
Proof. rewrite !join_app. simpl. by rewrite !app_nil_r, app_assoc. Qed.

Lemma join_new_group {A} (gs : list (list A)) (g : list A) (w : A) :
  mjoin ((gs ++ [g]) ++ [[w]]) = mjoin (gs ++ [g]) ++ [w].
Proof. rewrite (join_app (gs ++ [g])). done. Qed.

Lemma wrapWord_groups (width : Z) (ws : list string) :
  Forall (λ w, w ≠ EmptyString) ws →
  ∀ gs g,
    Forall (λ w, w ≠ EmptyString) g →
    Forall (lineOK width) gs →
    (g = [] ∨ lineOK width g) →
    ∃ gs' g',
      foldl (internal.wrapWord width) (unwords <$> gs, unwords g) ws
        = (unwords <$> gs', unwords g') ∧
      mjoin (gs' ++ [g']) = mjoin (gs ++ [g]) ++ ws ∧
      Forall (λ w, w ≠ EmptyString) g' ∧
      Forall (lineOK width) gs' ∧
      (g' = [] ∨ lineOK width g') ∧
      (ws ≠ [] → g' ≠ []).
Proof.
  induction ws as [|w ws IH]; intros Hws gs g Hg Hgs Hlast.
  { exists gs, g. split_and!; try done. by rewrite app_nil_r. }
  apply Forall_cons in Hws as [Hw Hws]. cbn [foldl].
  assert (Hstep : ∃ gs1 g1,
    internal.wrapWord width (unwords <$> gs, unwords g) w
      = (unwords <$> gs1, unwords g1) ∧
    mjoin (gs1 ++ [g1]) = mjoin (gs ++ [g]) ++ [w] ∧
    Forall (λ w, w ≠ EmptyString) g1 ∧
    Forall (lineOK width) gs1 ∧
    lineOK width g1).
  { unfold internal.wrapWord.
    destruct (Z.of_nat (String.length (unwords g)) =? 0) eqn:Hempty;
      comparisons.
    - assert (g = []) as -> by (apply unwords_empty; [done|lia]).
      exists gs, [w]. split_and!; try done.
      + apply (join_snoc_group gs [] w).
      + by apply Forall_singleton.
      + split; [done|]. right. by exists w.
    - assert (Hne : g ≠ []) by (intros ->; simpl in Hempty; lia).
      destruct (Z.of_nat (String.length (unwords g)) + 1
                + Z.of_nat (String.length w) <=? width) eqn:Hfits;
        comparisons.
      + exists gs, (g ++ [w]). split_and!; try done.
        * by rewrite unwords_snoc.
        * apply join_snoc_group.
        * apply Forall_app. split; [done|]. by apply Forall_singleton.
        * split; [by destruct g|]. left.
          rewrite unwords_snoc, !length_append by done. simpl. lia.
      + exists (gs ++ [g]), [w]. split_and!; try done.
        * by rewrite fmap_app.
        * apply join_new_group.
        * by apply Forall_singleton.
        * apply Forall_app. split; [done|]. apply Forall_singleton.
          by destruct Hlast.
        * split; [done|]. right. by exists w. }
  destruct Hstep as (gs1 & g1 & -> & Hjoin1 & Hg1 & Hgs1 & Hlast1).
  destruct (IH Hws gs1 g1 Hg1 Hgs1 (or_intror Hlast1))
    as (gs' & g' & Hrun & Hjoin & Hg' & Hgs' & Hlast' & Hne').
  exists gs', g'. split_and!; try done.
  - by rewrite Hjoin, Hjoin1, <- app_assoc.
  - intros _. destruct ws as [|w' ws]; [|by apply Hne'].
    simpl in Hrun. injection Hrun as _ Hcur.
    destruct Hlast1 as [Hne1 _]. intros ->.
    apply Hne1. apply unwords_empty; [done|]. by rewrite Hcur.
Qed.

(** X29.  [WrapText] with a width above 0 on a text that has words: the
    lines it returns are the words of the text in their order, each line
    some consecutive words joined by single spaces; no line is empty,
    and every line is within the width unless it is a single word. *)
Theorem WrapText_keeps_words (text : string) (fields : list string)
  (width : Z) :
  0 < width → fields ≠ [] →
  Forall (λ w, w ≠ EmptyString) fields →
  ∃ groups,
    internal.WrapText text fields width = unwords <$> groups ∧
    mjoin groups = fields ∧
    Forall (lineOK width) groups.
Proof.
  intros Hwidth Hfields Hwords. unfold internal.WrapText.
  destruct (width <=? 0) eqn:Hw; comparisons; [lia|].
  destruct (Z.of_nat (length fields) =? 0) eqn:Hlen; comparisons.
  { destruct fields; [done|simpl in Hlen; lia]. }
  destruct (wrapWord_groups width fields Hwords [] [])
    as (gs & g & Hrun & Hjoin & Hg & Hgs & Hlast & Hne); [done..|by left|].
  change ([], EmptyString) with (unwords <$> [], unwords []).
  rewrite Hrun. specialize (Hne Hfields).
  destruct Hlast as [->|Hlast]; [done|].
  destruct (Z.of_nat (String.length (unwords g)) >? 0) eqn:Hcur; comparisons.
  - exists (gs ++ [g]). split_and!.
    + by rewrite fmap_app.
    + by rewrite Hjoin.
    + apply Forall_app. split; [done|]. by apply Forall_singleton.
  - exfalso. apply Hne. apply unwords_empty; [done|lia].
Qed.

(** * The properties on the sample flows *)

(** Membership in a flow that is written out, form by form. *)
Ltac each_form Hin :=
  repeat (apply elem_of_cons in Hin as [->|Hin]);
  [..|by apply elem_of_nil in Hin].

(** The only index of a range that is written out. *)
Ltac the_index i Hi k :=
  assert (i = k) as -> by (unfold GetFormCount in Hi; simpl in Hi; lia).

Lemma store_round_trips_witness :
  FV.Get (FV.Set' sampleStore "name" "Bob") "note" = FV.Get sampleStore "note" ∧
  FV.Delete sampleStore "age" = sampleStore ∧
  FV.Has sampleStore "note" = true ∧
  FV.Get sampleStore "note" = (EmptyString, false).
Proof.
  destruct (store_round_trips sampleStore "name" "Bob")
    as (_ & _ & _ & _ & Hother & _).
  destruct (store_round_trips sampleStore "age" "1")
    as (_ & _ & _ & _ & _ & Habsent & _).
  destruct (store_round_trips sampleStore "note" "x")
    as (_ & _ & _ & _ & _ & _ & _ & Hnil).
  split.
  { destruct (Hother "note") as [H _]; [discriminate|exact H]. }
  split.
  { apply Habsent. vm_compute. reflexivity. }
  apply Hnil. vm_compute. reflexivity.
Defined.

Lemma GetFormByID_spec_witness :
  GetFormByID navABC "Z" = (None, -1, Some ErrFormNotFound) ∧
  GetFormByID navDuplicates "x" = (Some (NewForm "x" "one"), 0, None).
Proof.
  split.
  - apply (proj1 (GetFormByID_spec navABC "Z")).
    intros form Hin. unfold navABC in Hin. simpl in Hin.
    each_form Hin; discriminate.
  - apply (proj2 (GetFormByID_spec navDuplicates "x") 0%nat (NewForm "x" "one"));
      [reflexivity|reflexivity|intros j form' Hj; lia].
Defined.

Lemma ValidateNavigation_passes_iff_witness :
  forms navABC ≠ [] ∧
  Forall (λ f, Form_ID f ≠ EmptyString) (forms navABC) ∧
  NoDup (Form_ID <$> forms navABC) ∧
  Forall (λ f, Generator f ≠ None) (forms navABC).
Proof.
  apply (proj1 (ValidateNavigation_passes_iff navABC)).
  vm_compute. reflexivity.
Defined.

Lemma validated_forms_found_by_ID_witness :
  GetFormByID navABC "C" = (Some (sampleForm "C"), 2, None).
Proof.
  apply (validated_forms_found_by_ID navABC 2 (sampleForm "C"));
    vm_compute; reflexivity.
Defined.

Lemma Back_undoes_MoveTo_witness :
  Back (fst (MoveTo navABC 2)) = (navABC, true) ∧
  Back navABC = (navABC, false) ∧
  Back (fst (MoveTo navSkipFirst 1)) = (fst (MoveTo navSkipFirst 1), false).
Proof.
  destruct (Back_undoes_MoveTo navABC 2) as (Hundo & Hempty & _).
  destruct (Back_undoes_MoveTo navSkipFirst 1) as (_ & _ & Hfirst).
  split; [apply Hundo; [simpl; lia|reflexivity]|].
  split; [apply Hempty; reflexivity|].
  apply Hfirst; [simpl; lia|reflexivity|reflexivity].
Defined.

Lemma MoveToFirstValid_spec_witness :
  fst (MoveToFirstValid navAllSkipped quickData)
    = (navAllSkipped, Some ErrNoValidForms) ∧
  fst (MoveToFirstValid navSkipFirst quickData)
    = ({| forms := forms navSkipFirst; currentIdx := 1;
          history := history navSkipFirst |}, None).
Proof.
  split.
  - apply (proj1 (MoveToFirstValid_spec navAllSkipped quickData)).
    intros i Hi. the_index i Hi 0. reflexivity.
  - apply (proj2 (MoveToFirstValid_spec navSkipFirst quickData) 1).
    + unfold GetFormCount. simpl. lia.
    + reflexivity.
    + intros i Hi. assert (i = 0) as -> by lia. reflexivity.
Defined.

Lemma collector_keeps_order_witness :
  HasErrors (foldl Add NewErrorCollector [None; Some ErrNoGenerator]) = true.
Proof.
  destruct (collector_keeps_order NewErrorCollector
              [None; Some ErrNoGenerator] EmptyString) as (_ & _ & Hhas & _).
  apply Hhas. exists ErrNoGenerator.
  apply elem_of_cons. right. apply elem_of_cons. by left.
Defined.

Lemma Build_of_added_forms_witness :
  config (Build (WithColorScheme (New "sample") "ocean"))
  = builder_config (WithColorScheme (New "sample") "ocean").
Proof.
  pose proof (Build_of_added_forms "sample" []
                (WithColorScheme (New "sample") "ocean")) as H.
  cbv zeta in H. destruct H as (_ & _ & H).
  apply H. discriminate.
Defined.

Lemma errors_are_append_only_witness :
  errors (addError (Build flowAB) "a" ErrNoGenerator) ≠ [].
Proof.
  apply (proj2 (proj2 errors_are_append_only) flowAB).
  - eapply reachable_step; [apply reachable_start|apply step_addError].
  - reflexivity.
Defined.

Lemma flow_is_fixed_witness :
  forms (navigator (addError (Build flowAB) "a" ErrNoGenerator))
    = builder_forms flowAB ∧
  Forall (λ h, 0 ≤ h < Z.of_nat (length (builder_forms flowAB)))
    (history (navigator (addError (Build flowAB) "a" ErrNoGenerator))).
Proof.
  pose proof (flow_is_fixed flowAB (addError (Build flowAB) "a" ErrNoGenerator))
    as H.
  cbv zeta in H. destruct H as (_ & _ & Hforms & _ & Hhist).
  - eapply reachable_step; [apply reachable_start|apply step_addError].
  - split; [exact Hforms|exact Hhist].
Defined.


Lemma sequential_flow_never_hangs_witness :
  Init 3 (Build flowAB) ≠ OutOfFuel ∧
  Update 3 (Build flowAB) (KeyMsg "x") ≠ OutOfFuel.
Proof.
  apply (sequential_flow_never_hangs (Build flowAB) 3 (KeyMsg "x")).
  - intros form Hin. unfold flowAB in Hin. simpl in Hin.
    each_form Hin; reflexivity.
  - simpl. lia.
Defined.

Lemma self_jump_never_returns_witness :
  initCurrentForm 5 (started [stepLoop] "a") = OutOfFuel.
Proof.
  apply (self_jump_never_returns 5 (started [stepLoop] "a") stepLoop
           alwaysSkip (λ _, 0)
           {| ID := "global"; Values := Some {[ "plan" := Some "pro" ]} |}
           {[ "plan" := Some "pro" ]});
    reflexivity.
Defined.

Lemma active_session_shows_a_step_witness :
  (Current (navigator (Build flowAB)) = None ∧
   currentForm (Build flowAB) = None) ∨
  (∃ current w stored,
     Current (navigator (Build flowAB)) = Some current ∧
     currentForm (Build flowAB) = Some w ∧
     storedValues (Build flowAB) (Form_ID current) = Some stored ∧
     GetCurrentFormData (Build flowAB)
       = {| ID := Form_ID current; Values := Some stored |}).
Proof.
  apply (active_session_shows_a_step flowAB (Build flowAB)).
  - apply reachable_start.
  - reflexivity.
Defined.

Lemma Init_without_valid_form_witness :
  ∃ f', Init 1 (Build flowSkipped) = Ok (f', CmdNil) ∧
        state f' = StateError ∧
        errors f' = [CupSleeveError EmptyString ErrNoValidForms].
Proof.
  destruct (Init_without_valid_form 1 (Build flowSkipped))
    as (f' & Hrun & Hstate & Herrs & _).
  - reflexivity.
  - intros i Hi. the_index i Hi 0. reflexivity.
  - exists f'. split; [exact Hrun|]. split; [exact Hstate|exact Herrs].
Defined.

Lemma completion_shows_next_form_witness :
  ∃ f', handleFormCompletion 1 (started [sampleForm "a"; sampleForm "b"] "a")
          = Ok (f', WidgetCmd) ∧
        currentIdx (navigator f') = 1 ∧
        history (navigator f') = [0] ∧
        currentForm f' = Some sampleWidget.
Proof.
  destruct (completion_shows_next_form 0
              (started [sampleForm "a"; sampleForm "b"] "a") (sampleForm "a")
              {| ID := "global"; Values := Some {[ "plan" := Some "pro" ]} |}
              {[ "plan" := Some "pro" ]} 1 (sampleForm "b")
              sampleGenerator sampleWidget)
    as (f' & Hrun & Hidx & Hhist & Hwidget & _).
  - reflexivity.
  - reflexivity.
  - reflexivity.
  - reflexivity.
  - reflexivity.
  - unfold GetFormCount. simpl. lia.
  - reflexivity.
  - intros i Hi. simpl in Hi. lia.
  - reflexivity.
  - exact I.
  - reflexivity.
  - reflexivity.
  - exists f'. split; [exact Hrun|]. split; [exact Hidx|].
    split; [exact Hhist|exact Hwidget].
Defined.


Lemma Scroll_keeps_offset_in_bounds_witness :
  offsetInBounds (internal.Scroll sampleViewport 10).
Proof.
  apply (proj2 (proj2 (proj2 (proj2
           (Scroll_keeps_offset_in_bounds sampleViewport 10))))).
  unfold screenSized, internal.len. simpl. lia.
Defined.

Lemma VisibleContent_after_Scroll_witness :
  internal.VisibleContent (internal.Scroll sampleViewport 10) =
    Some (take 2 (drop (Z.to_nat (internal.offset
                                    (internal.Scroll sampleViewport 10)))
                    (internal.content sampleViewport))).
Proof.
  pose proof (VisibleContent_after_Scroll sampleViewport 10) as H.
  cbv zeta in H. destruct H as [H _].
  - unfold screenSized, internal.len. simpl. lia.
  - exact H.
Defined.

Lemma Scroll_by_one_line_witness :
  internal.offset (internal.Scroll sampleViewport 1) = 2 ∧
  internal.offset (internal.Scroll sampleViewport (-1)) = 0.
Proof.
  destruct (Scroll_by_one_line sampleViewport) as (Hdown & _ & Hup & _).
  - unfold screenSized, internal.len. simpl. lia.
  - unfold offsetInBounds, internal.len. simpl. lia.
  - split; [apply Hdown|apply Hup]; vm_compute; reflexivity.
Defined.

Lemma scrolling_does_not_move_completed_screen_witness :
  snd (fst (renderCompleted_page (foldl HandleScroll sampleRenderer [1; 1])
              ["a"; "b"]))
  = Some (take 24 ["a"; "b"]).
Proof.
  pose proof (scrolling_does_not_move_completed_screen sampleRenderer [1; 1]
                ["a"; "b"]) as H.
  cbv zeta in H. destruct H as (_ & _ & _ & _ & H).
  apply H; simpl; lia.
Defined.

Lemma small_window_panics_witness :
  snd (fst (renderCompleted_page (UpdateSize sampleRenderer 4 80 3) ["a"]))
    = None ∧
  snd (fst (renderCompleted_page (UpdateSize sampleRenderer 4 80 10) ["a"]))
    = Some (take 6 ["a"]).
Proof.
  split.
  - apply (proj1 (small_window_panics sampleRenderer 4 80 3 ["a"]
                    ltac:(discriminate) ltac:(simpl; lia))). lia.
  - apply (proj2 (small_window_panics sampleRenderer 4 80 10 ["a"]
                    ltac:(discriminate) ltac:(simpl; lia))). lia.
Defined.

Lemma GetFormsByGroup_is_filter_witness :
  sampleForm "B" ∈ GetFormsByGroup navSkipFirst EmptyString.
Proof.
  apply (proj2 (proj2 (GetFormsByGroup_is_filter navSkipFirst EmptyString))
           (sampleForm "B")).
  split; [|reflexivity].
  unfold navSkipFirst. simpl. apply elem_of_cons. right.
  apply elem_of_cons. by left.
Defined.

Lemma HasPrevious_HasNext_spec_witness :
  fst (Next navLast quickData) = (-1, None).
Proof.
  apply (proj2 (HasPrevious_HasNext_spec navLast quickData)).
  - split.
    + right. unfold inRange, GetFormCount. simpl. lia.
    + repeat constructor; unfold GetFormCount; simpl; lia.
  - reflexivity.
  - reflexivity.
Defined.

Lemma recorded_errors_are_CupSleeveErrors_witness :
  Forall (λ e, isCupSleeveError e = true)
    (GetErrors (addError (Build flowAB) "a" ErrNoGenerator)).
Proof.
  apply (proj1 (recorded_errors_are_CupSleeveErrors flowAB
                  (addError (Build flowAB) "a" ErrNoGenerator)
                  ltac:(eapply reachable_step;
                        [apply reachable_start|apply step_addError]))).
Defined.

Lemma TruncateString_spec_witness :
  internal.TruncateString "tea" (-1) = None ∧
  ∃ r, internal.TruncateString "bobarista" 6 = Some r ∧
       Z.of_nat (String.length r) = Z.min (Z.of_nat (String.length "bobarista")) 6.
Proof.
  split.
  - apply (proj1 (TruncateString_spec "tea" (-1))). lia.
  - destruct (proj2 (TruncateString_spec "bobarista" 6)) as (r & Hrun & Hlen & _);
      [lia|].
    exists r. split; [exact Hrun|exact Hlen].
Defined.

Lemma WrapText_keeps_words_witness :
  ∃ groups,
    internal.WrapText "a bb  ccc" ["a"; "bb"; "ccc"] 4 = unwords <$> groups ∧
    mjoin groups = ["a"; "bb"; "ccc"] ∧
    Forall (lineOK 4) groups.
Proof.
  apply (WrapText_keeps_words "a bb  ccc" ["a"; "bb"; "ccc"] 4);
    [lia|discriminate|repeat constructor; discriminate].
Defined.
